(** * email-invoice-manager: the invoice extraction pipeline of [main.go]

    A shallow embedding of the amount parser
    ([extractPriceBetweenTwoStrings]), the HTML text extractor
    ([extractTextFromHtml]) and the per-source message loop of
    [scrapeEmailInvoices], with the Go library functions they call
    ([strings.Index], [strings.Trim], [strings.Replace], [strings.TrimSpace],
    [strconv.ParseUint], [utf8.DecodeRuneInString]) modelled on byte strings.

    Go strings are byte sequences: a [gostring] is a [list ascii], one [ascii]
    per byte.  Indices and lengths are [Z], as Go's [int], so that the
    arithmetic on a [-1] returned by [strings.Index] is the arithmetic the
    program performs.  A slice expression out of range panics: [slice]
    returns [None] there.

    The message loop talks to Gmail, to [pdftotext] and to the HTML
    tokenizer: these are the fields of a [Services] record, and a round of
    the loop is a computation that lists the calls it makes and ends with a
    value, a [continue], a [log.Fatalf] or a panic.

    The first part of the file holds the definitions, module by module; the
    second part the lemmas and the theorems about them. *)

From Stdlib Require Import List ZArith Ascii String Bool Lia.
Import ListNotations.
Open Scope Z_scope.

(* ================================================================== *)
(** ** Byte strings *)

Module GoString.

Definition gostring := list ascii.

(** A string literal of the source, byte for byte. *)
Definition lit (s : string) : gostring := list_ascii_of_string s.

(** The numeric value of a byte, [0 .. 255]. *)
Definition bval (c : ascii) : Z := Z.of_N (N_of_ascii c).

Definition byte_of (n : Z) : ascii := ascii_of_N (Z.to_N n).

(** Go's [len(s)]. *)
Definition len (s : gostring) : Z := Z.of_nat (List.length s).

Definition eqb (a b : gostring) : bool :=
  if list_eq_dec ascii_dec a b then true else false.

(** [s[lo:hi]]: panics ([None]) unless [0 <= lo <= hi <= len(s)]. *)
Definition slice (s : gostring) (lo hi : Z) : option gostring :=
  if (0 <=? lo) && (lo <=? hi) && (hi <=? len s)
  then Some (firstn (Z.to_nat (hi - lo)) (skipn (Z.to_nat lo) s))
  else None.

(** [s[lo:]]. *)
Definition slice_from (s : gostring) (lo : Z) : option gostring :=
  slice s lo (len s).

(** [strings.HasPrefix]. *)
Fixpoint HasPrefix (s prefix : gostring) : bool :=
  match prefix, s with
  | [], _ => true
  | p :: prefix', c :: s' => Ascii.eqb p c && HasPrefix s' prefix'
  | _ :: _, [] => false
  end.

(** [strings.Index]: the byte offset of the first occurrence of [substr] in
    [s], or [-1]; the empty [substr] occurs at offset [0]. *)
Fixpoint Index (s substr : gostring) : Z :=
  if HasPrefix s substr then 0
  else match s with
       | [] => -1
       | _ :: s' => let i := Index s' substr in
                    if i <? 0 then -1 else i + 1
       end.

(** [strings.Contains]. *)
Definition Contains (s substr : gostring) : bool := 0 <=? Index s substr.

(** *** UTF-8 decoding ([unicode/utf8]) *)

Definition RuneError : Z := 0xFFFD.
Definition RuneSelf : Z := 0x80.
Definition UTFMax : Z := 4.

(** The table [first] together with [acceptRanges]: for a lead byte of a
    multi-byte sequence, the sequence's size and the range accepted for its
    second byte; [None] for ASCII and for bytes that start no sequence. *)
Definition leadInfo (s0 : Z) : option (Z * Z * Z) :=
  if (0xC2 <=? s0) && (s0 <=? 0xDF) then Some (2, 0x80, 0xBF)
  else if s0 =? 0xE0 then Some (3, 0xA0, 0xBF)
  else if (0xE1 <=? s0) && (s0 <=? 0xEC) then Some (3, 0x80, 0xBF)
  else if s0 =? 0xED then Some (3, 0x80, 0x9F)
  else if (0xEE <=? s0) && (s0 <=? 0xEF) then Some (3, 0x80, 0xBF)
  else if s0 =? 0xF0 then Some (4, 0x90, 0xBF)
  else if (0xF1 <=? s0) && (s0 <=? 0xF3) then Some (4, 0x80, 0xBF)
  else if s0 =? 0xF4 then Some (4, 0x80, 0x8F)
  else None.

(** A continuation byte lies in [locb .. hicb]. *)
Definition notCont (b : Z) : bool := (b <? 0x80) || (0xBF <? b).

(** [utf8.DecodeRuneInString]: the first rune of [s] and its width in bytes;
    [(RuneError, 0)] on the empty string, [(RuneError, 1)] on an invalid
    encoding. *)
Definition DecodeRuneInString (s : gostring) : Z * Z :=
  match s with
  | [] => (RuneError, 0)
  | c0 :: t0 =>
    let s0 := bval c0 in
    match leadInfo s0 with
    | None => if s0 <? RuneSelf then (s0, 1) else (RuneError, 1)
    | Some (sz, lo, hi) =>
      if len s <? sz then (RuneError, 1) else
      match t0 with
      | [] => (RuneError, 1)
      | c1 :: t1 =>
        let s1 := bval c1 in
        if (s1 <? lo) || (hi <? s1) then (RuneError, 1) else
        if sz <=? 2 then
          (Z.lor (Z.shiftl (Z.land s0 0x1F) 6) (Z.land s1 0x3F), 2)
        else
        match t1 with
        | [] => (RuneError, 1)
        | c2 :: t2 =>
          let s2 := bval c2 in
          if notCont s2 then (RuneError, 1) else
          if sz <=? 3 then
            (Z.lor (Z.lor (Z.shiftl (Z.land s0 0x0F) 12)
                          (Z.shiftl (Z.land s1 0x3F) 6))
                   (Z.land s2 0x3F), 3)
          else
          match t2 with
          | [] => (RuneError, 1)
          | c3 :: _ =>
            let s3 := bval c3 in
            if notCont s3 then (RuneError, 1) else
            (Z.lor (Z.lor (Z.lor (Z.shiftl (Z.land s0 0x07) 18)
                                 (Z.shiftl (Z.land s1 0x3F) 12))
                          (Z.shiftl (Z.land s2 0x3F) 6))
                   (Z.land s3 0x3F), 4)
          end
        end
      end
    end
  end.

(** [utf8.RuneStart]: the byte is not a continuation byte. *)
Definition RuneStart (b : Z) : bool := negb (Z.land b 0xC0 =? 0x80).

Definition byteAt (s : gostring) (i : Z) : Z :=
  bval (nth (Z.to_nat i) s zero).

(** The backward scan of [DecodeLastRuneInString]:
    [for start--; start >= lim; start-- { if RuneStart(s[start]) { break } }],
    entered with [start] already decremented.  At most [UTFMax - 1] bytes
    are inspected, so four rounds reach the exit. *)
Fixpoint scanBack (fuel : nat) (s : gostring) (start lim : Z) : Z :=
  match fuel with
  | O => start
  | S fuel' =>
    if start <? lim then start
    else if RuneStart (byteAt s start) then start
    else scanBack fuel' s (start - 1) lim
  end.

(** [utf8.DecodeLastRuneInString]. *)
Definition DecodeLastRuneInString (s : gostring) : Z * Z :=
  let e := len s in
  if e =? 0 then (RuneError, 0) else
  let r := byteAt s (e - 1) in
  if r <? RuneSelf then (r, 1) else
  let lim := Z.max 0 (e - UTFMax) in
  let start := Z.max 0 (scanBack 4 s (e - 2) lim) in
  let '(r, size) := DecodeRuneInString (skipn (Z.to_nat start) s) in
  if negb (start + size =? e) then (RuneError, 1) else (r, size).

(** The runes of a string, as a [for _, r := range s] loop yields them. *)
Fixpoint runes_loop (fuel : nat) (s : gostring) : list Z :=
  match fuel with
  | O => []
  | S fuel' =>
    match s with
    | [] => []
    | _ => let '(r, n) := DecodeRuneInString s in
           r :: runes_loop fuel' (skipn (Z.to_nat n) s)
    end
  end.

Definition runes (s : gostring) : list Z := runes_loop (List.length s) s.

(** [strings.ContainsRune]. *)
Definition ContainsRune (s : gostring) (r : Z) : bool :=
  existsb (Z.eqb r) (runes s).

(** *** Trimming *)

(** [strings.TrimLeftFunc] / [trimLeftUnicode]: drop leading runes while
    [f] holds.  Each round drops at least one byte, so [length s] rounds are
    enough. *)
Fixpoint trimLeft_loop (fuel : nat) (f : Z -> bool) (s : gostring) : gostring :=
  match fuel with
  | O => s
  | S fuel' =>
    match s with
    | [] => s
    | c :: _ =>
      let '(r, n) := if bval c <? RuneSelf then (bval c, 1)
                     else DecodeRuneInString s in
      if f r then trimLeft_loop fuel' f (skipn (Z.to_nat n) s) else s
    end
  end.

Definition TrimLeftFunc (s : gostring) (f : Z -> bool) : gostring :=
  trimLeft_loop (List.length s) f s.

(** [strings.TrimRightFunc] / [trimRightUnicode]: drop trailing runes while
    [f] holds. *)
Fixpoint trimRight_loop (fuel : nat) (f : Z -> bool) (s : gostring) : gostring :=
  match fuel with
  | O => s
  | S fuel' =>
    match s with
    | [] => s
    | _ =>
      let '(r, n) := if byteAt s (len s - 1) <? RuneSelf
                     then (byteAt s (len s - 1), 1)
                     else DecodeLastRuneInString s in
      if f r then trimRight_loop fuel' f (firstn (Z.to_nat (len s - n)) s)
      else s
    end
  end.

Definition TrimRightFunc (s : gostring) (f : Z -> bool) : gostring :=
  trimRight_loop (List.length s) f s.

(** [strings.Trim(s, cutset)]: all leading and trailing runes contained in
    [cutset] removed.  Go picks a byte-wise loop when [cutset] is ASCII only
    and the rune-wise one ([trimLeftUnicode (trimRightUnicode s)]) otherwise;
    both remove the same runes, and the cutset of this program is not ASCII
    only. *)
Definition Trim (s cutset : gostring) : gostring :=
  match s, cutset with
  | [], _ => s
  | _, [] => s
  | _, _ => TrimLeftFunc (TrimRightFunc s (ContainsRune cutset))
                         (ContainsRune cutset)
  end.

(** [unicode.IsSpace]. *)
Definition IsSpace (r : Z) : bool :=
  if r <=? 0xFF then
    ((0x09 <=? r) && (r <=? 0x0D)) || (r =? 0x20) || (r =? 0x85) || (r =? 0xA0)
  else
    (r =? 0x1680) || ((0x2000 <=? r) && (r <=? 0x200A)) || (r =? 0x2028)
    || (r =? 0x2029) || (r =? 0x202F) || (r =? 0x205F) || (r =? 0x3000).

(** [strings.TrimSpace]: leading and trailing white space removed. *)
Definition TrimSpace (s : gostring) : gostring :=
  TrimRightFunc (TrimLeftFunc s IsSpace) IsSpace.

(** [strings.Replace(s, old, new, n)] for a non-empty [old] and [n >= 0]
    (the program calls it with [old = ","] and [n = 1]): the first [n]
    occurrences of [old], left to right and not overlapping, replaced by
    [new]. *)
Fixpoint Replace (s old new : gostring) (n : nat) : gostring :=
  match n with
  | O => s
  | S n' =>
    let j := Index s old in
    if j <? 0 then s
    else firstn (Z.to_nat j) s ++ new
         ++ Replace (skipn (Z.to_nat (j + len old)) s) old new n'
  end.

(** *** Vocabulary of the claims *)

(** [sub] occurs in [s] at byte offset [i]. *)
Definition occurs_at (s sub : gostring) (i : nat) : Prop :=
  exists l r, s = l ++ sub ++ r /\ List.length l = i.

(** The first occurrence of [sub] in [s] is at offset [i]. *)
Definition first_at (s sub : gostring) (i : nat) : Prop :=
  occurs_at s sub i /\ forall j, occurs_at s sub j -> (i <= j)%nat.

Definition occurs (s sub : gostring) : Prop := exists i, occurs_at s sub i.

(** A byte of a multi-byte encoding, or of an invalid one. *)
Definition high (c : ascii) : Prop := 0x80 <= bval c.

(** A byte a trimming loop may drop: an ASCII byte satisfying the predicate,
    or a byte of a non-ASCII rune. *)
Definition droppable (f : Z -> bool) (c : ascii) : Prop :=
  high c \/ f (bval c) = true.

End GoString.

(* ================================================================== *)
(** ** [strconv.ParseUint] *)

Module Strconv.
Import GoString.

(** The [Err] field of a [*strconv.NumError]. *)
Inductive NumError : Type :=
| ErrSyntax
| ErrRange
| ErrBase
| ErrBitSize.

Definition maxUint64 : Z := 2 ^ 64 - 1.

(** [lower(c)]: [c | ('x' - 'X')]. *)
Definition lower (c : Z) : Z := Z.lor c 0x20.

(** The digit loop of [ParseUint], over the bytes still to read, with the
    accumulator [n] (a [uint64]: the sum [n + d] wraps around). *)
Fixpoint parseDigits (s : gostring) (base cutoff maxVal n : Z)
  : Z * option NumError :=
  match s with
  | [] => (n, None)
  | ch :: s' =>
    let c := bval ch in
    let d := if (0x30 <=? c) && (c <=? 0x39) then Some (c - 0x30)
             else if (0x61 <=? lower c) && (lower c <=? 0x7A)
                  then Some (lower c - 0x61 + 10)
                  else None in
    match d with
    | None => (0, Some ErrSyntax)
    | Some d =>
      if base <=? d then (0, Some ErrSyntax)
      else if cutoff <=? n then (maxVal, Some ErrRange)
      else
        let n := n * base in
        let n1 := (n + d) mod 2 ^ 64 in
        if (n1 <? n) || (maxVal <? n1) then (maxVal, Some ErrRange)
        else parseDigits s' base cutoff maxVal n1
    end
  end.

(** [strconv.ParseUint(s, base, bitSize)] for [2 <= base <= 36]; the value
    and the error, as Go returns them.  Base [0], which reads the base from
    a prefix of [s], is not used by the program and is outside this model. *)
Definition ParseUint (s : gostring) (base bitSize : Z) : Z * option NumError :=
  match s with
  | [] => (0, Some ErrSyntax)
  | _ =>
    if negb ((2 <=? base) && (base <=? 36)) then (0, Some ErrBase)
    else
      let bitSize := if bitSize =? 0 then 64 else bitSize in
      if (bitSize <? 0) || (64 <? bitSize) then (0, Some ErrBitSize)
      else
        let cutoff := maxUint64 / base + 1 in
        let maxVal := 2 ^ bitSize - 1 in
        parseDigits s base cutoff maxVal 0
  end.

End Strconv.

(* ================================================================== *)
(** ** The amount parser: [extractPriceBetweenTwoStrings] *)

Module AmountParser.
Import GoString Strconv.

(** What a call does: it returns the pair [(uint64, error)], or it panics
    on a slice expression out of range. *)
Inductive outcome : Type :=
| Returns (centsValue : Z) (err : option NumError)
| Panics.

(** The cutset of the [strings.Trim] call, byte for byte as the source file
    holds it: space, ["\n"], ["\t"], the seven bytes
    [C3 A2 E2 80 9A C2 AC] (the runes U+00E2, U+201A and U+00AC), then the
    ASCII letters. *)
Definition cutset : gostring :=
  lit " " ++ map byte_of [0x0A; 0x09]
  ++ map byte_of [0xC3; 0xA2; 0xE2; 0x80; 0x9A; 0xC2; 0xAC]
  ++ lit "abcdefghijklmnopqrstuvwxyzABCDEFGHIJKLMNOPQRSTUVWXYZ".

Definition comma : gostring := lit ",".

(** [extractPriceBetweenTwoStrings(haystack, firstString, secondString)],
    statement by statement. *)
Definition extractPriceBetweenTwoStrings
  (haystack firstString secondString : gostring) : outcome :=
  let priceLineIndex := Index haystack firstString in
  match slice_from haystack (priceLineIndex + len firstString) with
  | None => Panics
  | Some rest =>
    let newLineIndex := Index rest secondString in
    match slice haystack (priceLineIndex + len firstString)
                (priceLineIndex + len firstString + newLineIndex) with
    | None => Panics
    | Some euros =>
      let euros := Trim euros cutset in
      let cents := Replace euros comma [] 1 in
      match ParseUint cents 10 16 with
      | (_, Some err) => Returns 0 (Some err)
      | (centsValue, None) => Returns centsValue None
      end
    end
  end.

(** *** Vocabulary of the claims *)

(** An ASCII decimal digit. *)
Definition isDigit (c : ascii) : Prop := 0x30 <= bval c <= 0x39.

Definition isDigitb (c : ascii) : bool := (0x30 <=? bval c) && (bval c <=? 0x39).

(** A non-empty string of decimal digits. *)
Definition numericb (s : gostring) : bool :=
  match s with [] => false | _ => forallb isDigitb s end.

(** The number a digit string denotes, read left to right from [n]. *)
Definition decimal_from (n : Z) (s : gostring) : Z :=
  fold_left (fun acc c => acc * 10 + (bval c - 0x30)) s n.

Definition decimal (s : gostring) : Z := decimal_from 0 s.

(** The comma byte. *)
Definition comma_byte : ascii := ","%char.

(** Number of commas in a string. *)
Definition commas (s : gostring) : nat := count_occ ascii_dec s comma_byte.

(** The parse step of the function, on the raw field between the anchors. *)
Definition parseField (field : gostring) : outcome :=
  match ParseUint (Replace (Trim field cutset) comma [] 1) 10 16 with
  | (_, Some err) => Returns 0 (Some err)
  | (centsValue, None) => Returns centsValue None
  end.

(** Both anchors are found: [before] first occurs right after [pre], and
    from there on [after] first occurs right after [field]. *)
Definition anchored (haystack before after pre field post : gostring) : Prop :=
  haystack = pre ++ before ++ field ++ after ++ post
  /\ first_at haystack before (List.length pre)
  /\ first_at (field ++ after ++ post) after (List.length field).

End AmountParser.

(* ================================================================== *)
(** ** The HTML text extractor: [extractTextFromHtml] *)

Module Html.
Import GoString.

(** The token types of [golang.org/x/net/html]. *)
Inductive TokenType : Type :=
| ErrorToken
| TextToken
| StartTagToken
| EndTagToken
| SelfClosingTagToken
| CommentToken
| DoctypeToken.

(** What the tokenizer holds after a call of [Next]: the token's type and
    its data, which is the tag name for a tag ([Token().Data]) and the text
    for a text token ([Text()]). *)
Record Token : Type := mkToken { Type_ : TokenType; Data : gostring }.

Definition script : gostring := lit "script".
Definition style : gostring := lit "style".
Definition newline : gostring := [byte_of 0x0A].
Definition ampersand : ascii := "&"%char.

Section Extractor.

(** The tokenizer of the library: the tokens that successive calls of
    [Next] yield on an input.  The loop below stops at the first
    [ErrorToken]; the end of the list stands for the [ErrorToken] that ends
    every input. *)
Variable tokenize : gostring -> list Token.

(** The entity decoder of the library ([unescape] of [escape.go]). *)
Variable unescape : gostring -> gostring.

(** [html.UnescapeString]: a string without ["&"] is returned as it is. *)
Definition UnescapeString (s : gostring) : gostring :=
  if existsb (Ascii.eqb ampersand) s then unescape s else s.

(** The loop [loopDomTest] of [extractTextFromHtml], over the tokens still
    to come, with the data of [previousStartTokenTest] and the contents of
    [builder]. *)
Fixpoint loopDomTest (tokens : list Token)
  (previousStartTokenTest builder : gostring) : gostring :=
  match tokens with
  | [] => builder
  | tok :: rest =>
    match Type_ tok with
    | ErrorToken => builder
    | StartTagToken => loopDomTest rest (Data tok) builder
    | TextToken =>
      if eqb previousStartTokenTest script || eqb previousStartTokenTest style
      then loopDomTest rest previousStartTokenTest builder
      else
        let TxtContent := TrimSpace (UnescapeString (Data tok)) in
        if 0 <? len TxtContent
        then loopDomTest rest previousStartTokenTest
                         (builder ++ TxtContent ++ newline)
        else loopDomTest rest previousStartTokenTest builder
    | _ => loopDomTest rest previousStartTokenTest builder
    end
  end.

(** [extractTextFromHtml(input)].  Before the first call of [Next],
    [Token()] has empty data. *)
Definition extractTextFromHtml (input : gostring) : gostring :=
  loopDomTest (tokenize input) [] [].

(** *** The extraction as the specification words it *)

(** The tokens the walk reaches: those before the first [ErrorToken]. *)
Fixpoint reached (tokens : list Token) : list Token :=
  match tokens with
  | [] => []
  | tok :: rest =>
    match Type_ tok with
    | ErrorToken => []
    | _ => tok :: reached rest
    end
  end.

Definition isStartTag (tok : Token) : bool :=
  match Type_ tok with StartTagToken => true | _ => false end.

Definition isText (tok : Token) : bool :=
  match Type_ tok with TextToken => true | _ => false end.

(** The name of the most recently opened start tag among the tokens seen so
    far; empty when there is none. *)
Definition lastStartTag (seen : list Token) : gostring :=
  match find isStartTag (rev seen) with
  | Some tok => Data tok
  | None => []
  end.

Definition underScriptOrStyle (seen : list Token) : bool :=
  eqb (lastStartTag seen) script || eqb (lastStartTag seen) style.

(** The text nodes kept, in document order, each unescaped and trimmed:
    the text tokens whose most recently opened start tag is neither
    [script] nor [style]. *)
Fixpoint keptTexts (seen tokens : list Token) : list gostring :=
  match tokens with
  | [] => []
  | tok :: rest =>
    (if isText tok && negb (underScriptOrStyle seen)
     then [TrimSpace (UnescapeString (Data tok))] else [])
    ++ keptTexts (seen ++ [tok]) rest
  end.

Definition nonEmpty (s : gostring) : bool :=
  match s with [] => false | _ => true end.

Definition lines (texts : list gostring) : gostring :=
  List.concat (map (fun t => t ++ newline) texts).

(** The extraction as claimed: one line per kept text node. *)
Definition claimedText (tokens : list Token) : gostring :=
  lines (keptTexts [] (reached tokens)).

(** The extraction the code performs: one line per kept text node whose
    trimmed text is not empty. *)
Definition extractedText (tokens : list Token) : gostring :=
  lines (filter nonEmpty (keptTexts [] (reached tokens))).

End Extractor.

(** The tokens of [<p> </p>]. *)
Definition blankParagraph : list Token :=
  [mkToken StartTagToken (lit "p"); mkToken TextToken (lit " ");
   mkToken EndTagToken (lit "p")].

End Html.

(* ================================================================== *)
(** ** The message loop of [scrapeEmailInvoices] *)

(** The Gmail API types the loop reads ([google.golang.org/api/gmail/v1]),
    with the fields it uses. *)
Module Gmail.
Import GoString.

Record MessagePartHeader : Type :=
  mkHeader { Name : gostring; Value : gostring }.

Record MessagePartBody : Type :=
  mkBody { AttachmentId : gostring; Data : gostring }.

(** [Body] is a pointer: [None] is [nil]. *)
Record MessagePart : Type :=
  mkPart { MimeType : gostring; Filename : gostring; Body : option MessagePartBody }.

(** The root part of a message, with the two fields the loop reads of
    it. *)
Record MessagePayload : Type :=
  mkPayload { Headers : list MessagePartHeader; Parts : list MessagePart }.

(** A message as [Users.Messages.Get] returns it; [InternalDate] is in
    milliseconds since the epoch.  [Payload] is a pointer: [None] is [nil],
    a reply that carries no payload. *)
Record Message : Type :=
  mkMessage { Id : gostring; InternalDate : Z; Payload : option MessagePayload }.

End Gmail.

Module Pipeline.
Import GoString Strconv AmountParser.

Record Source : Type := mkSource {
  BillName : gostring;
  From : gostring;
  SubjectContains : gostring;
  Location : gostring;
  StringBeforePrice : gostring;
  StringAfterPrice : gostring
}.

Record Invoice : Type := mkInvoice {
  FileName : gostring;
  FileContents : gostring;
  Value : Z
}.

(** The zero value of [Invoice], which [make([]Invoice, n)] fills a slot
    with. *)
Definition zeroInvoice : Invoice := mkInvoice [] [] 0.

(** *** Time: an instant in nanoseconds since the epoch *)

Definition Time : Type := Z.
Definition UnixMilli (msec : Z) : Time := msec * 1000000.
Definition Before (t u : Time) : bool := t <? u.
Definition After (t u : Time) : bool := u <? t.

(** *** The world outside the pipeline *)

(** The services and libraries the loop calls; [None] stands for a call
    that returns an error. *)
Record Services : Type := mkServices {
  (** [srv.Users.Messages.List(user).Q(query).Do()], the query built from
      the two dates and the sender: the ids of the messages found. *)
  MessagesList : Time -> Time -> gostring -> option (list gostring);
  (** [srv.Users.Messages.Get(user, id).Do()]. *)
  MessagesGet : gostring -> option Gmail.Message;
  (** [srv.Users.Messages.Attachments.Get(user, msgId, id).Do()]: the
      [Data] of the attachment. *)
  AttachmentsGet : gostring -> gostring -> option gostring;
  (** [base64.URLEncoding.DecodeString]. *)
  DecodeString : gostring -> option gostring;
  (** The external tool behind [extractPDFPageContent]. *)
  pdftotext : gostring -> Z -> option gostring;
  (** The HTML tokenizer and entity decoder. *)
  tokenize : gostring -> list Html.Token;
  unescape : gostring -> gostring
}.

(** The [log.Fatalf] calls of the loop: each ends the process. *)
Inductive fatal : Type :=
| UnableToRetrieveMessages
| UnableToRetrieveMessage
| EmailOutsideTimeRange
| UnableToRetrieveAttachment
| UnableToDecodeAttachment
| UnableToFindBodyPart
| UnableToDecodeBody
| UnableToExtractPageContent
| UnableToExtractPrice.

(** What the loop does to the outside, in order. *)
Inductive event : Type :=
| CallMessagesList (from : gostring)
| CallMessagesGet (id : gostring)
| CallAttachmentsGet (msgId attachmentId : gostring)
| CallPdftotext (pageNum : Z)
| CallExtractPrice (invoiceText before after : gostring)
| StoreInvoice (inv : Invoice).

(** How one round of the loop body ends early: [continue], [log.Fatalf],
    or a panic. *)
Inductive exit : Type :=
| Continue
| Fatal (why : fatal)
| Panic.

Inductive run (A : Type) : Type :=
| Go (a : A)
| Exit (e : exit).
Arguments Go {A} a.
Arguments Exit {A} e.

(** A computation: the events it performed and how it ended. *)
Definition proc (A : Type) : Type := list event * run A.

Definition ret {A} (a : A) : proc A := ([], Go a).

Definition bind {A B} (m : proc A) (f : A -> proc B) : proc B :=
  match m with
  | (t, Go a) => let '(t', r) := f a in (t ++ t', r)
  | (t, Exit e) => (t, Exit e)
  end.

Definition emit (e : event) : proc unit := ([e], Go tt).

Definition leave {A} (e : exit) : proc A := ([], Exit e).

(** [v, err := ...; if err != nil { log.Fatalf(...) }]. *)
Definition orFatal {A} (o : option A) (why : fatal) : proc A :=
  match o with
  | Some a => ret a
  | None => leave (Fatal why)
  end.

Notation "'do' x <- m ; k" := (bind m (fun x => k))
  (at level 10, x name, m at level 100, k at level 200).
Notation "m ;; k" := (bind m (fun _ => k))
  (at level 100, k at level 200, right associativity).

Definition subjectName : gostring := lit "Subject".
Definition textHtml : gostring := lit "text/html".
Definition locBody : gostring := lit "body".
Definition locAttachment : gostring := lit "attachment".
Definition pdfSuffix : gostring := lit ".pdf".

(** The header loop (lines 257-270): the first header named ["Subject"]
    whose value contains the substring. *)
Fixpoint findSubject (headers : list Gmail.MessagePartHeader)
  (subjectContains : gostring) : option Gmail.MessagePartHeader :=
  match headers with
  | [] => None
  | h :: rest =>
    if negb (eqb (Gmail.Name h) subjectName) then findSubject rest subjectContains
    else if negb (Contains (Gmail.Value h) subjectContains)
         then findSubject rest subjectContains
         else Some h
  end.

Definition isNil {A} (o : option A) : bool :=
  match o with None => true | Some _ => false end.

(** The second test of the part loop:
    [part.Filename != "" && part.Body != nil && part.Body.AttachmentId != ""]. *)
Definition hasAttachment (part : Gmail.MessagePart) : bool :=
  negb (eqb (Gmail.Filename part) [])
  && match Gmail.Body part with
     | None => false
     | Some body => negb (eqb (Gmail.AttachmentId body) [])
     end.

(** The part loop (lines 279-287), with the two pointers it assigns. *)
Fixpoint partLoop (parts : list Gmail.MessagePart)
  (attachmentPart bodyPart : option Gmail.MessagePart)
  : option Gmail.MessagePart * option Gmail.MessagePart :=
  match parts with
  | [] => (attachmentPart, bodyPart)
  | part :: rest =>
    if isNil bodyPart && eqb (Gmail.MimeType part) textHtml
    then partLoop rest attachmentPart (Some part)
    else if isNil attachmentPart && hasAttachment part
         then partLoop rest (Some part) bodyPart
         else partLoop rest attachmentPart bodyPart
  end.

Definition selectParts (parts : list Gmail.MessagePart)
  : option Gmail.MessagePart * option Gmail.MessagePart :=
  partLoop parts None None.

Section Loop.

Variable srv : Services.
Variable month nextMonth : Time.
Variable source : Source.

(** The [switch source.Location] (lines 310-330): the text the amount is
    read from. *)
Definition invoiceTextOf (bodyPart : option Gmail.MessagePart)
  (attachmentBytes : gostring) : proc gostring :=
  if eqb (Location source) locBody then
    match bodyPart with
    | None => leave (Fatal UnableToFindBodyPart)
    | Some bodyPart =>
      match Gmail.Body bodyPart with
      | None => leave Panic
      | Some body =>
        do decodedBody <- orFatal (DecodeString srv (Gmail.Data body))
                                  UnableToDecodeBody;
        ret (Html.extractTextFromHtml (tokenize srv) (unescape srv) decodedBody)
      end
    end
  else if eqb (Location source) locAttachment then
    emit (CallPdftotext 1) ;;
    orFatal (pdftotext srv attachmentBytes 1) UnableToExtractPageContent
  else ret [].

(** The second half of a round (lines 294-348), reached with a subject
    header and an attachment part found: fetch and decode the attachment,
    get the text, parse the amount, store the invoice. *)
Definition extractInvoice (msg : Gmail.Message)
  (attachmentPart : Gmail.MessagePart) (bodyPart : option Gmail.MessagePart)
  : proc Invoice :=
  match Gmail.Body attachmentPart with
  | None => leave Panic
  | Some attachmentBody =>
    emit (CallAttachmentsGet (Gmail.Id msg) (Gmail.AttachmentId attachmentBody)) ;;
    do attachment <- orFatal (AttachmentsGet srv (Gmail.Id msg)
                                (Gmail.AttachmentId attachmentBody))
                             UnableToRetrieveAttachment;
    do attachmentBytes <- orFatal (DecodeString srv attachment)
                                  UnableToDecodeAttachment;
    do invoiceText <- invoiceTextOf bodyPart attachmentBytes;
    emit (CallExtractPrice invoiceText (StringBeforePrice source)
                           (StringAfterPrice source)) ;;
    match extractPriceBetweenTwoStrings invoiceText (StringBeforePrice source)
            (StringAfterPrice source) with
    | Panics => leave Panic
    | Returns _ (Some err) => leave (Fatal UnableToExtractPrice)
    | Returns priceCents None =>
      let inv := mkInvoice (BillName source ++ pdfSuffix) attachmentBytes
                           priceCents in
      emit (StoreInvoice inv) ;; ret inv
    end
  end.

(** One round of [for _, m := range msgs.Messages] (lines 246-350), up to
    the [break]: the invoice stored, or how the round ended before.  The
    first half fetches the message, checks its date and looks for the
    subject header and the two parts.  Both loops read [msg.Payload]
    without a test: on a message without payload the header loop panics
    (line 258), after the date check. *)
Definition inspect (mId : gostring) : proc Invoice :=
  emit (CallMessagesGet mId) ;;
  do msg <- orFatal (MessagesGet srv mId) UnableToRetrieveMessage;
  let internalDate := UnixMilli (Gmail.InternalDate msg) in
  if Before internalDate month || After internalDate nextMonth
  then leave (Fatal EmailOutsideTimeRange)
  else
  match Gmail.Payload msg with
  | None => leave Panic
  | Some payload =>
    match findSubject (Gmail.Headers payload) (SubjectContains source) with
    | None => leave Continue
    | Some subjectHeader =>
      match selectParts (Gmail.Parts payload) with
      | (None, _) => leave Continue
      | (Some attachmentPart, bodyPart) =>
        extractInvoice msg attachmentPart bodyPart
      end
    end
  end.

(** How the loop over the messages of one source ends. *)
Inductive result : Type :=
| Finished (slot : Invoice)
| Failed (why : fatal)
| Panicked.

(** [for _, m := range msgs.Messages { ... }], with the contents of
    [invoiceGroups[configIdx].Invoices[sourceIdx]]. *)
Fixpoint messagesLoop (msgs : list gostring) (slot : Invoice)
  : list event * result :=
  match msgs with
  | [] => ([], Finished slot)
  | m :: rest =>
    match inspect m with
    | (t, Go inv) => (t, Finished inv)
    | (t, Exit Continue) =>
      let '(t', r) := messagesLoop rest slot in (t ++ t', r)
    | (t, Exit (Fatal why)) => (t, Failed why)
    | (t, Exit Panic) => (t, Panicked)
    end
  end.

(** The body of [for sourceIdx, source := range config.Sources] (lines
    230-351): the search, then the loop over what it found. *)
Definition scrapeSource : list event * result :=
  match MessagesList srv month nextMonth (From source) with
  | None => ([CallMessagesList (From source)], Failed UnableToRetrieveMessages)
  | Some msgs =>
    let '(t, r) := messagesLoop msgs zeroInvoice in
    (CallMessagesList (From source) :: t, r)
  end.

End Loop.

(** *** Vocabulary of the claims *)

(** A part is a body candidate: its MIME type is [text/html]. *)
Definition isHtml (part : Gmail.MessagePart) : bool :=
  eqb (Gmail.MimeType part) textHtml.

(** A list without the first element that satisfies [p]. *)
Fixpoint removeFirst {A} (p : A -> bool) (l : list A) : list A :=
  match l with
  | [] => []
  | x :: rest => if p x then rest else x :: removeFirst p rest
  end.

(** The selection as claimed: each role found on its own. *)
Definition claimedSelect (parts : list Gmail.MessagePart)
  : option Gmail.MessagePart * option Gmail.MessagePart :=
  (find hasAttachment parts, find isHtml parts).

(** The headers and the parts of a message: those of its payload, none
    when it has no payload. *)
Definition headersOf (msg : Gmail.Message) : list Gmail.MessagePartHeader :=
  match Gmail.Payload msg with
  | None => []
  | Some payload => Gmail.Headers payload
  end.

Definition partsOf (msg : Gmail.Message) : list Gmail.MessagePart :=
  match Gmail.Payload msg with
  | None => []
  | Some payload => Gmail.Parts payload
  end.

(** The classifier: the subject test and the part selection of one round,
    with the two parts of a message that qualifies; [None] for a message
    that does not reach the second half of the round. *)
Definition classify (msg : Gmail.Message) (source : Source)
  : option (Gmail.MessagePart * option Gmail.MessagePart) :=
  match Gmail.Payload msg with
  | None => None
  | Some payload =>
    match findSubject (Gmail.Headers payload) (SubjectContains source) with
    | None => None
    | Some _ =>
      match selectParts (Gmail.Parts payload) with
      | (None, _) => None
      | (Some attachmentPart, bodyPart) => Some (attachmentPart, bodyPart)
      end
    end
  end.

(** How a round on a fetched, in-window message that does not qualify
    ends: [continue], or the panic of the header loop on a [nil] payload. *)
Definition unqualified (msg : Gmail.Message) : exit :=
  if isNil (Gmail.Payload msg) then Panic else Continue.

Definition isParse (e : event) : bool :=
  match e with CallExtractPrice _ _ _ => true | _ => false end.

Definition isStore (e : event) : bool :=
  match e with StoreInvoice _ => true | _ => false end.

(** The attachment test, in words: a non-empty file name and a body with a
    non-empty attachment id. *)
Definition isAttachmentPart (part : Gmail.MessagePart) : Prop :=
  Gmail.Filename part <> []
  /\ exists body, Gmail.Body part = Some body /\ Gmail.AttachmentId body <> [].

(** How the loop ends on a round that does not [continue]. *)
Definition ending (r : run Invoice) (slot : Invoice) : result :=
  match r with
  | Go inv => Finished inv
  | Exit Continue => Finished slot
  | Exit (Fatal why) => Failed why
  | Exit Panic => Panicked
  end.

Definition count (p : event -> bool) (t : list event) : nat :=
  List.length (filter p t).

(** The message's date lies in the closed window. *)
Definition inWindow (month nextMonth : Time) (msg : Gmail.Message) : Prop :=
  month <= UnixMilli (Gmail.InternalDate msg) <= nextMonth.

(** *** Data of the examples *)

(** An HTML file sent as an attachment, and a PDF attachment. *)
Definition htmlFilePart : Gmail.MessagePart :=
  Gmail.mkPart textHtml (lit "invoice.html")
               (Some (Gmail.mkBody (lit "att-1") [])).

Definition pdfFilePart : Gmail.MessagePart :=
  Gmail.mkPart (lit "application/pdf") (lit "invoice.pdf")
               (Some (Gmail.mkBody (lit "att-2") [])).

(** A mailbox holding the given messages: every call succeeds, an
    attachment's data is its id, the base64 decoding is taken as the
    identity, and the PDF tool prints the page of an electricity bill. *)
Definition mailbox (msgs : list Gmail.Message) : Services :=
  mkServices
    (fun _ _ _ => Some (map Gmail.Id msgs))
    (fun id => find (fun m => eqb (Gmail.Id m) id) msgs)
    (fun _ attachmentId => Some attachmentId)
    (fun s => Some s)
    (fun _ _ => Some (lit "Invoice" ++ Html.newline ++ lit "Total 45,67 EUR"
                      ++ Html.newline))
    (fun _ => [])
    (fun s => s).

Definition electric : Source :=
  mkSource (lit "Electric") (lit "bills@example.com") (lit "Invoice")
           locAttachment (lit "Total ") (lit " EUR").

(** The same rule with a location that is neither of the two. *)
Definition electricPdf : Source :=
  mkSource (lit "Electric") (lit "bills@example.com") (lit "Invoice")
           (lit "pdf") (lit "Total ") (lit " EUR").

Definition bill (id : gostring) (msec : Z) (subject : gostring) : Gmail.Message :=
  Gmail.mkMessage id msec
    (Some (Gmail.mkPayload [Gmail.mkHeader (lit "Subject") subject] [pdfFilePart])).

(** A reply of the API that carries no payload. *)
Definition bare (id : gostring) (msec : Z) : Gmail.Message :=
  Gmail.mkMessage id msec None.

(** The window of the examples: one second, from the epoch. *)
Definition windowStart : Time := 0.
Definition windowEnd : Time := UnixMilli 1000.

(** Three candidates: the first does not qualify, the second and the third
    do.  The third is never fetched. *)
Definition threeBills : list Gmail.Message :=
  [bill (lit "m0") 10 (lit "Newsletter"); bill (lit "m1") 20 (lit "Invoice May");
   bill (lit "m2") 30 (lit "Invoice May, reminder")].

(** A newsletter dated one millisecond behind the window, then a bill
    within it. *)
Definition lateNews : list Gmail.Message :=
  [bill (lit "n0") 1001 (lit "Newsletter"); bill (lit "m1") 20 (lit "Invoice May")].

(** A reply without payload, then the same bill. *)
Definition bareFirst : list Gmail.Message :=
  [bare (lit "b0") 10; bill (lit "m1") 20 (lit "Invoice May")].

End Pipeline.

(* ================================================================== *)
(** ** Integers printed with [%d] *)

Module Fmt.
Import GoString.

(** The base-ten loop of [fmt]'s [fmtInteger], writing digits from the
    right: [for u >= 10 { buf[i] = '0' + u - (u/10)*10; u = u/10 }], then
    the last digit.  A [uint64] has at most twenty digits. *)
Fixpoint digitsLoop (fuel : nat) (u : Z) (buf : gostring) : gostring :=
  match fuel with
  | O => buf
  | S fuel' =>
    if 10 <=? u
    then digitsLoop fuel' (u / 10) (byte_of (0x30 + (u - (u / 10) * 10)) :: buf)
    else byte_of (0x30 + u) :: buf
  end.

(** [%d] of an unsigned integer. *)
Definition formatUint (u : Z) : gostring := digitsLoop 20 u [].

(** [%d] of a signed integer. *)
Definition formatInt (a : Z) : gostring :=
  if a <? 0 then lit "-" ++ formatUint (- a) else formatUint a.

End Fmt.

(* ================================================================== *)
(** ** The loops over the configuration: [scrapeEmailInvoices] *)

Module SourceConfig.
Import GoString.

Record t : Type := mk {
  Name : gostring;
  DriveDestination : gostring;
  Sources : list Pipeline.Source
}.

End SourceConfig.

Module InvoiceGroup.
Import GoString.

Record t : Type := mk {
  Name : gostring;
  DriveDestination : gostring;
  Invoices : list Pipeline.Invoice
}.

End InvoiceGroup.

Module Scrape.
Import GoString Pipeline.

(** How [scrapeEmailInvoices] ends: it returns the groups, or a
    [log.Fatalf] ends the process (the one on [gmail.NewService] apart from
    those of the loop), or it panics. *)
Inductive scraped (A : Type) : Type :=
| Done (a : A)
| Aborted (why : fatal)
| NoGmailClient
| Crashed.
Arguments Done {A} a.
Arguments Aborted {A} why.
Arguments NoGmailClient {A}.
Arguments Crashed {A}.

Section Loops.

Variable srv : Services.
Variable month nextMonth : Time.

(** [for sourceIdx, source := range config.Sources] (lines 229-352): the
    contents of [invoiceGroups[configIdx].Invoices] when the loop is
    through, a slice made with one zero slot per source. *)
Fixpoint sourcesLoop (sources : list Source)
  : list event * scraped (list Invoice) :=
  match sources with
  | [] => ([], Done [])
  | source :: rest =>
    match scrapeSource srv month nextMonth source with
    | (t, Finished slot) =>
      match sourcesLoop rest with
      | (t', Done slots) => (t ++ t', Done (slot :: slots))
      | (t', stop) => (t ++ t', stop)
      end
    | (t, Failed why) => (t, Aborted why)
    | (t, Panicked) => (t, Crashed)
    end
  end.

(** [for configIdx, config := range configs] (lines 225-353). *)
Fixpoint configsLoop (configs : list SourceConfig.t)
  : list event * scraped (list InvoiceGroup.t) :=
  match configs with
  | [] => ([], Done [])
  | config :: rest =>
    match sourcesLoop (SourceConfig.Sources config) with
    | (t, Done invoices) =>
      match configsLoop rest with
      | (t', Done groups) =>
        (t ++ t',
         Done (InvoiceGroup.mk (SourceConfig.Name config)
                               (SourceConfig.DriveDestination config) invoices
               :: groups))
      | (t', stop) => (t ++ t', stop)
      end
    | (t, Aborted why) => (t, Aborted why)
    | (t, NoGmailClient) => (t, NoGmailClient)
    | (t, Crashed) => (t, Crashed)
    end
  end.

End Loops.

(** [scrapeEmailInvoices(client, month, configs)]: [newService] is what
    [gmail.NewService] returns ([None] for an error) and [AddDate] is
    [time.Time.AddDate]. *)
Definition scrapeEmailInvoices (newService : option Services)
  (AddDate : Time -> Z -> Z -> Z -> Time) (month : Time)
  (configs : list SourceConfig.t) : list event * scraped (list InvoiceGroup.t) :=
  match newService with
  | None => ([], NoGmailClient)
  | Some srv =>
    let nextMonth := AddDate month 0 1 0 in
    configsLoop srv month nextMonth configs
  end.

(** *** Vocabulary *)

(** What a slot holds for its source when the run is through: the zero
    value, or an invoice named after the source with a 16-bit amount. *)
Definition slotFor (source : Source) (inv : Invoice) : Prop :=
  inv = zeroInvoice
  \/ (FileName inv = BillName source ++ pdfSuffix /\ 0 <= Value inv <= 65535).

(** A group mirrors its configuration entry. *)
Definition groupFor (config : SourceConfig.t) (group : InvoiceGroup.t) : Prop :=
  InvoiceGroup.Name group = SourceConfig.Name config
  /\ InvoiceGroup.DriveDestination group = SourceConfig.DriveDestination config
  /\ Forall2 slotFor (SourceConfig.Sources config) (InvoiceGroup.Invoices group).

Definition isList (e : event) : bool :=
  match e with CallMessagesList _ => true | _ => false end.

(** *** Data of the examples *)

(** Two rules on one mailbox: one for the electricity bill, one for a
    water bill that is never sent. *)
Definition water : Source :=
  mkSource (lit "Water") (lit "bills@example.com") (lit "Water")
           locAttachment (lit "Total ") (lit " EUR").

(** The electricity rule with the amount in the body of the message. *)
Definition electricBody : Source :=
  mkSource (lit "Electric") (lit "bills@example.com") (lit "Invoice")
           locBody (lit "Total ") (lit " EUR").

Definition home : SourceConfig.t :=
  SourceConfig.mk (lit "Home") (lit "folder-1") [electric; water].

End Scrape.

(* ================================================================== *)
(** ** The summary: [sendNotification] *)

Module Notify.
Import GoString Pipeline Fmt.

Definition endOfLine : gostring := [byte_of 0x0A].

(** [fmt.Sprintf("+ %s - %d,%d\n", invoice.FileName, invoice.Value/100,
    invoice.Value%100)]. *)
Definition invoiceLine (invoice : Invoice) : gostring :=
  lit "+ " ++ FileName invoice ++ lit " - " ++ formatUint (Value invoice / 100)
  ++ lit "," ++ formatUint (Value invoice mod 100) ++ endOfLine.

(** [fmt.Sprintf("Total: %d,%d\n", total/100, total%100)]. *)
Definition totalLine (total : Z) : gostring :=
  lit "Total: " ++ formatUint (total / 100) ++ lit "," ++ formatUint (total mod 100)
  ++ endOfLine.

(** [fmt.Sprintf("%d. %s\n", idx+1, invoiceGroup.Name)]. *)
Definition groupLine (idx : Z) (name : gostring) : gostring :=
  formatInt (idx + 1) ++ lit ". " ++ name ++ endOfLine.

(** The inner loop of the message: [total] is a [uint64], its sum wraps
    around. *)
Fixpoint invoicesText (invoices : list Invoice) (total : Z) (message : gostring)
  : Z * gostring :=
  match invoices with
  | [] => (total, message)
  | invoice :: rest =>
    invoicesText rest ((total + Value invoice) mod 2 ^ 64)
                 (message ++ invoiceLine invoice)
  end.

(** The outer loop of the message, from group number [idx]. *)
Fixpoint groupsText (invoiceGroups : list InvoiceGroup.t) (idx : Z)
  (message : gostring) : gostring :=
  match invoiceGroups with
  | [] => message
  | invoiceGroup :: rest =>
    let message := if 0 <? idx then message ++ endOfLine else message in
    let message := message ++ groupLine idx (InvoiceGroup.Name invoiceGroup) in
    let '(total, message) :=
      invoicesText (InvoiceGroup.Invoices invoiceGroup) 0 message in
    groupsText rest (idx + 1) (message ++ totalLine total)
  end.

(** The text of the message. *)
Definition messageText (invoiceGroups : list InvoiceGroup.t) : gostring :=
  groupsText invoiceGroups 0 [].

(** The process environment and the network, as the function uses them. *)
Record Env : Type := mkEnv {
  (** [godotenv.Load()] succeeded. *)
  LoadEnv : bool;
  (** [os.Getenv]. *)
  Getenv : gostring -> gostring;
  (** [url.QueryEscape]. *)
  QueryEscape : gostring -> gostring;
  (** [http.Get]: the status code, [None] for an error. *)
  HttpGet : gostring -> option Z
}.

Inductive sent : Type :=
| ReturnsNil
| ReturnsError (text : gostring)
| FatalLoadingEnv
| FatalUnableToSend.

(** What the function writes to standard output and asks of the network. *)
Inductive effect : Type :=
| Print (text : gostring)
| Request (url : gostring).

Definition phoneVar : gostring := lit "CALLMEBOT_PHONE_NUMBER".
Definition apiKeyVar : gostring := lit "CALLMEBOT_API_KEY".

(** [sendNotification(invoiceGroups, dryRun)]. *)
Definition sendNotification (env : Env) (invoiceGroups : list InvoiceGroup.t)
  (dryRun : bool) : list effect * sent :=
  if negb (LoadEnv env) then ([], FatalLoadingEnv) else
  let phoneNumber := Getenv env phoneVar in
  if eqb phoneNumber [] then ([], ReturnsError (lit "CALLMEBOT_PHONE_NUMBER is not set")) else
  let apiKey := Getenv env apiKeyVar in
  if eqb apiKey [] then ([], ReturnsError (lit "CALLMEBOT_API_KEY is not set")) else
  let apiUrl := lit "https://api.callmebot.com/signal/send.php?phone=" ++ phoneNumber
                ++ lit "&apikey=" ++ apiKey ++ lit "&text=" in
  let message := messageText invoiceGroups in
  let printed := [Print (lit "Sending notification:" ++ endOfLine);
                  Print (message ++ endOfLine)] in
  if dryRun then (printed, ReturnsNil) else
  let url := apiUrl ++ QueryEscape env message in
  match HttpGet env url with
  | None => (printed ++ [Request url], FatalUnableToSend)
  | Some status =>
    if negb (status =? 200) then (printed ++ [Request url], FatalUnableToSend)
    else (printed ++ [Request url], ReturnsNil)
  end.

(** *** Vocabulary *)

(** The sum of the amounts of a group, as the [uint64] total holds it. *)
Definition sumValues (invoices : list Invoice) : Z :=
  fold_right (fun invoice acc => Value invoice + acc) 0 invoices mod 2 ^ 64.

(** The block of one group: its heading, one line per slot, its total. *)
Definition groupBlock (idx : Z) (invoiceGroup : InvoiceGroup.t) : gostring :=
  groupLine idx (InvoiceGroup.Name invoiceGroup)
  ++ List.concat (map invoiceLine (InvoiceGroup.Invoices invoiceGroup))
  ++ totalLine (sumValues (InvoiceGroup.Invoices invoiceGroup)).

(** The blocks of the groups numbered from [idx]. *)
Fixpoint groupBlocks (idx : Z) (invoiceGroups : list InvoiceGroup.t)
  : list gostring :=
  match invoiceGroups with
  | [] => []
  | invoiceGroup :: rest => groupBlock idx invoiceGroup :: groupBlocks (idx + 1) rest
  end.

(** Blocks separated by one empty line. *)
Fixpoint joinBlocks (blocks : list gostring) : gostring :=
  match blocks with
  | [] => []
  | [block] => block
  | block :: rest => block ++ endOfLine ++ joinBlocks rest
  end.

(** What the program's parser reads in a printed amount [e,c]: the cents
    are printed without a leading zero. *)
Definition readBack (total : Z) : Z :=
  if total mod 100 <? 10 then total / 100 * 10 + total mod 100 else total.

End Notify.

(* ================================================================== *)
(** ** The upload: [saveInvoices] *)

(** A file of the Drive API ([google.golang.org/api/drive/v3]), with the
    fields the function uses. *)
Module Drive.
Import GoString.

Record File : Type := mkFile {
  Id : gostring;
  Name : gostring;
  MimeType : gostring;
  Parents : list gostring
}.

End Drive.

Module Save.
Import GoString Pipeline Fmt.

Definition folderMime : gostring := lit "application/vnd.google-apps.folder".

(** [fmt.Sprintf("%d_%d", month.Year(), month.Month())]. *)
Definition folderName (year monthNumber : Z) : gostring :=
  formatInt year ++ lit "_" ++ formatInt monthNumber.

(** The query for the month's folder: a raw string literal that runs over
    two lines of the source, with the line break and the five tabs in it. *)
Definition folderQuery (driveDestination name : gostring) : gostring :=
  lit "mimeType='application/vnd.google-apps.folder' and"
  ++ map byte_of [0x0A; 0x09; 0x09; 0x09; 0x09; 0x09]
  ++ lit "'" ++ driveDestination ++ lit "' in parents and name = '" ++ name
  ++ lit "' and trashed = false".

(** The query for a file of that folder. *)
Definition fileQuery (folderId name : gostring) : gostring :=
  lit "'" ++ folderId ++ lit "' in parents and name = '" ++ name
  ++ lit "' and trashed = false".

(** The [log.Fatalf] calls of the function. *)
Inductive saveFatal : Type :=
| UnableToRetrieveDriveClient
| UnableToListFiles
| UnableToCreateFolder
| Unreachable
| UnableToCreateFile.

(** The calls made to the Drive service, each with what it answered
    ([None] for an error). *)
Inductive call : Type :=
| ListFolders (query : gostring) (files : option (list Drive.File))
| CreateFolder (metadata : Drive.File) (created : option Drive.File)
| ListFiles (query : gostring) (files : option (list Drive.File))
| Upload (metadata : Drive.File) (contents : gostring) (ok : bool).

Section Save.

(** The state of the remote drive, which every call may read and change. *)
Variable W : Type.

Record Service : Type := mkService {
  (** [Files.List().Q(query).Fields("files(id, name)").Do()]. *)
  FilesList : gostring -> W -> option (list Drive.File) * W;
  (** [Files.Create(metadata).Do()]. *)
  FilesCreate : Drive.File -> W -> option Drive.File * W;
  (** [Files.Create(metadata).Media(contents).Do()]. *)
  FilesCreateMedia : Drive.File -> gostring -> W -> option Drive.File * W
}.

Variable driveService : Service.
Variable year monthNumber : Z.

(** The first half of a round (lines 372-404): at index 0 the month's
    folder is looked up and, when the listing is empty, created; at any
    other index the folder of the round before is kept.  [inr] is a
    [log.Fatalf]. *)
Definition folderStep (driveDestination : gostring) (invoiceIdx : Z)
  (folderMetadata : option Drive.File) (w : W)
  : list call * W * (option Drive.File + saveFatal) :=
  if invoiceIdx =? 0 then
    let metadata := Drive.mkFile [] (folderName year monthNumber) folderMime
                                 [driveDestination] in
    let query := folderQuery driveDestination (Drive.Name metadata) in
    match FilesList driveService query w with
    | (None, w) => ([ListFolders query None], w, inr UnableToListFiles)
    | (Some [], w) =>
      match FilesCreate driveService metadata w with
      | (None, w) =>
        ([ListFolders query (Some []); CreateFolder metadata None], w,
         inr UnableToCreateFolder)
      | (Some created, w) =>
        ([ListFolders query (Some []); CreateFolder metadata (Some created)], w,
         inl (Some created))
      end
    | (Some (found :: more), w) =>
      ([ListFolders query (Some (found :: more))], w,
       inl (Some (Drive.mkFile (Drive.Id found) (Drive.Name metadata)
                               (Drive.MimeType metadata) (Drive.Parents metadata))))
    end
  else ([], w, inl folderMetadata).

(** The second half of a round (lines 406-444): the file is looked up in
    the folder and uploaded when the listing is empty. *)
Definition fileStep (folderMetadata : Drive.File) (invoice : Invoice) (w : W)
  : list call * W * option saveFatal :=
  let fileMetadata := Drive.mkFile [] (FileName invoice) []
                                   [Drive.Id folderMetadata] in
  let query := fileQuery (Drive.Id folderMetadata) (Drive.Name fileMetadata) in
  match FilesList driveService query w with
  | (None, w) => ([ListFiles query None], w, Some UnableToListFiles)
  | (Some (found :: more), w) => ([ListFiles query (Some (found :: more))], w, None)
  | (Some [], w) =>
    match FilesCreateMedia driveService fileMetadata (FileContents invoice) w with
    | (None, w) =>
      ([ListFiles query (Some []);
        Upload fileMetadata (FileContents invoice) false], w,
       Some UnableToCreateFile)
    | (Some _, w) =>
      ([ListFiles query (Some []);
        Upload fileMetadata (FileContents invoice) true], w, None)
    end
  end.

(** [for invoiceIdx, invoice := range invoiceGroup.Invoices], from index
    [invoiceIdx] on. *)
Fixpoint invoicesLoop (driveDestination : gostring) (invoices : list Invoice)
  (invoiceIdx : Z) (folderMetadata : option Drive.File) (w : W)
  : list call * W * option saveFatal :=
  match invoices with
  | [] => ([], w, None)
  | invoice :: rest =>
    match folderStep driveDestination invoiceIdx folderMetadata w with
    | (t1, w, inr why) => (t1, w, Some why)
    | (t1, w, inl None) => (t1, w, Some Unreachable)
    | (t1, w, inl (Some folder)) =>
      match fileStep folder invoice w with
      | (t2, w, Some why) => (t1 ++ t2, w, Some why)
      | (t2, w, None) =>
        let '(t3, w, r) :=
          invoicesLoop driveDestination rest (invoiceIdx + 1) (Some folder) w in
        (t1 ++ t2 ++ t3, w, r)
      end
    end
  end.

(** [for _, invoiceGroup := range invoiceGroups]. *)
Fixpoint groupsLoop (invoiceGroups : list InvoiceGroup.t) (w : W)
  : list call * W * option saveFatal :=
  match invoiceGroups with
  | [] => ([], w, None)
  | invoiceGroup :: rest =>
    match invoicesLoop (InvoiceGroup.DriveDestination invoiceGroup)
                       (InvoiceGroup.Invoices invoiceGroup) 0 None w with
    | (t1, w, Some why) => (t1, w, Some why)
    | (t1, w, None) =>
      let '(t2, w, r) := groupsLoop rest w in (t1 ++ t2, w, r)
    end
  end.

End Save.

(** [saveInvoices(client, month, invoiceGroups)]: [newService] is what
    [drive.NewService] returns, [year] and [monthNumber] are [month.Year()]
    and [month.Month()].  [None] in the result: the function returned. *)
Definition saveInvoices {W : Type} (newService : option (Service W))
  (year monthNumber : Z) (invoiceGroups : list InvoiceGroup.t) (w : W)
  : list call * W * option saveFatal :=
  match newService with
  | None => ([], w, Some UnableToRetrieveDriveClient)
  | Some driveService => groupsLoop W driveService year monthNumber invoiceGroups w
  end.

(** *** Vocabulary *)

Definition countCalls (p : call -> bool) (t : list call) : nat :=
  List.length (filter p t).

Definition isListFiles (c : call) : bool :=
  match c with ListFiles _ _ => true | _ => false end.

Definition isListFolders (c : call) : bool :=
  match c with ListFolders _ _ => true | _ => false end.

(** A file listing that found nothing. *)
Definition isFileMissing (c : call) : bool :=
  match c with ListFiles _ (Some []) => true | _ => false end.

(** A folder listing that found nothing. *)
Definition isFolderMissing (c : call) : bool :=
  match c with ListFolders _ (Some []) => true | _ => false end.

Definition isUpload (c : call) : bool :=
  match c with Upload _ _ _ => true | _ => false end.

Definition isCreateFolder (c : call) : bool :=
  match c with CreateFolder _ _ => true | _ => false end.

Definition hasInvoices (invoiceGroup : InvoiceGroup.t) : bool :=
  match InvoiceGroup.Invoices invoiceGroup with [] => false | _ => true end.

(** *** Data of the examples *)

(** A drive whose state is the list of the names uploaded so far, in one
    folder that already exists: a listing finds a file when its query is
    that of an uploaded name. *)
Definition folderOne : Drive.File :=
  Drive.mkFile (lit "f1") (lit "2024_5") folderMime [lit "folder-1"].

Definition memoryDrive : Service (list gostring) :=
  mkService (list gostring)
    (fun query names =>
       if eqb query (folderQuery (lit "folder-1") (lit "2024_5"))
       then (Some [folderOne], names)
       else if existsb (fun name => eqb query (fileQuery (lit "f1") name)) names
            then (Some [Drive.mkFile (lit "x") [] [] []], names)
            else (Some [], names))
    (fun metadata names => (Some metadata, names))
    (fun metadata _ names => (Some metadata, Drive.Name metadata :: names)).

(** What a run has done so far: it never uploaded or created more than
    the listings found missing, and listed files and folders no more often
    than [files] and [folders]. *)
Definition bounded (t : list call) (files folders : nat) : Prop :=
  (countCalls isUpload t <= countCalls isFileMissing t)%nat
  /\ (countCalls isCreateFolder t <= countCalls isFolderMissing t)%nat
  /\ (countCalls isListFiles t <= files)%nat
  /\ (countCalls isListFolders t <= folders)%nat.

(** What a run that went through has done: one upload for each file
    listing that found nothing, one folder creation for each folder
    listing that found nothing, [files] file listings and [folders] folder
    listings. *)
Definition exact (t : list call) (files folders : nat) : Prop :=
  countCalls isUpload t = countCalls isFileMissing t
  /\ countCalls isCreateFolder t = countCalls isFolderMissing t
  /\ countCalls isListFiles t = files
  /\ countCalls isListFolders t = folders.

Definition atZero (invoiceIdx : Z) : nat := if invoiceIdx =? 0 then 1%nat else 0%nat.

Definition foldersOf (invoices : list Invoice) (invoiceIdx : Z) : nat :=
  match invoices with [] => 0%nat | _ => atZero invoiceIdx end.

(** The groups of a run in which the second rule found nothing. *)
Definition homeGroups : list InvoiceGroup.t :=
  [InvoiceGroup.mk (lit "Home") (lit "folder-1")
     [mkInvoice (lit "Electric.pdf") (lit "att-2") 4567; zeroInvoice]].

End Save.

(* ================================================================== *)
(** ** Further vocabulary *)

Module Words.
Import GoString.

(** A byte the parser's trim removes at either end of the field: space,
    newline, tab, or an ASCII letter. *)
Definition trimmable (c : ascii) : Prop :=
  bval c = 0x20 \/ bval c = 0x0A \/ bval c = 0x09
  \/ 0x61 <= bval c <= 0x7A \/ 0x41 <= bval c <= 0x5A.

(** A token the extractor's loop has no case for. *)
Definition passedOver (tok : Html.Token) : bool :=
  match Html.Type_ tok with
  | Html.EndTagToken | Html.SelfClosingTagToken
  | Html.CommentToken | Html.DoctypeToken => true
  | _ => false
  end.

End Words.

(* ================================================================== *)
(** ** Facts about the string functions *)

Module GoStringFacts.
Import GoString.

Lemma len_nonneg s : 0 <= len s.
Proof. unfold len; lia. Qed.

Lemma len_app a b : len (a ++ b) = len a + len b.
Proof. unfold len; rewrite length_app; lia. Qed.

Lemma len_cons c s : len (c :: s) = len s + 1.
Proof. unfold len; simpl List.length; lia. Qed.

Lemma bval_range c : 0 <= bval c < 256.
Proof.
  unfold bval. pose proof (N_ascii_bounded c) as H.
  split; [lia|]. apply N2Z.inj_lt in H. exact H.
Qed.

Lemma bval_inj a b : bval a = bval b -> a = b.
Proof.
  unfold bval; intros H. apply N2Z.inj in H.
  rewrite <- (ascii_N_embedding a), <- (ascii_N_embedding b), H; reflexivity.
Qed.

Lemma HasPrefix_iff s p : HasPrefix s p = true <-> exists r, s = p ++ r.
Proof.
  revert s; induction p as [|c p IH]; intros s.
  - split; [exists s; reflexivity | destruct s; reflexivity].
  - destruct s as [|d s]; simpl.
    + split; [discriminate | intros [r Hr]; discriminate].
    + rewrite andb_true_iff, IH, Ascii.eqb_eq. split.
      * intros [-> [r ->]]. exists r; reflexivity.
      * intros [r Hr]. injection Hr as -> ->. split; [reflexivity | eauto].
Qed.

Lemma occurs_at_0 s sub : occurs_at s sub 0 <-> HasPrefix s sub = true.
Proof.
  rewrite HasPrefix_iff. split.
  - intros (l & r & -> & Hl). destruct l; [|discriminate]. exists r; reflexivity.
  - intros [r ->]. exists [], r. split; reflexivity.
Qed.

Lemma occurs_at_S c s sub i : occurs_at (c :: s) sub (S i) <-> occurs_at s sub i.
Proof.
  split.
  - intros (l & r & E & Hl). destruct l as [|d l]; [discriminate|].
    simpl in E, Hl. injection E as -> ->. exists l, r. split; [reflexivity | lia].
  - intros (l & r & -> & Hl). exists (c :: l), r. split; [reflexivity | simpl; lia].
Qed.

Lemma occurs_at_nil sub i : occurs_at [] sub i -> i = 0%nat.
Proof.
  intros (l & r & E & Hl). destruct l; [simpl in Hl; lia | discriminate].
Qed.

Lemma Index_nil sub : Index [] sub = if HasPrefix [] sub then 0 else -1.
Proof. reflexivity. Qed.

Lemma Index_cons c s sub :
  Index (c :: s) sub =
  if HasPrefix (c :: s) sub then 0
  else if Index s sub <? 0 then -1 else Index s sub + 1.
Proof. reflexivity. Qed.

(** [strings.Index] returns [-1] exactly when there is no occurrence, and
    the offset of the first occurrence otherwise. *)
Lemma Index_spec s sub :
  (Index s sub = -1 /\ forall j, ~ occurs_at s sub j) \/
  (0 <= Index s sub /\ first_at s sub (Z.to_nat (Index s sub))).
Proof.
  induction s as [|c s IH].
  - rewrite Index_nil. destruct (HasPrefix [] sub) eqn:E.
    + right. split; [lia|]. split; [apply occurs_at_0; exact E | intros; lia].
    + left. split; [reflexivity|]. intros j Hj.
      pose proof (occurs_at_nil _ _ Hj) as ->. apply occurs_at_0 in Hj. congruence.
  - rewrite Index_cons. destruct (HasPrefix (c :: s) sub) eqn:E.
    + right. split; [lia|]. split; [apply occurs_at_0; exact E | intros; lia].
    + destruct IH as [[E1 Hno] | [Hge [Hocc Hmin]]].
      * rewrite E1. simpl. left. split; [reflexivity|].
        intros [|j] Hj.
        -- apply occurs_at_0 in Hj. congruence.
        -- apply occurs_at_S in Hj. exact (Hno _ Hj).
      * destruct (Index s sub <? 0) eqn:El; [apply Z.ltb_lt in El; lia|].
        right. split; [lia|].
        replace (Z.to_nat (Index s sub + 1)) with (S (Z.to_nat (Index s sub))) by lia.
        split; [apply occurs_at_S; exact Hocc|].
        intros [|j] Hj.
        -- apply occurs_at_0 in Hj. congruence.
        -- apply occurs_at_S in Hj. apply Hmin in Hj. lia.
Qed.

Lemma Index_lower s sub : -1 <= Index s sub.
Proof. destruct (Index_spec s sub) as [[-> _]|[H _]]; lia. Qed.

Lemma Index_first_at s sub i : first_at s sub i -> Index s sub = Z.of_nat i.
Proof.
  intros [Hocc Hmin].
  destruct (Index_spec s sub) as [[_ Hno]|[Hge [Hocc' Hmin']]].
  - exfalso; exact (Hno _ Hocc).
  - apply Hmin in Hocc'. apply Hmin' in Hocc. lia.
Qed.

Lemma Index_absent s sub : ~ occurs s sub <-> Index s sub = -1.
Proof.
  split.
  - intros Hno. destruct (Index_spec s sub) as [[E _]|[_ [Hocc _]]]; [exact E|].
    exfalso; apply Hno; eexists; exact Hocc.
  - intros E [j Hj]. destruct (Index_spec s sub) as [[_ Hno]|[Hge _]]; [|lia].
    exact (Hno _ Hj).
Qed.

Lemma occurs_at_bound s sub i : occurs_at s sub i -> Z.of_nat i + len sub <= len s.
Proof.
  intros (l & r & -> & <-). rewrite !len_app. pose proof (len_nonneg r).
  unfold len in *. lia.
Qed.

(** A found index leaves room for the substring: the slice expressions of
    the parser stay in range. *)
Lemma Index_found_bound s sub : 0 <= Index s sub -> Index s sub + len sub <= len s.
Proof.
  intros H. destruct (Index_spec s sub) as [[E _]|[_ [Hocc _]]]; [lia|].
  apply occurs_at_bound in Hocc. lia.
Qed.

Lemma skipn_app_exact {A} (l r : list A) : skipn (List.length l) (l ++ r) = r.
Proof. induction l; simpl; auto. Qed.

Lemma firstn_app_exact {A} (l r : list A) : firstn (List.length l) (l ++ r) = l.
Proof. induction l; simpl; f_equal; auto. Qed.

Lemma slice_app l m r :
  slice (l ++ m ++ r) (len l) (len l + len m) = Some m.
Proof.
  unfold slice. pose proof (len_nonneg l). pose proof (len_nonneg m).
  pose proof (len_nonneg r). rewrite !len_app.
  replace ((0 <=? len l) && (len l <=? len l + len m)
           && (len l + len m <=? len l + (len m + len r))) with true.
  - unfold len. rewrite Nat2Z.id.
    replace (Z.to_nat (Z.of_nat (List.length l) + Z.of_nat (List.length m)
                       - Z.of_nat (List.length l))) with (List.length m) by lia.
    rewrite skipn_app_exact, firstn_app_exact. reflexivity.
  - symmetry. rewrite !andb_true_iff, !Z.leb_le. lia.
Qed.

Lemma slice_from_app l r : slice_from (l ++ r) (len l) = Some r.
Proof.
  unfold slice_from. pose proof (slice_app l r []) as H.
  rewrite app_nil_r in H. rewrite len_app. exact H.
Qed.

Lemma slice_None_iff s lo hi :
  slice s lo hi = None <-> ~ (0 <= lo <= hi /\ hi <= len s).
Proof.
  unfold slice.
  destruct ((0 <=? lo) && (lo <=? hi) && (hi <=? len s)) eqn:E.
  - apply andb_true_iff in E as [E E3]. apply andb_true_iff in E as [E1 E2].
    apply Z.leb_le in E1, E2, E3. split; [discriminate | intros H; exfalso; apply H; lia].
  - split; [|reflexivity]. intros _ [[H1 H2] H3].
    apply Z.leb_le in H1, H2, H3. rewrite H1, H2, H3 in E. discriminate.
Qed.

End GoStringFacts.

(* ================================================================== *)
(** ** Facts about trimming *)

Module TrimFacts.
Import GoString GoStringFacts.

Lemma leadInfo_bounds s0 sz lo hi :
  leadInfo s0 = Some (sz, lo, hi) -> 0x80 <= lo /\ 2 <= sz <= 4 /\ 0x80 <= s0.
Proof.
  unfold leadInfo.
  repeat match goal with
         | |- context [if ?b then _ else _] => destruct b eqn:?
         end; intros Hret; inversion Hret; subst; clear Hret;
    repeat match goal with
           | H : (_ && _) = true |- _ => apply andb_true_iff in H as [? ?]
           | H : (_ <=? _) = true |- _ => apply Z.leb_le in H
           | H : (_ =? _) = true |- _ => apply Z.eqb_eq in H
           end; lia.
Qed.

Lemma leadInfo_ascii s0 : s0 < 0x80 -> leadInfo s0 = None.
Proof.
  intros H. destruct (leadInfo s0) as [[[sz lo] hi]|] eqn:E; [|reflexivity].
  apply leadInfo_bounds in E. lia.
Qed.

Lemma DecodeRune_ascii c t :
  bval c < RuneSelf -> DecodeRuneInString (c :: t) = (bval c, 1).
Proof.
  intros H. unfold DecodeRuneInString. rewrite leadInfo_ascii by exact H.
  apply Z.ltb_lt in H. rewrite H. reflexivity.
Qed.

Ltac split_ifs :=
  repeat match goal with
         | |- context [if ?b then _ else _] => destruct b eqn:?
         end.

Ltac bool_hyps :=
  repeat match goal with
         | H : (_ || _) = false |- _ => apply orb_false_iff in H as [? ?]
         | H : (_ <? _) = false |- _ => apply Z.ltb_ge in H
         | H : (_ <? _) = true |- _ => apply Z.ltb_lt in H
         | H : (_ <=? _) = true |- _ => apply Z.leb_le in H
         | H : (_ <=? _) = false |- _ => apply Z.leb_gt in H
         end.

(** The bytes a decoded non-ASCII rune spans are all high: a trimming loop
    never swallows an ASCII byte inside a multi-byte rune. *)
Lemma DecodeRune_high c t r n :
  high c ->
  DecodeRuneInString (c :: t) = (r, n) ->
  1 <= n <= len (c :: t) /\ Forall high (firstn (Z.to_nat n) (c :: t)).
Proof.
  intros Hc. unfold DecodeRuneInString.
  assert (Hone : 1 <= 1 <= len (c :: t) /\ Forall high (firstn (Z.to_nat 1) (c :: t))).
  { rewrite len_cons. pose proof (len_nonneg t). split; [lia|].
    simpl. constructor; [exact Hc | constructor]. }
  destruct (leadInfo (bval c)) as [[[sz lo] hi]|] eqn:L.
  2:{ split_ifs; intros Hret; inversion Hret; subst; exact Hone. }
  apply leadInfo_bounds in L as (Hlo & Hsz & _).
  destruct (len (c :: t) <? sz) eqn:Hlen; [intros Hret; inversion Hret; subst; exact Hone|].
  apply Z.ltb_ge in Hlen.
  destruct t as [|c1 t1]; [intros Hret; inversion Hret; subst; exact Hone|].
  destruct ((bval c1 <? lo) || (hi <? bval c1)) eqn:H1;
    [intros Hret; inversion Hret; subst; exact Hone|].
  bool_hyps.
  assert (Hc1 : high c1) by (unfold high; lia).
  destruct (sz <=? 2) eqn:S2.
  { intros Hret; inversion Hret; subst. rewrite !len_cons in *. pose proof (len_nonneg t1).
    split; [lia|]. simpl. repeat constructor; assumption. }
  destruct t1 as [|c2 t2]; [intros Hret; inversion Hret; subst; exact Hone|].
  unfold notCont.
  destruct ((bval c2 <? 0x80) || (0xBF <? bval c2)) eqn:H2;
    [intros Hret; inversion Hret; subst; exact Hone|].
  bool_hyps.
  assert (Hc2 : high c2) by (unfold high; lia).
  destruct (sz <=? 3) eqn:S3.
  { intros Hret; inversion Hret; subst. rewrite !len_cons in *. pose proof (len_nonneg t2).
    split; [lia|]. simpl. repeat constructor; assumption. }
  destruct t2 as [|c3 t3]; [intros Hret; inversion Hret; subst; exact Hone|].
  destruct ((bval c3 <? 0x80) || (0xBF <? bval c3)) eqn:H3;
    [intros Hret; inversion Hret; subst; exact Hone|].
  bool_hyps.
  assert (Hc3 : high c3) by (unfold high; lia).
  intros Hret; inversion Hret; subst. rewrite !len_cons in *. pose proof (len_nonneg t3).
  split; [lia|]. simpl. repeat constructor; assumption.
Qed.

Lemma nth_hd_skipn {A} (d : A) n (s : list A) : nth n s d = hd d (skipn n s).
Proof.
  revert s; induction n as [|n IH]; intros [|x s]; simpl; auto.
Qed.

Lemma byteAt_last s c : byteAt (s ++ [c]) (len (s ++ [c]) - 1) = bval c.
Proof.
  unfold byteAt. rewrite len_app. unfold len; simpl List.length.
  replace (Z.to_nat (Z.of_nat (List.length s) + Z.of_nat 1 - 1)) with (List.length s) by lia.
  rewrite nth_hd_skipn, skipn_app_exact. reflexivity.
Qed.

Lemma scanBack_le fuel s start lim : scanBack fuel s start lim <= start.
Proof.
  revert start; induction fuel as [|fuel IH]; intros start; simpl; [lia|].
  split_ifs; try lia. specialize (IH (start - 1)). lia.
Qed.

Lemma skipn_last_one s :
  s <> [] ->
  exists x, skipn (Z.to_nat (len s - 1)) s = [x] /\ byteAt s (len s - 1) = bval x.
Proof.
  intros Hs. destruct (exists_last Hs) as (s' & x & ->).
  exists x. split; [|apply byteAt_last].
  rewrite len_app. unfold len; simpl List.length.
  replace (Z.to_nat (Z.of_nat (List.length s') + Z.of_nat 1 - 1)) with (List.length s') by lia.
  apply skipn_app_exact.
Qed.

Lemma DecodeLastRune_high s r n :
  s <> [] ->
  0x80 <= byteAt s (len s - 1) ->
  DecodeLastRuneInString s = (r, n) ->
  1 <= n <= len s /\ Forall high (skipn (Z.to_nat (len s - n)) s).
Proof.
  intros Hs Hlast. unfold DecodeLastRuneInString.
  assert (Hpos : 1 <= len s).
  { destruct s; [congruence|]. rewrite len_cons. pose proof (len_nonneg s). lia. }
  destruct (skipn_last_one s Hs) as (x & Hx & Hbx).
  assert (Hone : 1 <= 1 <= len s /\ Forall high (skipn (Z.to_nat (len s - 1)) s)).
  { split; [lia|]. rewrite Hx. constructor; [unfold high; lia | constructor]. }
  destruct (len s =? 0) eqn:E0; [apply Z.eqb_eq in E0; lia|].
  unfold RuneSelf. destruct (byteAt s (len s - 1) <? 128) eqn:E1;
    [apply Z.ltb_lt in E1; lia|].
  set (start := Z.max 0 (scanBack 4 s (len s - 2) (Z.max 0 (len s - UTFMax)))).
  assert (Hstart : 0 <= start <= len s - 1).
  { unfold start. pose proof (scanBack_le 4 s (len s - 2) (Z.max 0 (len s - UTFMax))). lia. }
  destruct (DecodeRuneInString (skipn (Z.to_nat start) s)) as [r' size] eqn:D.
  destruct (start + size =? len s) eqn:E2; simpl;
    [|intros Hret; inversion Hret; subst; exact Hone].
  apply Z.eqb_eq in E2. intros Hret; inversion Hret; subst r' size; clear Hret.
  assert (Hlen : len (skipn (Z.to_nat start) s) = len s - start).
  { unfold len. rewrite length_skipn. unfold len in Hstart. lia. }
  destruct (skipn (Z.to_nat start) s) as [|c t] eqn:Hsk.
  { unfold len in Hlen; simpl in Hlen. unfold len in Hstart. lia. }
  destruct (Z.ltb_spec (bval c) RuneSelf) as [Hlt|Hge].
  - rewrite DecodeRune_ascii in D by exact Hlt. inversion D; subst n.
    replace start with (len s - 1) in Hsk by lia. rewrite Hx in Hsk.
    inversion Hsk; subst. unfold RuneSelf in Hlt. lia.
  - apply DecodeRune_high in D; [|exact Hge]. destruct D as [Hn Hall].
    split; [lia|]. replace (len s - n) with start by lia. rewrite Hsk.
    rewrite firstn_all2 in Hall; [exact Hall|].
    unfold len in *. lia.
Qed.

(** What [TrimLeftFunc] removes is a prefix of droppable bytes. *)
Lemma trimLeft_loop_split fuel f s :
  exists l, s = l ++ trimLeft_loop fuel f s /\ Forall (droppable f) l.
Proof.
  revert s; induction fuel as [|fuel IH]; intros s; simpl.
  - exists []. split; [reflexivity | constructor].
  - destruct s as [|c t]; [exists []; split; [reflexivity | constructor]|].
    destruct (bval c <? RuneSelf) eqn:E.
    + destruct (f (bval c)) eqn:Ef; [|exists []; split; [reflexivity | constructor]].
      simpl. destruct (IH t) as (l & Hl & Hd).
      exists (c :: l). split; [simpl; f_equal; exact Hl|].
      constructor; [right; exact Ef | exact Hd].
    + apply Z.ltb_ge in E.
      destruct (DecodeRuneInString (c :: t)) as [r n] eqn:D.
      destruct (f r); [|exists []; split; [reflexivity | constructor]].
      apply DecodeRune_high in D; [|exact E]. destruct D as [_ Hall].
      destruct (IH (skipn (Z.to_nat n) (c :: t))) as (l & Hl & Hd).
      exists (firstn (Z.to_nat n) (c :: t) ++ l). split.
      * rewrite <- app_assoc, <- Hl. symmetry. apply firstn_skipn.
      * apply Forall_app. split; [|exact Hd].
        eapply Forall_impl; [|exact Hall]. intros a Ha; left; exact Ha.
Qed.

(** What [TrimRightFunc] removes is a suffix of droppable bytes. *)
Lemma trimRight_loop_split fuel f s :
  exists r, s = trimRight_loop fuel f s ++ r /\ Forall (droppable f) r.
Proof.
  revert s; induction fuel as [|fuel IH]; intros s; simpl.
  - exists []. split; [symmetry; apply app_nil_r | constructor].
  - destruct s as [|c t]; [exists []; split; [reflexivity | constructor]|].
    set (s := c :: t). assert (Hs : s <> []) by discriminate.
    destruct (skipn_last_one s Hs) as (x & Hx & Hbx).
    assert (Hkeep : exists r, s = s ++ r /\ Forall (droppable f) r).
    { exists []. split; [symmetry; apply app_nil_r | constructor]. }
    destruct (byteAt s (len s - 1) <? RuneSelf) eqn:E.
    + destruct (f (byteAt s (len s - 1))) eqn:Ef; [|exact Hkeep].
      destruct (IH (firstn (Z.to_nat (len s - 1)) s)) as (r & Hr & Hd).
      exists (r ++ [x]). split.
      * rewrite app_assoc, <- Hr, <- Hx. symmetry. apply firstn_skipn.
      * apply Forall_app. split; [exact Hd|].
        constructor; [right; rewrite <- Hbx; exact Ef | constructor].
    + apply Z.ltb_ge in E.
      destruct (DecodeLastRuneInString s) as [r n] eqn:D.
      destruct (f r); [|exact Hkeep].
      apply DecodeLastRune_high in D; [|exact Hs|exact E]. destruct D as [_ Hall].
      destruct (IH (firstn (Z.to_nat (len s - n)) s)) as (r' & Hr & Hd).
      exists (r' ++ skipn (Z.to_nat (len s - n)) s). split.
      * rewrite app_assoc, <- Hr. symmetry. apply firstn_skipn.
      * apply Forall_app. split; [exact Hd|].
        eapply Forall_impl; [|exact Hall]. intros a Ha; left; exact Ha.
Qed.

(** The fuel of the two loops is enough: with at least [length s] rounds,
    the loop stops on the empty string or on a rune that fails [f]. *)
Lemma trimLeft_loop_done fuel f : forall s,
  (List.length s <= fuel)%nat ->
  forall c t, trimLeft_loop fuel f s = c :: t ->
  f (if bval c <? RuneSelf then bval c else fst (DecodeRuneInString (c :: t))) = false.
Proof.
  induction fuel as [|fuel IH]; intros s Hlen c t E.
  - destruct s; [discriminate | simpl in Hlen; lia].
  - simpl in E. destruct s as [|c0 t0]; [discriminate|].
    destruct (bval c0 <? RuneSelf) eqn:Ec.
    + destruct (f (bval c0)) eqn:Ef.
      * apply (IH t0); [simpl in Hlen; lia | exact E].
      * inversion E; subst. rewrite Ec. exact Ef.
    + destruct (DecodeRuneInString (c0 :: t0)) as [r n] eqn:D.
      destruct (f r) eqn:Ef.
      * apply Z.ltb_ge in Ec. apply DecodeRune_high in D; [|exact Ec].
        destruct D as [[Hn _] _].
        apply (IH (skipn (Z.to_nat n) (c0 :: t0))); [|exact E].
        rewrite length_skipn. cbn [List.length] in *. lia.
      * inversion E; subst. rewrite Ec, D. exact Ef.
Qed.

Lemma trimRight_loop_done fuel f : forall s,
  (List.length s <= fuel)%nat ->
  trimRight_loop fuel f s <> [] ->
  f (if byteAt (trimRight_loop fuel f s) (len (trimRight_loop fuel f s) - 1) <? RuneSelf
     then byteAt (trimRight_loop fuel f s) (len (trimRight_loop fuel f s) - 1)
     else fst (DecodeLastRuneInString (trimRight_loop fuel f s))) = false.
Proof.
  induction fuel as [|fuel IH]; intros s Hlen Hne.
  - destruct s; [simpl in Hne; congruence | simpl in Hlen; lia].
  - simpl in *. destruct s as [|c0 t0]; [congruence|].
    set (s := c0 :: t0) in *. assert (Hs : s <> []) by discriminate.
    assert (Hpos : 1 <= len s) by (unfold s; rewrite len_cons; pose proof (len_nonneg t0); lia).
    destruct (byteAt s (len s - 1) <? RuneSelf) eqn:Ec.
    + destruct (f (byteAt s (len s - 1))) eqn:Ef.
      * apply IH; [|exact Hne]. rewrite length_firstn. unfold len in *.
        simpl List.length in *. lia.
      * rewrite Ec. exact Ef.
    + destruct (DecodeLastRuneInString s) as [r n] eqn:D.
      destruct (f r) eqn:Ef.
      * apply Z.ltb_ge in Ec. apply DecodeLastRune_high in D; [|exact Hs|exact Ec].
        destruct D as [[Hn _] _].
        apply IH; [|exact Hne]. rewrite length_firstn. unfold len in *.
        simpl List.length in *. lia.
      * rewrite Ec, D. exact Ef.
Qed.

(** [strings.Trim] returns a middle segment of its argument, between two
    runs of droppable bytes. *)
Lemma Trim_split s cutset :
  exists l r, s = l ++ Trim s cutset ++ r
              /\ Forall (droppable (ContainsRune cutset)) l
              /\ Forall (droppable (ContainsRune cutset)) r.
Proof.
  unfold Trim.
  assert (Hid : exists l r, s = l ++ s ++ r
              /\ Forall (droppable (ContainsRune cutset)) l
              /\ Forall (droppable (ContainsRune cutset)) r).
  { exists [], []. simpl. rewrite app_nil_r. repeat split; constructor. }
  destruct s as [|c t]; [exact Hid|]. destruct cutset as [|k ks]; [exact Hid|].
  set (s := c :: t). set (f := ContainsRune (k :: ks)).
  unfold TrimLeftFunc, TrimRightFunc.
  destruct (trimRight_loop_split (List.length s) f s) as (r & Hr & Hdr).
  destruct (trimLeft_loop_split (List.length (trimRight_loop (List.length s) f s)) f
              (trimRight_loop (List.length s) f s)) as (l & Hl & Hdl).
  exists l, r. split; [|split; assumption].
  rewrite app_assoc, <- Hl. exact Hr.
Qed.

(** A string that begins and ends with ASCII bytes outside the cutset is
    left as it is. *)
Lemma TrimLeftFunc_keep f c t :
  bval c < RuneSelf -> f (bval c) = false -> TrimLeftFunc (c :: t) f = c :: t.
Proof.
  intros Hc Hf. unfold TrimLeftFunc. simpl.
  apply Z.ltb_lt in Hc. rewrite Hc, Hf. reflexivity.
Qed.

Lemma TrimRightFunc_keep f s c :
  bval c < RuneSelf -> f (bval c) = false -> TrimRightFunc (s ++ [c]) f = s ++ [c].
Proof.
  intros Hc Hf. unfold TrimRightFunc.
  rewrite length_app. simpl List.length. rewrite Nat.add_1_r. simpl.
  destruct (s ++ [c]) eqn:E; [reflexivity|]. rewrite <- E.
  rewrite byteAt_last. apply Z.ltb_lt in Hc. rewrite Hc, Hf. reflexivity.
Qed.

End TrimFacts.

(* ================================================================== *)
(** ** Facts about [strings.Replace] and [strconv.ParseUint] *)

Module ParseFacts.
Import GoString GoStringFacts TrimFacts Strconv AmountParser.

Lemma isDigitb_iff c : isDigitb c = true <-> isDigit c.
Proof.
  unfold isDigitb, isDigit. rewrite andb_true_iff, !Z.leb_le. tauto.
Qed.

Lemma forallb_isDigitb s : forallb isDigitb s = true <-> Forall isDigit s.
Proof.
  rewrite forallb_forall, Forall_forall.
  split; intros H x Hx; apply isDigitb_iff, H, Hx.
Qed.

Lemma numericb_iff s : numericb s = true <-> s <> [] /\ Forall isDigit s.
Proof.
  destruct s as [|c t].
  - simpl. split; [discriminate | intros [H _]; congruence].
  - unfold numericb. rewrite forallb_isDigitb. split; [intros H; split; [discriminate | exact H] | tauto].
Qed.

Lemma decimal_from_cons n c s :
  decimal_from n (c :: s) = decimal_from (n * 10 + (bval c - 0x30)) s.
Proof. reflexivity. Qed.

Lemma decimal_from_ge s : forall n, Forall isDigit s -> 0 <= n -> n <= decimal_from n s.
Proof.
  induction s as [|c s IH]; intros n Hd Hn; [simpl; unfold decimal_from; simpl; lia|].
  inversion Hd as [|? ? Hc Hs]; subst. rewrite decimal_from_cons.
  unfold isDigit in Hc. specialize (IH (n * 10 + (bval c - 0x30)) Hs). lia.
Qed.

Lemma decimal_from_app n a b :
  decimal_from n (a ++ b) = decimal_from (decimal_from n a) b.
Proof. unfold decimal_from. apply fold_left_app. Qed.

Lemma parseDigits_cons ch s base cutoff maxVal n :
  parseDigits (ch :: s) base cutoff maxVal n =
  let c := bval ch in
  let d := if (0x30 <=? c) && (c <=? 0x39) then Some (c - 0x30)
           else if (0x61 <=? lower c) && (lower c <=? 0x7A)
                then Some (lower c - 0x61 + 10)
                else None in
  match d with
  | None => (0, Some ErrSyntax)
  | Some d =>
    if base <=? d then (0, Some ErrSyntax)
    else if cutoff <=? n then (maxVal, Some ErrRange)
    else
      let n := n * base in
      let n1 := (n + d) mod 2 ^ 64 in
      if (n1 <? n) || (maxVal <? n1) then (maxVal, Some ErrRange)
      else parseDigits s base cutoff maxVal n1
  end.
Proof. reflexivity. Qed.

(** In base ten the digit loop succeeds on digit strings only. *)
Lemma parseDigits_success_digits s : forall cutoff maxVal n v,
  parseDigits s 10 cutoff maxVal n = (v, None) -> Forall isDigit s.
Proof.
  induction s as [|ch s IH]; intros cutoff maxVal n v H; [constructor|].
  rewrite parseDigits_cons in H. cbv zeta in H.
  destruct ((0x30 <=? bval ch) && (bval ch <=? 0x39)) eqn:Ed.
  - destruct (10 <=? bval ch - 0x30); [discriminate|].
    destruct (cutoff <=? n); [discriminate|].
    match type of H with (if ?b then _ else _) = _ => destruct b end; [discriminate|].
    constructor; [apply isDigitb_iff; exact Ed | eapply IH; exact H].
  - destruct ((0x61 <=? lower (bval ch)) && (lower (bval ch) <=? 0x7A)) eqn:El;
      [|discriminate].
    apply andb_true_iff in El as [El _]. apply Z.leb_le in El.
    destruct (10 <=? lower (bval ch) - 0x61 + 10) eqn:Eb; [discriminate|].
    apply Z.leb_gt in Eb. lia.
Qed.

(** On a digit string, for the 16-bit call of the program: the value when
    it fits, a range error otherwise. *)
Lemma parseDigits_digits s : forall n,
  Forall isDigit s -> 0 <= n <= 65535 ->
  parseDigits s 10 (maxUint64 / 10 + 1) (2 ^ 16 - 1) n =
  if decimal_from n s <=? 65535 then (decimal_from n s, None)
  else (65535, Some ErrRange).
Proof.
  change (maxUint64 / 10 + 1) with 1844674407370955162.
  change (2 ^ 16 - 1) with 65535.
  induction s as [|ch s IH]; intros n Hd Hn.
  - simpl. unfold decimal_from; simpl.
    destruct (Z.leb_spec n 65535); [reflexivity | lia].
  - inversion Hd as [|? ? Hc Hs]; subst. pose proof Hc as Hc'.
    apply isDigitb_iff in Hc'. unfold isDigitb in Hc'. unfold isDigit in Hc.
    rewrite parseDigits_cons. cbv zeta. rewrite Hc'.
    destruct (Z.leb_spec 10 (bval ch - 0x30)); [lia|].
    destruct (Z.leb_spec 1844674407370955162 n); [lia|].
    change (2 ^ 64) with 18446744073709551616.
    rewrite Z.mod_small by lia.
    destruct (Z.ltb_spec (n * 10 + (bval ch - 0x30)) (n * 10)); [lia|].
    rewrite decimal_from_cons. simpl orb.
    destruct (Z.ltb_spec 65535 (n * 10 + (bval ch - 0x30))).
    + pose proof (decimal_from_ge s (n * 10 + (bval ch - 0x30)) Hs ltac:(lia)).
      destruct (Z.leb_spec (decimal_from (n * 10 + (bval ch - 0x30)) s) 65535);
        [lia | reflexivity].
    + apply IH; [exact Hs | lia].
Qed.

Lemma ParseUint_10_16 s :
  ParseUint s 10 16 =
  match s with
  | [] => (0, Some ErrSyntax)
  | _ => parseDigits s 10 (maxUint64 / 10 + 1) (2 ^ 16 - 1) 0
  end.
Proof. destruct s; reflexivity. Qed.

(** [ParseUint(s, 10, 16)] succeeds exactly on the non-empty digit strings
    whose value is at most 65535, and then returns that value. *)
Lemma ParseUint16_spec s :
  if numericb s && (decimal s <=? 65535)
  then ParseUint s 10 16 = (decimal s, None)
  else exists v e, ParseUint s 10 16 = (v, Some e).
Proof.
  rewrite ParseUint_10_16.
  destruct (numericb s) eqn:En; simpl andb.
  - apply numericb_iff in En as [Hne Hd].
    destruct s as [|c t]; [congruence|].
    rewrite (parseDigits_digits _ 0 Hd) by lia. fold (decimal (c :: t)).
    destruct (decimal (c :: t) <=? 65535); [reflexivity | eauto].
  - destruct s as [|c t]; [eauto|].
    destruct (parseDigits (c :: t) 10 (maxUint64 / 10 + 1) (2 ^ 16 - 1) 0)
      as [v [e|]] eqn:E; [eauto|].
    apply parseDigits_success_digits in E.
    assert (numericb (c :: t) = true) by (apply numericb_iff; split; [discriminate | exact E]).
    congruence.
Qed.

Lemma split_shorter {A} (l' l : list A) x r' r :
  l' ++ x :: r' = l ++ r -> (List.length l' < List.length l)%nat -> In x l.
Proof.
  revert l; induction l' as [|b l' IH]; intros [|a l] E Hlt; simpl in *; try lia.
  - injection E as -> _. left; reflexivity.
  - injection E as -> E. right. apply (IH l E). lia.
Qed.

Lemma first_at_fresh l sub r c tl :
  sub = c :: tl -> ~ In c l -> first_at (l ++ sub ++ r) sub (List.length l).
Proof.
  intros -> Hl. split; [exists l, r; split; reflexivity|].
  intros j (l' & r' & E & <-).
  destruct (Nat.le_gt_cases (List.length l) (List.length l')) as [H|H]; [exact H|].
  exfalso. apply Hl. symmetry in E. simpl in E. exact (split_shorter _ _ _ _ _ E H).
Qed.

Lemma In_occurs c s : In c s -> occurs s [c].
Proof.
  intros H. apply in_split in H as (l & r & ->).
  exists (List.length l), l, r. split; reflexivity.
Qed.

Lemma Replace_one s old new :
  Replace s old new 1 =
  if Index s old <? 0 then s
  else firstn (Z.to_nat (Index s old)) s ++ new
       ++ skipn (Z.to_nat (Index s old + len old)) s.
Proof. reflexivity. Qed.

(** [strings.Replace(s, ",", "", 1)] removes the first comma and nothing
    else. *)
Lemma Replace_first_comma l r :
  ~ In comma_byte l -> Replace (l ++ comma ++ r) comma [] 1 = l ++ r.
Proof.
  intros Hl. rewrite Replace_one.
  rewrite (Index_first_at _ _ _ (first_at_fresh l comma r comma_byte [] eq_refl Hl)).
  destruct (Z.ltb_spec (Z.of_nat (List.length l)) 0); [lia|].
  rewrite Nat2Z.id. rewrite firstn_app_exact.
  replace (Z.to_nat (Z.of_nat (List.length l) + len comma)) with (List.length (l ++ comma)).
  - rewrite (app_assoc l comma r), skipn_app_exact. reflexivity.
  - rewrite length_app. unfold len. lia.
Qed.

Lemma Replace_no_comma s : ~ In comma_byte s -> Replace s comma [] 1 = s.
Proof.
  intros Hs. rewrite Replace_one.
  assert (E : Index s comma = -1).
  { apply Index_absent. intros (j & l & r & -> & _). apply Hs.
    apply in_or_app; right. left; reflexivity. }
  rewrite E. reflexivity.
Qed.

Lemma first_comma_split s :
  In comma_byte s -> exists l r, s = l ++ comma ++ r /\ ~ In comma_byte l.
Proof.
  induction s as [|c s IH]; intros H; [contradiction|].
  destruct (ascii_dec c comma_byte) as [->|Hc].
  - exists [], s. split; [reflexivity | intros []].
  - destruct H as [H|H]; [congruence|].
    destruct (IH H) as (l & r & -> & Hl). exists (c :: l), r.
    split; [reflexivity | intros [E|E]; [congruence | exact (Hl E)]].
Qed.

Lemma commas_pos_In s : (0 < commas s)%nat <-> In comma_byte s.
Proof. unfold commas. symmetry. apply count_occ_In. Qed.

Lemma commas_split l r : commas (l ++ comma ++ r) = (commas l + 1 + commas r)%nat.
Proof.
  unfold commas. rewrite !count_occ_app. simpl.
  destruct (ascii_dec comma_byte comma_byte); [lia | congruence].
Qed.

(** A droppable byte of the parser's trim is never the comma, nor a digit:
    none of the bytes ["," .. "9"] is a rune of the cutset. *)
Lemma cutset_keeps r : 0x2C <= r <= 0x39 -> ContainsRune cutset r = false.
Proof.
  intros Hr. unfold ContainsRune.
  replace (runes cutset) with
    [32; 10; 9; 226; 8218; 172; 97; 98; 99; 100; 101; 102; 103; 104; 105;
     106; 107; 108; 109; 110; 111; 112; 113; 114; 115; 116; 117; 118; 119;
     120; 121; 122; 65; 66; 67; 68; 69; 70; 71; 72; 73; 74; 75; 76; 77;
     78; 79; 80; 81; 82; 83; 84; 85; 86; 87; 88; 89; 90]
    by (vm_compute; reflexivity).
  destruct (existsb _ _) eqn:E; [|reflexivity].
  apply existsb_exists in E as (x & Hin & Heq). apply Z.eqb_eq in Heq. subst x.
  simpl in Hin. repeat (destruct Hin as [Hin|Hin]; [lia|]). contradiction.
Qed.

Lemma droppable_not_comma c :
  droppable (ContainsRune cutset) c -> c <> comma_byte.
Proof.
  intros [H|H] ->.
  - unfold high in H. vm_compute in H. apply H; reflexivity.
  - rewrite cutset_keeps in H; [discriminate | vm_compute; split; discriminate].
Qed.

Lemma commas_droppable l :
  Forall (droppable (ContainsRune cutset)) l -> commas l = 0%nat.
Proof.
  intros H. unfold commas. apply count_occ_not_In. intros Hin.
  rewrite Forall_forall in H. exact (droppable_not_comma _ (H _ Hin) eq_refl).
Qed.

(** The parser's trim leaves every comma of the field in place. *)
Lemma Trim_commas s : commas (Trim s cutset) = commas s.
Proof.
  destruct (Trim_split s cutset) as (l & r & E & Hl & Hr).
  rewrite E at 2. unfold commas. rewrite !count_occ_app.
  fold (commas l) (commas r). rewrite (commas_droppable l Hl), (commas_droppable r Hr).
  lia.
Qed.

(** A field that begins and ends with a digit or a comma is not trimmed. *)
Lemma Trim_cutset_keep s c d t :
  s = c :: t -> (exists s', s = s' ++ [d]) ->
  0x2C <= bval c <= 0x39 -> 0x2C <= bval d <= 0x39 ->
  Trim s cutset = s.
Proof.
  intros -> [s' Hs'] Hc Hd. unfold Trim.
  destruct cutset eqn:Ec; [discriminate|]. rewrite <- Ec.
  rewrite Hs'. rewrite TrimRightFunc_keep;
    [|unfold RuneSelf; lia | apply cutset_keeps; exact Hd].
  rewrite <- Hs'. apply TrimLeftFunc_keep;
    [unfold RuneSelf; lia | apply cutset_keeps; exact Hc].
Qed.

End ParseFacts.

(* ================================================================== *)
(** ** The amount parser: theorems *)

Module AmountParserTheorems.
Import GoString GoStringFacts TrimFacts Strconv AmountParser ParseFacts.

(** With both anchors found, the function is the parse step applied to the
    text between them; no slice expression is out of range. *)
Lemma extract_anchored haystack before after pre field post :
  anchored haystack before after pre field post ->
  extractPriceBetweenTwoStrings haystack before after = parseField field.
Proof.
  intros (E & Hb & Ha). unfold extractPriceBetweenTwoStrings.
  rewrite (Index_first_at _ _ _ Hb). fold (len pre).
  assert (E1 : slice_from haystack (len pre + len before) = Some (field ++ after ++ post)).
  { rewrite E, <- len_app, app_assoc. apply slice_from_app. }
  rewrite E1. rewrite (Index_first_at _ _ _ Ha). fold (len field).
  assert (E2 : slice haystack (len pre + len before) (len pre + len before + len field)
               = Some field).
  { rewrite E, <- len_app, app_assoc. apply slice_app. }
  rewrite E2. reflexivity.
Qed.

(** If [before] is found but [after] does not occur behind it, the second
    slice expression has its upper bound below its lower bound: the
    function panics. *)
Lemma after_absent_panics haystack before after pre rest :
  haystack = pre ++ before ++ rest ->
  first_at haystack before (List.length pre) ->
  ~ occurs rest after ->
  extractPriceBetweenTwoStrings haystack before after = Panics.
Proof.
  intros E Hb Ha. unfold extractPriceBetweenTwoStrings.
  rewrite (Index_first_at _ _ _ Hb). fold (len pre).
  assert (E1 : slice_from haystack (len pre + len before) = Some rest).
  { rewrite E, <- len_app, app_assoc. apply slice_from_app. }
  rewrite E1. apply Index_absent in Ha. rewrite Ha.
  assert (E2 : slice haystack (len pre + len before) (len pre + len before + -1) = None).
  { apply slice_None_iff. lia. }
  rewrite E2. reflexivity.
Qed.

(** Whenever the function returns, a value without an error is at most
    65535 and an error comes with the value 0. *)
Lemma returns_bounded haystack before after :
  match extractPriceBetweenTwoStrings haystack before after with
  | Returns v None => 0 <= v <= 65535
  | Returns v (Some _) => v = 0
  | Panics => True
  end.
Proof.
  unfold extractPriceBetweenTwoStrings.
  destruct (slice_from _ _); [|exact I]. destruct (slice _ _ _) as [euros|]; [|exact I].
  set (cents := Replace (Trim euros cutset) comma [] 1).
  generalize (ParseUint16_spec cents).
  destruct (numericb cents) eqn:En; simpl andb.
  - destruct (Z.leb_spec (decimal cents) 65535) as [Hle|Hgt]; intros H.
    + rewrite H. split; [|exact Hle].
      apply numericb_iff in En as [_ Hd].
      apply (decimal_from_ge _ 0 Hd). lia.
    + destruct H as (v & e & ->). reflexivity.
  - intros (v & e & ->). reflexivity.
Qed.

Lemma parseField_spec field :
  let cents := Replace (Trim field cutset) comma [] 1 in
  if numericb cents && (decimal cents <=? 65535)
  then parseField field = Returns (decimal cents) None
  else exists e, parseField field = Returns 0 (Some e).
Proof.
  intros cents. unfold parseField. fold cents.
  pose proof (ParseUint16_spec cents) as H.
  destruct (numericb cents && (decimal cents <=? 65535)).
  - rewrite H. reflexivity.
  - destruct H as (v & e & ->). eauto.
Qed.

Lemma first_at_Index s sub i : Index s sub = Z.of_nat i -> first_at s sub i.
Proof.
  intros E. destruct (Index_spec s sub) as [[E1 _]|[_ H]]; [lia|].
  rewrite E, Nat2Z.id in H. exact H.
Qed.

Lemma digit_not_comma c : isDigit c -> c <> comma_byte.
Proof. intros H ->. unfold isDigit in H. vm_compute in H. destruct H as [H _]. apply H; reflexivity. Qed.

Lemma digits_no_comma s : Forall isDigit s -> ~ In comma_byte s.
Proof.
  intros H Hin. rewrite Forall_forall in H. exact (digit_not_comma _ (H _ Hin) eq_refl).
Qed.

Lemma comma_not_numeric s : In comma_byte s -> numericb s = false.
Proof.
  intros Hin. destruct (numericb s) eqn:E; [|reflexivity].
  apply numericb_iff in E as [_ Hd]. exfalso. exact (digits_no_comma s Hd Hin).
Qed.

(** A field ["<digits>,<digits>"] is left as it is by the trim. *)
Lemma Trim_digits_comma d1 d2 :
  Forall isDigit d1 -> Forall isDigit d2 ->
  Trim (d1 ++ comma ++ d2) cutset = d1 ++ comma ++ d2.
Proof.
  intros H1 H2.
  assert (Hc : 0x2C <= bval comma_byte <= 0x39) by (vm_compute; split; discriminate).
  assert (Hfirst : exists c t, d1 ++ comma ++ d2 = c :: t /\ 0x2C <= bval c <= 0x39).
  { destruct d1 as [|c t].
    - exists comma_byte, d2. split; [reflexivity | exact Hc].
    - exists c, (t ++ comma ++ d2). split; [reflexivity|].
      inversion H1; subst. unfold isDigit in *. lia. }
  assert (Hlast : exists s' d, d1 ++ comma ++ d2 = s' ++ [d] /\ 0x2C <= bval d <= 0x39).
  { destruct (list_eq_dec ascii_dec d2 []) as [->|Hne].
    - exists d1, comma_byte. split; [reflexivity | exact Hc].
    - destruct (exists_last Hne) as (s' & d & ->).
      exists (d1 ++ comma ++ s'), d. split; [rewrite <- !app_assoc; reflexivity|].
      apply Forall_app in H2 as [_ H2]. inversion H2; subst. unfold isDigit in *. lia. }
  destruct Hfirst as (c & t & E1 & Hc1). destruct Hlast as (s' & d & E2 & Hd).
  eapply Trim_cutset_keep; eauto.
Qed.

(** C1 (what the code does when an anchor is missing).  The function has
    no anchor check: with [after] absent it panics on the slice
    [haystack[7:6]]; with [before] absent it computes with the index [-1],
    and then either panics on a slice out of range or silently returns an
    amount read from the wrong place. *)
Theorem missing_anchor_panics_or_misreads :
  (~ occurs (lit "12,34") (lit " EUR")
   /\ extractPriceBetweenTwoStrings (lit "Total: 12,34") (lit "Total: ") (lit " EUR")
      = Panics)
  /\ (~ occurs (lit "ab") (lit "xyzw")
      /\ extractPriceBetweenTwoStrings (lit "ab") (lit "xyzw") (lit " EUR") = Panics)
  /\ (~ occurs (lit "Amount 12,34 EUR") (lit "Total: ")
      /\ extractPriceBetweenTwoStrings (lit "Amount 12,34 EUR") (lit "Total: ")
           (lit " EUR") = Returns 1234 None).
Proof.
  repeat split; try (apply Index_absent; vm_compute; reflexivity);
    vm_compute; reflexivity.
Qed.

(** C2, as stated, fails: in ["Total: 1234,56 EUR"] both anchors sit exactly
    around ["1234,56"], the flat concatenation is 123456, and the function
    returns a range error, not 123456. *)
Lemma flat_concatenation_overflow :
  anchored (lit "Total: 1234,56 EUR") (lit "Total: ") (lit " EUR")
           [] (lit "1234" ++ comma ++ lit "56") []
  /\ decimal (lit "1234" ++ lit "56") = 123456
  /\ extractPriceBetweenTwoStrings (lit "Total: 1234,56 EUR") (lit "Total: ")
       (lit " EUR") = Returns 0 (Some ErrRange).
Proof.
  split; [|split; vm_compute; reflexivity].
  split; [reflexivity|]. split; apply first_at_Index; vm_compute; reflexivity.
Qed.

(** C2 (amended).  For a haystack in which [before] first occurs right
    before ["<digits1>,<digits2>"] and [after] first occurs right behind it,
    with at least one digit in all: the function returns the number whose
    decimal representation is the concatenation of the two digit strings
    when that number is at most 65535, and a range error otherwise. *)
Theorem flat_concatenation_within_16_bits :
  forall haystack before after pre d1 d2 post,
    anchored haystack before after pre (d1 ++ comma ++ d2) post ->
    Forall isDigit d1 -> Forall isDigit d2 -> d1 ++ d2 <> [] ->
    extractPriceBetweenTwoStrings haystack before after =
    if decimal (d1 ++ d2) <=? 65535 then Returns (decimal (d1 ++ d2)) None
    else Returns 0 (Some ErrRange).
Proof.
  intros haystack before after pre d1 d2 post Hanch H1 H2 Hne.
  rewrite (extract_anchored _ _ _ _ _ _ Hanch). unfold parseField.
  rewrite (Trim_digits_comma d1 d2 H1 H2).
  rewrite (Replace_first_comma d1 d2 (digits_no_comma d1 H1)).
  rewrite ParseUint_10_16.
  destruct (d1 ++ d2) as [|c t] eqn:E; [congruence|]. rewrite <- E.
  assert (Hd : Forall isDigit (d1 ++ d2)) by (apply Forall_app; split; assumption).
  rewrite (parseDigits_digits _ 0 Hd) by lia. fold (decimal (d1 ++ d2)).
  destruct (decimal (d1 ++ d2) <=? 65535); reflexivity.
Qed.

(** The example of the specification: ["Total: 12,34 EUR"] gives 1234. *)
Lemma flat_concatenation_witness :
  extractPriceBetweenTwoStrings (lit "Total: 12,34 EUR") (lit "Total: ") (lit " EUR")
  = Returns 1234 None.
Proof.
  refine (flat_concatenation_within_16_bits
            (lit "Total: 12,34 EUR") (lit "Total: ") (lit " EUR")
            [] (lit "12") (lit "34") [] _ _ _ _).
  - split; [reflexivity|]. split; apply first_at_Index; vm_compute; reflexivity.
  - repeat constructor; vm_compute; discriminate.
  - repeat constructor; vm_compute; discriminate.
  - discriminate.
Defined.

(** C7.  When the text between the two anchors holds two commas or more,
    the function returns an error: the trim keeps every comma, the
    replacement removes the first one only, and the parse fails on a string
    that still holds a comma. *)
Theorem second_comma_fails :
  forall haystack before after pre field post,
    anchored haystack before after pre field post ->
    (2 <= commas field)%nat ->
    (exists e, extractPriceBetweenTwoStrings haystack before after
               = Returns 0 (Some e))
    /\ exists l r, Trim field cutset = l ++ comma ++ r
                   /\ ~ In comma_byte l
                   /\ Replace (Trim field cutset) comma [] 1 = l ++ r
                   /\ In comma_byte r.
Proof.
  intros haystack before after pre field post Hanch H2.
  rewrite <- (Trim_commas field) in H2.
  assert (Hin : In comma_byte (Trim field cutset)) by (apply commas_pos_In; lia).
  destruct (first_comma_split _ Hin) as (l & r & E & Hl).
  assert (Hr : In comma_byte r).
  { apply commas_pos_In. rewrite E, commas_split in H2.
    assert (commas l = 0%nat) by (apply count_occ_not_In; exact Hl). lia. }
  assert (Erep : Replace (Trim field cutset) comma [] 1 = l ++ r).
  { rewrite E. apply Replace_first_comma; exact Hl. }
  split; [|exists l, r; repeat split; assumption].
  rewrite (extract_anchored _ _ _ _ _ _ Hanch).
  pose proof (parseField_spec field) as H. cbv zeta in H.
  rewrite Erep in H. rewrite (comma_not_numeric (l ++ r)) in H
    by (apply in_or_app; right; exact Hr).
  exact H.
Qed.

(** The example of the specification: the field ["1,234,56"]. *)
Lemma second_comma_witness :
  (exists e, extractPriceBetweenTwoStrings (lit "Total: 1,234,56 EUR")
               (lit "Total: ") (lit " EUR") = Returns 0 (Some e))
  /\ exists l r, Trim (lit "1,234,56") cutset = l ++ comma ++ r
                 /\ ~ In comma_byte l
                 /\ Replace (Trim (lit "1,234,56") cutset) comma [] 1 = l ++ r
                 /\ In comma_byte r.
Proof.
  refine (second_comma_fails (lit "Total: 1,234,56 EUR") (lit "Total: ") (lit " EUR")
            [] (lit "1,234,56") [] _ _).
  - split; [reflexivity|]. split; apply first_at_Index; vm_compute; reflexivity.
  - vm_compute. lia.
Defined.

(** C8.  The parse is [ParseUint(cents, 10, 16)]: a value the function
    returns without an error is at most 65535 (and an error comes with the
    value 0); and, with both anchors found, the function succeeds exactly
    when the trimmed field with its first comma removed is a non-empty
    digit string of value at most 65535, returning that value, and returns
    an error for every other string. *)
Theorem parse_fits_16_bits :
  forall haystack before after,
    match extractPriceBetweenTwoStrings haystack before after with
    | Returns v None => 0 <= v <= 65535
    | Returns v (Some _) => v = 0
    | Panics => True
    end
    /\ forall pre field post,
        anchored haystack before after pre field post ->
        let cents := Replace (Trim field cutset) comma [] 1 in
        if numericb cents && (decimal cents <=? 65535)
        then extractPriceBetweenTwoStrings haystack before after
             = Returns (decimal cents) None
        else exists e, extractPriceBetweenTwoStrings haystack before after
                       = Returns 0 (Some e).
Proof.
  intros haystack before after. split; [apply returns_bounded|].
  intros pre field post Hanch. rewrite (extract_anchored _ _ _ _ _ _ Hanch).
  apply parseField_spec.
Qed.

(** The largest amount that parses, and the first that does not. *)
Example parse_65535 :
  extractPriceBetweenTwoStrings (lit "Total: 655,35 EUR") (lit "Total: ") (lit " EUR")
  = Returns 65535 None
  /\ extractPriceBetweenTwoStrings (lit "Total: 655,36 EUR") (lit "Total: ") (lit " EUR")
     = Returns 0 (Some ErrRange)
  /\ extractPriceBetweenTwoStrings (lit "Total: 12.34 EUR") (lit "Total: ") (lit " EUR")
     = Returns 0 (Some ErrSyntax).
Proof. repeat split; vm_compute; reflexivity. Qed.

(** The cutset holds the runes U+00E2, U+201A and U+00AC, not U+20AC: a euro
    sign (bytes [E2 82 AC]) next to the amount is not trimmed, and the parse
    fails on it. *)
Example euro_sign_not_trimmed :
  ContainsRune cutset 0x20AC = false
  /\ Trim (lit "12,34 " ++ map byte_of [0xE2; 0x82; 0xAC]) cutset
     = lit "12,34 " ++ map byte_of [0xE2; 0x82; 0xAC].
Proof. split; vm_compute; reflexivity. Qed.

End AmountParserTheorems.

(* ================================================================== *)
(** ** The HTML text extractor: theorems *)

Module HtmlTheorems.
Import GoString GoStringFacts Html.

Section Extractor.

Variable tokenize : gostring -> list Token.
Variable unescape : gostring -> gostring.

Lemma lastStartTag_snoc seen tok :
  lastStartTag (seen ++ [tok]) =
  if isStartTag tok then Data tok else lastStartTag seen.
Proof.
  unfold lastStartTag. rewrite rev_app_distr. simpl.
  destruct (isStartTag tok); reflexivity.
Qed.

Lemma nonEmpty_len s : nonEmpty s = (0 <? len s).
Proof.
  destruct s as [|c t]; [reflexivity|]. rewrite len_cons. pose proof (len_nonneg t).
  simpl. symmetry. apply Z.ltb_lt. lia.
Qed.

Lemma lines_cons t texts : lines (t :: texts) = (t ++ newline) ++ lines texts.
Proof. reflexivity. Qed.

(** The loop appends to [builder] the lines of the kept, non-empty text
    nodes among the tokens it still reaches, provided
    [previousStartTokenTest] holds the name of the last start tag seen. *)
Lemma loopDomTest_spec tokens : forall seen previous builder,
  previous = lastStartTag seen ->
  loopDomTest unescape tokens previous builder =
  builder ++ lines (filter nonEmpty (keptTexts unescape seen (reached tokens))).
Proof.
  induction tokens as [|tok rest IH]; intros seen previous builder Hprev.
  - simpl. rewrite app_nil_r. reflexivity.
  - simpl loopDomTest. simpl reached.
    assert (Hsame : isStartTag tok = false ->
                    previous = lastStartTag (seen ++ [tok])).
    { intros E. rewrite lastStartTag_snoc, E. exact Hprev. }
    destruct (Type_ tok) eqn:Ety.
    + simpl. rewrite app_nil_r. reflexivity.
    + (* text *)
      simpl keptTexts. unfold isText at 1. rewrite Ety.
      unfold underScriptOrStyle at 1. rewrite <- Hprev. simpl andb.
      assert (Hs : isStartTag tok = false) by (unfold isStartTag; rewrite Ety; reflexivity).
      destruct (eqb previous script || eqb previous style).
      * simpl. apply IH. exact (Hsame Hs).
      * simpl negb. cbv iota. simpl app at 2. simpl filter.
        rewrite nonEmpty_len.
        destruct (0 <? len (TrimSpace (UnescapeString unescape (Data tok)))).
        -- rewrite (IH (seen ++ [tok]) previous _ (Hsame Hs)).
           rewrite lines_cons, !app_assoc. reflexivity.
        -- apply IH. exact (Hsame Hs).
    + (* start tag *)
      simpl keptTexts. unfold isText at 1. rewrite Ety. simpl.
      apply IH. rewrite lastStartTag_snoc. unfold isStartTag. rewrite Ety. reflexivity.
    + simpl keptTexts. unfold isText at 1. rewrite Ety. simpl.
      apply IH, Hsame. unfold isStartTag. rewrite Ety. reflexivity.
    + simpl keptTexts. unfold isText at 1. rewrite Ety. simpl.
      apply IH, Hsame. unfold isStartTag. rewrite Ety. reflexivity.
    + simpl keptTexts. unfold isText at 1. rewrite Ety. simpl.
      apply IH, Hsame. unfold isStartTag. rewrite Ety. reflexivity.
    + simpl keptTexts. unfold isText at 1. rewrite Ety. simpl.
      apply IH, Hsame. unfold isStartTag. rewrite Ety. reflexivity.
Qed.

End Extractor.

(** C5 (amended).  For every input, the extractor walks the tokens in
    document order up to the first error token and drops the text tokens
    whose most recently opened start tag is [script] or [style]; every
    other text token is unescaped and trimmed, and, when what remains is
    not empty, appended followed by a newline; a text token that is empty
    after trimming adds nothing. *)
Theorem extractTextFromHtml_lines :
  forall (tokenize : gostring -> list Token) (unescape : gostring -> gostring)
         (input : gostring),
    extractTextFromHtml tokenize unescape input
    = extractedText unescape (tokenize input).
Proof.
  intros tokenize unescape input. unfold extractTextFromHtml, extractedText.
  rewrite (loopDomTest_spec unescape (tokenize input) [] [] []); reflexivity.
Qed.

(** C5, as stated, fails: the text node of [<p> </p>] is under no [script]
    or [style] tag, so the claim gives it a line of its own (an empty
    one), and the code writes nothing for it.  The text holds no ["&"], so
    the entity decoder is not called. *)
Lemma blank_text_node_has_no_line :
  extractTextFromHtml (fun _ => blankParagraph) (fun s => s) (lit "<p> </p>") = []
  /\ claimedText (fun s => s) blankParagraph = newline.
Proof. split; vm_compute; reflexivity. Qed.

(** Text under [script] and [style] is dropped, the rest is kept in
    document order; the tag that counts is the last one opened, also after
    it was closed. *)
Example extract_script_style :
  extractTextFromHtml
    (fun _ => [mkToken StartTagToken (lit "p"); mkToken TextToken (lit " Total: 12,34 EUR ");
               mkToken EndTagToken (lit "p");
               mkToken StartTagToken (lit "script"); mkToken TextToken (lit "var x;");
               mkToken EndTagToken (lit "script"); mkToken TextToken (lit "after script");
               mkToken StartTagToken (lit "b"); mkToken TextToken (lit "bold")])
    (fun s => s) []
  = lit "Total: 12,34 EUR" ++ newline ++ lit "bold" ++ newline.
Proof. vm_compute. reflexivity. Qed.

End HtmlTheorems.

(* ================================================================== *)
(** ** The message loop: theorems *)

Module PipelineTheorems.
Import GoString GoStringFacts Strconv AmountParser Pipeline.

Lemma eqb_eq a b : eqb a b = true <-> a = b.
Proof.
  unfold eqb. destruct (list_eq_dec ascii_dec a b); split; congruence.
Qed.

Lemma eqb_neq a b : eqb a b = false <-> a <> b.
Proof.
  unfold eqb. destruct (list_eq_dec ascii_dec a b); split; congruence.
Qed.

(** [strings.Contains] holds exactly when the substring occurs, byte for
    byte. *)
Lemma Contains_occurs s sub : Contains s sub = true <-> occurs s sub.
Proof.
  unfold Contains. rewrite Z.leb_le. split.
  - intros H. destruct (Index_spec s sub) as [[E _]|[_ [Hocc _]]]; [lia|].
    eexists; exact Hocc.
  - intros Hocc. pose proof (Index_lower s sub).
    destruct (Z.eq_dec (Index s sub) (-1)) as [E|E]; [|lia].
    apply Index_absent in E. contradiction.
Qed.

Lemma hasAttachment_iff part : hasAttachment part = true <-> isAttachmentPart part.
Proof.
  unfold hasAttachment, isAttachmentPart.
  rewrite andb_true_iff, negb_true_iff, eqb_neq.
  destruct (Gmail.Body part) as [body|].
  - rewrite negb_true_iff, eqb_neq. split.
    + intros [H1 H2]. split; [exact H1 | exists body; split; [reflexivity | exact H2]].
    + intros [H1 (b & Hb & H2)]. injection Hb as <-. split; assumption.
  - split; [intros [_ H]; discriminate | intros [_ (b & Hb & _)]; discriminate].
Qed.

Lemma findSubject_Some headers sub h :
  findSubject headers sub = Some h ->
  In h headers /\ Gmail.Name h = subjectName /\ occurs (Gmail.Value h) sub.
Proof.
  induction headers as [|h0 rest IH]; simpl; [discriminate|].
  destruct (eqb (Gmail.Name h0) subjectName) eqn:En; simpl.
  - destruct (Contains (Gmail.Value h0) sub) eqn:Ec; simpl.
    + intros H; injection H as <-. apply eqb_eq in En. apply Contains_occurs in Ec.
      split; [left; reflexivity | split; assumption].
    + intros H. destruct (IH H) as (Hin & Hn & Ho). split; [right; exact Hin | split; assumption].
  - intros H. destruct (IH H) as (Hin & Hn & Ho). split; [right; exact Hin | split; assumption].
Qed.

(** The part loop, from any state of its two pointers: a pointer already
    set stays; the body is the first [text/html] part; the attachment is
    the first part passing the attachment test, where the part that
    becomes the body is never put to that test. *)
Lemma partLoop_spec parts : forall attachmentPart bodyPart,
  partLoop parts attachmentPart bodyPart =
  (match attachmentPart with
   | Some a => Some a
   | None => find hasAttachment
               (match bodyPart with
                | None => removeFirst isHtml parts
                | Some _ => parts
                end)
   end,
   match bodyPart with
   | Some b => Some b
   | None => find isHtml parts
   end).
Proof.
  induction parts as [|part rest IH]; intros att body.
  - cbn [partLoop find removeFirst]. destruct att, body; reflexivity.
  - cbn [partLoop]. fold (isHtml part).
    destruct att as [a|], body as [b|]; cbn [isNil andb find removeFirst];
      destruct (isHtml part) eqn:Eh; destruct (hasAttachment part) eqn:Ea;
      cbn [isNil andb find removeFirst]; rewrite ?Eh, ?Ea; rewrite IH; reflexivity.
Qed.

(** The loop from its initial state, both pointers [nil]. *)
Lemma selectParts_spec (parts : list Gmail.MessagePart) :
  selectParts parts =
  (find hasAttachment (removeFirst isHtml parts), find isHtml parts).
Proof. unfold selectParts. rewrite partLoop_spec. reflexivity. Qed.

(** C3 (amended).  The part loop scans the parts once, in order.  The body
    is the first part whose MIME type is [text/html].  The attachment is
    the first part with a non-empty file name and an attachment id among
    the parts other than that body part: the part taken as body is not
    considered for the attachment role.  Later matches of either role are
    ignored. *)
Theorem selectParts_first_matches :
  forall parts : list Gmail.MessagePart,
    selectParts parts =
    (find hasAttachment (removeFirst isHtml parts), find isHtml parts).
Proof. exact selectParts_spec. Qed.

(** C3, as stated, fails: the two roles are not assigned independently.
    The first part with a file name and an attachment id is [htmlFilePart];
    being [text/html] it is taken as the body, and the loop then takes the
    next one as the attachment, or none when there is no other. *)
Lemma roles_are_not_independent :
  hasAttachment htmlFilePart = true
  /\ claimedSelect [htmlFilePart; pdfFilePart] = (Some htmlFilePart, Some htmlFilePart)
  /\ selectParts [htmlFilePart; pdfFilePart] = (Some pdfFilePart, Some htmlFilePart)
  /\ claimedSelect [htmlFilePart] = (Some htmlFilePart, Some htmlFilePart)
  /\ selectParts [htmlFilePart] = (None, Some htmlFilePart).
Proof. repeat split; vm_compute; reflexivity. Qed.

Lemma find_none_forallb {A} (p : A -> bool) l :
  forallb (fun x => negb (p x)) l = true -> find p l = None.
Proof.
  induction l as [|x l IH]; simpl; [reflexivity|].
  destruct (p x); simpl; [discriminate | exact IH].
Qed.

Lemma removeFirst_incl {A} (p : A -> bool) l x : In x (removeFirst p l) -> In x l.
Proof.
  induction l as [|y l IH]; simpl; [tauto|].
  destruct (p y); simpl; [tauto | intros [H|H]; [left; exact H | right; exact (IH H)]].
Qed.

Lemma run_eq_dec_continue (r : run Invoice) : {r = Exit Continue} + {r <> Exit Continue}.
Proof. destruct r as [inv|[ |why| ]]; (left; reflexivity) || (right; discriminate). Qed.

Ltac break_inner :=
  match goal with
  | |- context [match ?x with _ => _ end] =>
    lazymatch x with
    | context [match _ with _ => _ end] => fail
    | _ => destruct x eqn:?
    end
  end.

Ltac run_proc :=
  unfold bind, emit, orFatal, leave, ret;
  repeat (cbn [fst snd app filter isParse isStore List.length]; try break_inner).

Section Loop.

Variable srv : Services.
Variable month nextMonth : Time.
Variable source : Source.

(** The second half of a round never ends in [continue] nor in the date
    error; it parses at most once and stores at most once. *)
Lemma extractInvoice_shape msg attachmentPart bodyPart :
  snd (extractInvoice srv source msg attachmentPart bodyPart) <> Exit Continue
  /\ snd (extractInvoice srv source msg attachmentPart bodyPart)
     <> Exit (Fatal EmailOutsideTimeRange)
  /\ (count isParse (fst (extractInvoice srv source msg attachmentPart bodyPart)) <= 1)%nat
  /\ (count isStore (fst (extractInvoice srv source msg attachmentPart bodyPart)) <= 1)%nat.
Proof.
  unfold extractInvoice, invoiceTextOf, count. run_proc.
  all: repeat split; try discriminate; lia.
Qed.

(** A round, case by case: the fetch, the date check, the classifier, and
    for a qualifying message the second half. *)
Lemma inspect_cases mId :
  inspect srv month nextMonth source mId =
  match MessagesGet srv mId with
  | None => ([CallMessagesGet mId], Exit (Fatal UnableToRetrieveMessage))
  | Some msg =>
    if Before (UnixMilli (Gmail.InternalDate msg)) month
       || After (UnixMilli (Gmail.InternalDate msg)) nextMonth
    then ([CallMessagesGet mId], Exit (Fatal EmailOutsideTimeRange))
    else
      match classify msg source with
      | None => ([CallMessagesGet mId], Exit (unqualified msg))
      | Some (attachmentPart, bodyPart) =>
        (CallMessagesGet mId :: fst (extractInvoice srv source msg attachmentPart bodyPart),
         snd (extractInvoice srv source msg attachmentPart bodyPart))
      end
  end.
Proof.
  unfold inspect, classify, unqualified, bind, emit, orFatal, leave, ret.
  destruct (MessagesGet srv mId) as [msg|]; [|reflexivity]. cbn [app].
  destruct (Before _ _ || After _ _); [reflexivity|].
  destruct (Gmail.Payload msg) as [payload|]; [|reflexivity]. cbn [isNil].
  destruct (findSubject _ _); [|reflexivity].
  destruct (selectParts _) as [[att|] body]; [|reflexivity].
  destruct (extractInvoice srv source msg att body); reflexivity.
Qed.

Lemma outside_iff msg :
  Before (UnixMilli (Gmail.InternalDate msg)) month
  || After (UnixMilli (Gmail.InternalDate msg)) nextMonth = false
  <-> inWindow month nextMonth msg.
Proof.
  unfold Before, After, inWindow. rewrite orb_false_iff, !Z.ltb_ge. tauto.
Qed.

Lemma unqualified_continue msg :
  unqualified msg = Continue <-> Gmail.Payload msg <> None.
Proof.
  unfold unqualified. destruct (Gmail.Payload msg); cbn [isNil];
    split; congruence.
Qed.

(** A round ends in [continue] exactly on a fetched message, dated within
    the closed window, that has a payload and does not qualify; it then did
    nothing but the fetch. *)
Lemma inspect_continue mId :
  snd (inspect srv month nextMonth source mId) = Exit Continue <->
  exists msg, MessagesGet srv mId = Some msg /\ inWindow month nextMonth msg
              /\ Gmail.Payload msg <> None
              /\ classify msg source = None.
Proof.
  rewrite inspect_cases. split.
  - destruct (MessagesGet srv mId) as [msg|]; [|discriminate].
    destruct (Before _ _ || After _ _) eqn:Ew; [discriminate|].
    destruct (classify msg source) as [[att body]|] eqn:Ec.
    + cbn [snd]. intros H. exfalso.
      exact (proj1 (extractInvoice_shape msg att body) H).
    + cbn [snd]. intros H. exists msg. split; [reflexivity|].
      split; [apply outside_iff; exact Ew|].
      split; [apply unqualified_continue; congruence | exact Ec].
  - intros (msg & -> & Hw & Hp & ->). apply outside_iff in Hw. rewrite Hw.
    apply unqualified_continue in Hp. cbn [snd]. rewrite Hp. reflexivity.
Qed.

Lemma inspect_continue_trace mId :
  snd (inspect srv month nextMonth source mId) = Exit Continue ->
  fst (inspect srv month nextMonth source mId) = [CallMessagesGet mId].
Proof.
  intros H. apply inspect_continue in H as (msg & Hg & Hw & _ & Hc).
  rewrite inspect_cases, Hg. apply outside_iff in Hw. rewrite Hw, Hc. reflexivity.
Qed.

Lemma inspect_counts mId :
  (count isParse (fst (inspect srv month nextMonth source mId)) <= 1)%nat
  /\ (count isStore (fst (inspect srv month nextMonth source mId)) <= 1)%nat.
Proof.
  rewrite inspect_cases.
  destruct (MessagesGet srv mId) as [msg|]; [|cbn; lia].
  destruct (Before _ _ || After _ _); [cbn; lia|].
  destruct (classify msg source) as [[att body]|]; [|cbn; lia].
  destruct (extractInvoice_shape msg att body) as (_ & _ & Hp & Hs).
  unfold count in *. cbn [fst filter isParse isStore]. split; assumption.
Qed.

(** Rounds that [continue] leave the loop as it was, one fetch each. *)
Lemma messagesLoop_skip pre rest slot :
  (forall p, In p pre -> snd (inspect srv month nextMonth source p) = Exit Continue) ->
  messagesLoop srv month nextMonth source (pre ++ rest) slot =
  (map CallMessagesGet pre ++ fst (messagesLoop srv month nextMonth source rest slot),
   snd (messagesLoop srv month nextMonth source rest slot)).
Proof.
  induction pre as [|p pre IH]; intros Hpre.
  - cbn [app map]. destruct (messagesLoop _ _ _ _ rest slot); reflexivity.
  - cbn [app map messagesLoop].
    pose proof (Hpre p (or_introl eq_refl)) as Hp.
    pose proof (inspect_continue_trace p Hp) as Ht.
    destruct (inspect srv month nextMonth source p) as [t r]. cbn [fst snd] in Hp, Ht.
    subst r t. rewrite IH by (intros q Hq; apply Hpre; right; exact Hq).
    reflexivity.
Qed.

(** A round that does not [continue] ends the loop: nothing behind it is
    fetched. *)
Lemma messagesLoop_stop m post slot :
  snd (inspect srv month nextMonth source m) <> Exit Continue ->
  messagesLoop srv month nextMonth source (m :: post) slot =
  (fst (inspect srv month nextMonth source m),
   ending (snd (inspect srv month nextMonth source m)) slot).
Proof.
  intros H. cbn [messagesLoop].
  destruct (inspect srv month nextMonth source m) as [t [inv|[ |why| ]]];
    cbn [fst snd ending] in *; try reflexivity. congruence.
Qed.

Lemma count_app p a b : count p (a ++ b) = (count p a + count p b)%nat.
Proof. unfold count. rewrite filter_app, length_app. reflexivity. Qed.

Lemma messagesLoop_counts msgs slot :
  (count isParse (fst (messagesLoop srv month nextMonth source msgs slot)) <= 1)%nat
  /\ (count isStore (fst (messagesLoop srv month nextMonth source msgs slot)) <= 1)%nat.
Proof.
  induction msgs as [|m rest IH]; [cbn; lia|].
  destruct (run_eq_dec_continue (snd (inspect srv month nextMonth source m))) as [Hc|Hc].
  - change (m :: rest) with ([m] ++ rest).
    rewrite (messagesLoop_skip [m] rest slot)
      by (intros p [<-|[]]; exact Hc).
    cbn [map app fst]. unfold count in *. cbn [filter isParse isStore]. exact IH.
  - rewrite messagesLoop_stop by exact Hc. cbn [fst]. apply inspect_counts.
Qed.

End Loop.

(** C6.  A message is classified as qualifying only if one of its headers
    is named exactly ["Subject"] and has a value in which the configured
    substring occurs byte for byte, and one of its parts has a non-empty
    file name and an attachment id; a message none of whose parts passes
    the attachment test is never qualifying, whatever its subject.  A round
    of the loop on a fetched message that does not qualify does nothing
    beyond the fetch, and no invoice comes of it: it ends the run with the
    date error when the message is dated outside the window; within the
    window it goes on to the next message, or panics when the message has
    no payload at all. *)
Theorem classify_needs_subject_and_attachment :
  forall (msg : Gmail.Message) (source : Source),
    match classify msg source with
    | Some (attachmentPart, _) =>
      (exists h, In h (headersOf msg)
                 /\ Gmail.Name h = lit "Subject"
                 /\ occurs (Gmail.Value h) (SubjectContains source))
      /\ In attachmentPart (partsOf msg)
      /\ isAttachmentPart attachmentPart
    | None => True
    end
    /\ (forallb (fun part => negb (hasAttachment part)) (partsOf msg) = true ->
        classify msg source = None)
    /\ (forall srv month nextMonth mId,
           MessagesGet srv mId = Some msg ->
           classify msg source = None ->
           inspect srv month nextMonth source mId
           = ([CallMessagesGet mId],
              if Before (UnixMilli (Gmail.InternalDate msg)) month
                 || After (UnixMilli (Gmail.InternalDate msg)) nextMonth
              then Exit (Fatal EmailOutsideTimeRange)
              else match Gmail.Payload msg with
                   | None => Exit Panic
                   | Some _ => Exit Continue
                   end)).
Proof.
  intros msg source. split; [|split].
  - unfold classify, headersOf, partsOf.
    destruct (Gmail.Payload msg) as [payload|]; [|exact I].
    rewrite selectParts_spec.
    destruct (findSubject _ _) as [h|] eqn:Eh; [|exact I].
    destruct (find hasAttachment _) as [att|] eqn:Ea; [|exact I].
    apply find_some in Ea as [Hin Hatt]. split.
    + exists h. apply findSubject_Some. exact Eh.
    + split; [eapply removeFirst_incl; exact Hin | apply hasAttachment_iff; exact Hatt].
  - unfold classify, partsOf.
    destruct (Gmail.Payload msg) as [payload|]; [|reflexivity].
    rewrite selectParts_spec.
    intros Hnone. destruct (findSubject _ _); [|reflexivity].
    destruct (find hasAttachment _) as [att|] eqn:Ea; [|reflexivity].
    apply find_some in Ea as [Hin Hatt]. apply removeFirst_incl in Hin.
    rewrite forallb_forall in Hnone. specialize (Hnone _ Hin).
    rewrite Hatt in Hnone. discriminate.
  - intros srv month nextMonth mId Hget Hcl.
    rewrite inspect_cases, Hget, Hcl.
    destruct (Before _ _ || After _ _); [reflexivity|].
    unfold unqualified. destruct (Gmail.Payload msg); reflexivity.
Qed.

(** A message with a matching subject and no attachment part, and one with
    an attachment part and a subject in another case. *)
Example classify_examples :
  classify (Gmail.mkMessage (lit "m") 0
              (Some (Gmail.mkPayload
                 [Gmail.mkHeader (lit "Subject") (lit "Invoice May")]
                 [Gmail.mkPart textHtml [] (Some (Gmail.mkBody [] (lit "PGI+"))) ])))
           electric = None
  /\ classify (bill (lit "m") 0 (lit "INVOICE MAY")) electric = None
  /\ classify (Gmail.mkMessage (lit "m") 0
                 (Some (Gmail.mkPayload
                    [Gmail.mkHeader (lit "subject") (lit "Invoice May")]
                    [pdfFilePart])))
              electric = None
  /\ classify (bill (lit "m") 0 (lit "Your Invoice for May")) electric
     = Some (pdfFilePart, None).
Proof. repeat split; vm_compute; reflexivity. Qed.

(** A reply without payload: the round panics in the header loop, after
    the fetch and the date check, and the bill behind it is never fetched. *)
Example reply_without_payload :
  classify (bare (lit "b0") 10) electric = None
  /\ inspect (mailbox bareFirst) windowStart windowEnd electric (lit "b0")
     = ([CallMessagesGet (lit "b0")], Exit Panic)
  /\ inspect (mailbox [bare (lit "b0") 1001]) windowStart windowEnd electric (lit "b0")
     = ([CallMessagesGet (lit "b0")], Exit (Fatal EmailOutsideTimeRange)).
Proof. repeat split; vm_compute; reflexivity. Qed.

(** On the empty text the parser never yields an amount: it panics or
    returns a syntax error. *)
Lemma extract_empty before after :
  extractPriceBetweenTwoStrings [] before after = Panics
  \/ extractPriceBetweenTwoStrings [] before after = Returns 0 (Some ErrSyntax).
Proof.
  destruct before as [|c1 [|c2 t]].
  - destruct after as [|d t']; [right | left]; reflexivity.
  - destruct after as [|d t']; [right | left]; reflexivity.
  - left. unfold extractPriceBetweenTwoStrings.
    assert (E : slice_from [] (Index [] (c1 :: c2 :: t) + len (c1 :: c2 :: t)) = None).
    { apply slice_None_iff. rewrite !len_cons. pose proof (len_nonneg t).
      change (Index [] (c1 :: c2 :: t)) with (-1). change (len []) with 0. lia. }
    rewrite E. reflexivity.
Qed.

(** C4, as stated, fails: a message dated exactly at the end of the window
    passes the date check, and here it is turned into an invoice. *)
Lemma message_at_window_end_is_accepted :
  UnixMilli (Gmail.InternalDate (bill (lit "m1") 1000 (lit "Invoice May"))) = windowEnd
  /\ snd (messagesLoop (mailbox [bill (lit "m1") 1000 (lit "Invoice May")])
                       windowStart windowEnd electric [lit "m1"] zeroInvoice)
     = Finished (mkInvoice (lit "Electric.pdf") (lit "att-2") 4567).
Proof. split; vm_compute; reflexivity. Qed.

(** C4 (amended).  Each message the loop fetches has its date checked
    against the closed window [[month, nextMonth]]: a message dated before
    [month] or after [nextMonth] ends the run with the fatal error, and so
    does the loop when it reaches it, never skipping it; a message dated
    within the closed window, its end included, passes the check.
    Messages behind the one that ends the loop are not fetched, hence not
    checked. *)
Theorem date_check_closed_window :
  forall srv month nextMonth source mId msg,
    MessagesGet srv mId = Some msg ->
    ((UnixMilli (Gmail.InternalDate msg) < month
      \/ nextMonth < UnixMilli (Gmail.InternalDate msg)) ->
     inspect srv month nextMonth source mId
     = ([CallMessagesGet mId], Exit (Fatal EmailOutsideTimeRange))
     /\ forall pre post slot,
         (forall p, In p pre ->
                    snd (inspect srv month nextMonth source p) = Exit Continue) ->
         messagesLoop srv month nextMonth source (pre ++ mId :: post) slot
         = (map CallMessagesGet pre ++ [CallMessagesGet mId],
            Failed EmailOutsideTimeRange))
    /\ (month <= UnixMilli (Gmail.InternalDate msg) <= nextMonth ->
        snd (inspect srv month nextMonth source mId)
        <> Exit (Fatal EmailOutsideTimeRange)).
Proof.
  intros srv month nextMonth source mId msg Hget. split.
  - intros Hout.
    assert (E : inspect srv month nextMonth source mId
                = ([CallMessagesGet mId], Exit (Fatal EmailOutsideTimeRange))).
    { rewrite inspect_cases, Hget.
      destruct (Before _ _ || After _ _) eqn:Ew; [reflexivity|].
      apply outside_iff in Ew. unfold inWindow in Ew. lia. }
    split; [exact E|]. intros pre post slot Hpre.
    rewrite messagesLoop_skip by exact Hpre.
    rewrite messagesLoop_stop by (rewrite E; discriminate).
    rewrite E. reflexivity.
  - intros Hin. rewrite inspect_cases, Hget.
    apply outside_iff in Hin. rewrite Hin.
    destruct (classify msg source) as [[att body]|];
      [|unfold unqualified; destruct (isNil _); discriminate].
    cbn [snd]. apply extractInvoice_shape.
Qed.

(** A message dated one millisecond behind the end of the window. *)
Lemma date_check_witness :
  (inspect (mailbox [bill (lit "m1") 1001 (lit "Invoice May")])
           windowStart windowEnd electric (lit "m1")
   = ([CallMessagesGet (lit "m1")], Exit (Fatal EmailOutsideTimeRange))
   /\ forall pre post slot,
       (forall p, In p pre ->
                  snd (inspect (mailbox [bill (lit "m1") 1001 (lit "Invoice May")])
                               windowStart windowEnd electric p) = Exit Continue) ->
       messagesLoop (mailbox [bill (lit "m1") 1001 (lit "Invoice May")])
                    windowStart windowEnd electric (pre ++ lit "m1" :: post) slot
       = (map CallMessagesGet pre ++ [CallMessagesGet (lit "m1")],
          Failed EmailOutsideTimeRange)).
Proof.
  refine (proj1 (date_check_closed_window
                   (mailbox [bill (lit "m1") 1001 (lit "Invoice May")])
                   windowStart windowEnd electric (lit "m1")
                   (bill (lit "m1") 1001 (lit "Invoice May")) _) _).
  - reflexivity.
  - right. vm_compute. reflexivity.
Defined.

(** The first round that does not [continue] ends the loop: its events
    follow one fetch per earlier message, and nothing behind it is
    fetched. *)
Lemma messagesLoop_first_stop srv month nextMonth source pre m post slot :
  (forall p, In p pre -> snd (inspect srv month nextMonth source p) = Exit Continue) ->
  snd (inspect srv month nextMonth source m) <> Exit Continue ->
  messagesLoop srv month nextMonth source (pre ++ m :: post) slot
  = (map CallMessagesGet pre ++ fst (inspect srv month nextMonth source m),
     ending (snd (inspect srv month nextMonth source m)) slot).
Proof.
  intros Hpre Hm. rewrite messagesLoop_skip by exact Hpre.
  rewrite messagesLoop_stop by exact Hm. reflexivity.
Qed.

(** C9, as stated, fails: the first qualifying message of the list is not
    always the one processed.  The date of each message is checked before
    its subject, and the payload is read without a test: a message that
    does not qualify, placed before the bill, ends the run when it is
    dated outside the window or has no payload, and the bill is never
    fetched. *)
Lemma earlier_message_ends_the_run :
  classify (bill (lit "n0") 1001 (lit "Newsletter")) electric = None
  /\ classify (bare (lit "b0") 10) electric = None
  /\ classify (bill (lit "m1") 20 (lit "Invoice May")) electric
     = Some (pdfFilePart, None)
  /\ inWindow windowStart windowEnd (bill (lit "m1") 20 (lit "Invoice May"))
  /\ messagesLoop (mailbox lateNews) windowStart windowEnd electric
                  [lit "n0"; lit "m1"] zeroInvoice
     = ([CallMessagesGet (lit "n0")], Failed EmailOutsideTimeRange)
  /\ messagesLoop (mailbox bareFirst) windowStart windowEnd electric
                  [lit "b0"; lit "m1"] zeroInvoice
     = ([CallMessagesGet (lit "b0")], Panicked).
Proof.
  repeat split; try (vm_compute; reflexivity); vm_compute; discriminate.
Qed.

(** C9 (amended).  Over any list of candidates, the loop parses at most
    once and stores at most one invoice.  When every message before [m] is
    fetched, dated within the closed window, has a payload and does not
    qualify, the loop reaches [m] after one fetch per earlier message, and:
    if [m] is fetched, dated within the window and qualifying, the loop
    ends with [m], its result is that of processing [m], and no message
    behind [m] is fetched; if [m] cannot be fetched, is dated outside the
    window, or has no payload, the run ends at [m] with the fetch error,
    the date error or a panic, whatever qualifying message lies behind. *)
Theorem first_qualifying_message_only :
  forall srv month nextMonth source msgs slot,
    ((count isParse (fst (messagesLoop srv month nextMonth source msgs slot)) <= 1)%nat
     /\ (count isStore (fst (messagesLoop srv month nextMonth source msgs slot)) <= 1)%nat)
    /\ forall pre m post,
        msgs = pre ++ m :: post ->
        (forall p, In p pre ->
           exists msg', MessagesGet srv p = Some msg'
                        /\ inWindow month nextMonth msg'
                        /\ Gmail.Payload msg' <> None
                        /\ classify msg' source = None) ->
        (forall msg attachmentPart bodyPart,
            MessagesGet srv m = Some msg ->
            inWindow month nextMonth msg ->
            classify msg source = Some (attachmentPart, bodyPart) ->
            messagesLoop srv month nextMonth source msgs slot
            = (map CallMessagesGet pre
               ++ CallMessagesGet m
                  :: fst (extractInvoice srv source msg attachmentPart bodyPart),
               ending (snd (extractInvoice srv source msg attachmentPart bodyPart))
                      slot))
        /\ (MessagesGet srv m = None ->
            messagesLoop srv month nextMonth source msgs slot
            = (map CallMessagesGet pre ++ [CallMessagesGet m],
               Failed UnableToRetrieveMessage))
        /\ (forall msg,
               MessagesGet srv m = Some msg ->
               ~ inWindow month nextMonth msg ->
               messagesLoop srv month nextMonth source msgs slot
               = (map CallMessagesGet pre ++ [CallMessagesGet m],
                  Failed EmailOutsideTimeRange))
        /\ (forall msg,
               MessagesGet srv m = Some msg ->
               inWindow month nextMonth msg ->
               Gmail.Payload msg = None ->
               messagesLoop srv month nextMonth source msgs slot
               = (map CallMessagesGet pre ++ [CallMessagesGet m], Panicked)).
Proof.
  intros srv month nextMonth source msgs slot. split; [apply messagesLoop_counts|].
  intros pre m post -> Hpre.
  assert (Hskip : forall p, In p pre ->
            snd (inspect srv month nextMonth source p) = Exit Continue)
    by (intros p Hp; apply inspect_continue, Hpre, Hp).
  split; [|split; [|split]].
  - intros msg att body Hget Hwin Hcl.
    assert (E : inspect srv month nextMonth source m
                = (CallMessagesGet m :: fst (extractInvoice srv source msg att body),
                   snd (extractInvoice srv source msg att body))).
    { rewrite inspect_cases, Hget. apply outside_iff in Hwin. rewrite Hwin, Hcl.
      reflexivity. }
    rewrite messagesLoop_first_stop
      by (try exact Hskip; rewrite E; cbn [snd]; apply extractInvoice_shape).
    rewrite E. reflexivity.
  - intros Hget.
    assert (E : inspect srv month nextMonth source m
                = ([CallMessagesGet m], Exit (Fatal UnableToRetrieveMessage)))
      by (rewrite inspect_cases, Hget; reflexivity).
    rewrite messagesLoop_first_stop by (try exact Hskip; rewrite E; discriminate).
    rewrite E. reflexivity.
  - intros msg Hget Hout.
    assert (E : inspect srv month nextMonth source m
                = ([CallMessagesGet m], Exit (Fatal EmailOutsideTimeRange))).
    { rewrite inspect_cases, Hget.
      destruct (Before _ _ || After _ _) eqn:Ew; [reflexivity|].
      apply outside_iff in Ew. contradiction. }
    rewrite messagesLoop_first_stop by (try exact Hskip; rewrite E; discriminate).
    rewrite E. reflexivity.
  - intros msg Hget Hwin Hnil.
    assert (E : inspect srv month nextMonth source m
                = ([CallMessagesGet m], Exit Panic)).
    { rewrite inspect_cases, Hget. apply outside_iff in Hwin. rewrite Hwin.
      unfold classify, unqualified. rewrite Hnil. reflexivity. }
    rewrite messagesLoop_first_stop by (try exact Hskip; rewrite E; discriminate).
    rewrite E. reflexivity.
Qed.

Lemma first_qualifying_witness :
  messagesLoop (mailbox threeBills) windowStart windowEnd electric
               [lit "m0"; lit "m1"; lit "m2"] zeroInvoice
  = ([CallMessagesGet (lit "m0"); CallMessagesGet (lit "m1");
      CallAttachmentsGet (lit "m1") (lit "att-2"); CallPdftotext 1;
      CallExtractPrice (lit "Invoice" ++ Html.newline ++ lit "Total 45,67 EUR"
                        ++ Html.newline) (lit "Total ") (lit " EUR");
      StoreInvoice (mkInvoice (lit "Electric.pdf") (lit "att-2") 4567)],
     Finished (mkInvoice (lit "Electric.pdf") (lit "att-2") 4567)).
Proof.
  refine (proj1 (proj2 (first_qualifying_message_only (mailbox threeBills)
                          windowStart windowEnd electric
                          [lit "m0"; lit "m1"; lit "m2"] zeroInvoice)
                       [lit "m0"] (lit "m1") [lit "m2"] eq_refl _)
                (bill (lit "m1") 20 (lit "Invoice May")) pdfFilePart None
                eq_refl _ eq_refl).
  - intros p [<-|[]]. exists (bill (lit "m0") 10 (lit "Newsletter")).
    split; [reflexivity|]. split; [vm_compute; split; discriminate|].
    split; [discriminate | reflexivity].
  - vm_compute. split; discriminate.
Defined.

(** C10.  When the location of a source is neither ["body"] nor
    ["attachment"], the switch takes no branch and reports nothing: the
    text is the empty string.  For a qualifying message whose attachment
    is fetched and decoded, the parser is then called on the empty string,
    and the round ends in the price error or in a panic, never with an
    invoice. *)
Theorem unknown_location_parses_empty_text :
  forall srv source,
    Location source <> lit "body" ->
    Location source <> lit "attachment" ->
    (forall bodyPart attachmentBytes,
        invoiceTextOf srv source bodyPart attachmentBytes = ([], Go []))
    /\ forall msg attachmentPart attachmentBody bodyPart data attachmentBytes,
        Gmail.Body attachmentPart = Some attachmentBody ->
        AttachmentsGet srv (Gmail.Id msg) (Gmail.AttachmentId attachmentBody)
        = Some data ->
        DecodeString srv data = Some attachmentBytes ->
        fst (extractInvoice srv source msg attachmentPart bodyPart)
        = [CallAttachmentsGet (Gmail.Id msg) (Gmail.AttachmentId attachmentBody);
           CallExtractPrice [] (StringBeforePrice source) (StringAfterPrice source)]
        /\ (snd (extractInvoice srv source msg attachmentPart bodyPart) = Exit Panic
            \/ snd (extractInvoice srv source msg attachmentPart bodyPart)
               = Exit (Fatal UnableToExtractPrice)).
Proof.
  intros srv source Hb Ha.
  assert (Htext : forall bodyPart attachmentBytes,
             invoiceTextOf srv source bodyPart attachmentBytes = ([], Go [])).
  { intros bodyPart attachmentBytes. unfold invoiceTextOf.
    apply eqb_neq in Hb, Ha. unfold locBody, locAttachment. rewrite Hb, Ha.
    reflexivity. }
  split; [exact Htext|].
  intros msg att attBody body data bytes Hbody Hget Hdec.
  unfold extractInvoice. rewrite Hbody. unfold bind, emit, orFatal, leave, ret.
  rewrite Hget, Hdec, Htext. cbn [app fst snd].
  destruct (extract_empty (StringBeforePrice source) (StringAfterPrice source))
    as [E|E]; rewrite E; cbn [app fst snd]; split; auto.
Qed.

Lemma unknown_location_witness :
  (forall bodyPart attachmentBytes,
      invoiceTextOf (mailbox [bill (lit "m1") 20 (lit "Invoice May")]) electricPdf
                    bodyPart attachmentBytes = ([], Go []))
  /\ inspect (mailbox [bill (lit "m1") 20 (lit "Invoice May")])
             windowStart windowEnd electricPdf (lit "m1")
     = ([CallMessagesGet (lit "m1"); CallAttachmentsGet (lit "m1") (lit "att-2");
         CallExtractPrice [] (lit "Total ") (lit " EUR")],
        Exit Panic).
Proof.
  split.
  - exact (proj1 (unknown_location_parses_empty_text
                    (mailbox [bill (lit "m1") 20 (lit "Invoice May")]) electricPdf
                    ltac:(discriminate) ltac:(discriminate))).
  - vm_compute. reflexivity.
Defined.

(** The end-to-end scenario of the specification: one candidate with a
    qualifying subject and an attachment whose first page holds
    ["Total 45,67 EUR"]. *)
Example electric_bill :
  scrapeSource (mailbox [bill (lit "m1") 20 (lit "Invoice May")])
               windowStart windowEnd electric
  = ([CallMessagesList (lit "bills@example.com"); CallMessagesGet (lit "m1");
      CallAttachmentsGet (lit "m1") (lit "att-2"); CallPdftotext 1;
      CallExtractPrice (lit "Invoice" ++ Html.newline ++ lit "Total 45,67 EUR"
                        ++ Html.newline) (lit "Total ") (lit " EUR");
      StoreInvoice (mkInvoice (lit "Electric.pdf") (lit "att-2") 4567)],
     Finished (mkInvoice (lit "Electric.pdf") (lit "att-2") 4567)).
Proof. vm_compute. reflexivity. Qed.

(** No candidate in the window: the slot keeps its zero value. *)
Example no_candidates :
  scrapeSource (mailbox []) windowStart windowEnd electric
  = ([CallMessagesList (lit "bills@example.com")], Finished zeroInvoice).
Proof. vm_compute. reflexivity. Qed.

End PipelineTheorems.

(* ================================================================== *)
(** ** Printed integers: facts *)

Module FmtFacts.
Import GoString GoStringFacts AmountParser ParseFacts Fmt.

Lemma bval_byte_of n : 0 <= n < 256 -> bval (byte_of n) = n.
Proof.
  intros H. unfold bval, byte_of. rewrite N_ascii_embedding.
  - apply Z2N.id. lia.
  - change 256%N with (Z.to_N 256). apply Z2N.inj_lt; lia.
Qed.

Lemma digit_byte d : 0 <= d <= 9 -> isDigit (byte_of (0x30 + d)) /\ bval (byte_of (0x30 + d)) - 0x30 = d.
Proof.
  intros H. unfold isDigit. rewrite bval_byte_of by lia. lia.
Qed.

Lemma decimal_snoc ds d : decimal (ds ++ [d]) = decimal ds * 10 + (bval d - 0x30).
Proof. unfold decimal. rewrite decimal_from_app. reflexivity. Qed.

Lemma digitsLoop_S fuel u buf :
  digitsLoop (S fuel) u buf =
  if 10 <=? u
  then digitsLoop fuel (u / 10) (byte_of (0x30 + (u - u / 10 * 10)) :: buf)
  else byte_of (0x30 + u) :: buf.
Proof. reflexivity. Qed.

(** The digit loop writes, in front of [buf], the decimal digits of [u],
    at least one, provided the fuel covers them. *)
Lemma digitsLoop_spec fuel : forall u buf,
  0 <= u < 10 ^ Z.of_nat (S fuel) ->
  exists ds, digitsLoop (S fuel) u buf = ds ++ buf
             /\ ds <> [] /\ Forall isDigit ds /\ decimal ds = u.
Proof.
  assert (Hlast : forall k u buf, 0 <= u <= 9 ->
            exists ds, (if 10 <=? u
                        then digitsLoop k (u / 10)
                               (byte_of (0x30 + (u - u / 10 * 10)) :: buf)
                        else byte_of (0x30 + u) :: buf) = ds ++ buf
                       /\ ds <> [] /\ Forall isDigit ds /\ decimal ds = u).
  { intros k u buf Hr. destruct (Z.leb_spec 10 u); [lia|].
    destruct (digit_byte _ Hr) as [Hdig Hval].
    exists [byte_of (0x30 + u)]. split; [reflexivity|].
    split; [discriminate|]. split; [constructor; [exact Hdig | constructor]|].
    unfold decimal, decimal_from. cbn [fold_left]. lia. }
  induction fuel as [|fuel IH]; intros u buf Hu.
  - change (10 ^ Z.of_nat 1) with 10 in Hu.
    exact (Hlast O u buf ltac:(lia)).
  - rewrite Nat2Z.inj_succ, Z.pow_succ_r in Hu by lia.
    destruct (Z.le_gt_cases 10 u) as [Hge|Hlt];
      [|exact (Hlast (S fuel) u buf ltac:(lia))].
    rewrite digitsLoop_S.
    destruct (Z.leb_spec 10 u) as [_|Hlt]; [|lia].
    assert (Hq : 0 <= u / 10 < 10 ^ Z.of_nat (S fuel)).
    { split; [apply Z.div_pos; lia | apply Z.div_lt_upper_bound; lia]. }
    destruct (IH (u / 10) (byte_of (0x30 + (u - u / 10 * 10)) :: buf) Hq)
      as (ds & E & Hne & Hd & Hv).
    assert (Hr : 0 <= u - u / 10 * 10 <= 9).
    { pose proof (Z.mod_pos_bound u 10 ltac:(lia)).
      pose proof (Z.div_mod u 10 ltac:(lia)). lia. }
    destruct (digit_byte _ Hr) as [Hdig Hval].
    exists (ds ++ [byte_of (0x30 + (u - u / 10 * 10))]).
    split; [rewrite E, <- app_assoc; reflexivity|].
    split; [intros Hnil; apply app_eq_nil in Hnil as [_ Hnil]; discriminate|].
    split; [apply Forall_app; split; [exact Hd | constructor; [exact Hdig | constructor]]|].
    rewrite decimal_snoc, Hv, Hval. lia.
Qed.

(** [%d] of a [uint64] is a non-empty digit string that denotes it. *)
Lemma formatUint_spec u :
  0 <= u < 2 ^ 64 ->
  formatUint u <> [] /\ Forall isDigit (formatUint u) /\ decimal (formatUint u) = u.
Proof.
  intros Hu. unfold formatUint.
  destruct (digitsLoop_spec 19 u []) as (ds & E & Hne & Hd & Hv).
  - change (10 ^ Z.of_nat 20) with 100000000000000000000.
    change (2 ^ 64) with 18446744073709551616 in Hu. lia.
  - rewrite E, app_nil_r. repeat split; assumption.
Qed.

Lemma formatUint_one_digit u : 0 <= u < 10 -> formatUint u = [byte_of (0x30 + u)].
Proof.
  intros Hu. unfold formatUint. cbn [digitsLoop].
  destruct (Z.leb_spec 10 u); [lia | reflexivity].
Qed.

Lemma formatUint_two_digits u :
  10 <= u < 100 ->
  formatUint u = [byte_of (0x30 + u / 10); byte_of (0x30 + (u - u / 10 * 10))].
Proof.
  intros Hu. unfold formatUint. cbn [digitsLoop].
  destruct (Z.leb_spec 10 u); [|lia].
  assert (u / 10 < 10) by (apply Z.div_lt_upper_bound; lia).
  destruct (Z.leb_spec 10 (u / 10)); [lia | reflexivity].
Qed.

End FmtFacts.

(* ================================================================== *)
(** ** The amount parser: further theorems *)

Module AmountParserMore.
Import GoString GoStringFacts TrimFacts Strconv AmountParser ParseFacts.
Import AmountParserTheorems Words.

Ltac zbools :=
  repeat match goal with
         | |- context [?a <=? ?b] => destruct (Z.leb_spec a b)
         end.

Lemma len_skipn k s : (k <= List.length s)%nat -> len (skipn k s) = len s - Z.of_nat k.
Proof. intros H. unfold len. rewrite length_skipn. lia. Qed.

(** Slicing from [k] is slicing the rest from [0]. *)
Lemma slice_skipn h k i :
  0 <= k <= len h ->
  slice h k (k + i) = slice (skipn (Z.to_nat k) h) 0 i.
Proof.
  intros Hk. unfold slice.
  rewrite (len_skipn (Z.to_nat k) h) by (unfold len in Hk; lia).
  rewrite Z2Nat.id by lia.
  replace (k + i - k) with i by lia. replace (i - 0) with i by lia.
  change (Z.to_nat 0) with O. cbn [skipn].
  zbools; cbn [andb]; try reflexivity; lia.
Qed.

Lemma slice_from_skipn h k :
  0 <= k <= len h -> slice_from h k = Some (skipn (Z.to_nat k) h).
Proof.
  intros Hk. unfold slice_from, slice.
  zbools; cbn [andb]; try lia.
  rewrite firstn_all2; [reflexivity|].
  rewrite length_skipn. unfold len. lia.
Qed.

Lemma Index_empty s : Index s [] = 0.
Proof. destruct s; reflexivity. Qed.

Lemma occurs_empty s : occurs s [].
Proof. exists O, [], s. split; reflexivity. Qed.

(** With [before] absent the function computes with the index [-1]: it
    reads on from byte [len(before) - 1] as if an empty anchor had been
    found there, or panics when the text is shorter than that. *)
Lemma absent_before haystack before after :
  ~ occurs haystack before ->
  extractPriceBetweenTwoStrings haystack before after =
  if len before - 1 <=? len haystack
  then extractPriceBetweenTwoStrings
         (skipn (Z.to_nat (len before - 1)) haystack) [] after
  else Panics.
Proof.
  intros Habs.
  assert (Hlen : 1 <= len before).
  { destruct before as [|c t]; [exfalso; apply Habs, occurs_empty|].
    rewrite len_cons. pose proof (len_nonneg t). lia. }
  apply Index_absent in Habs.
  unfold extractPriceBetweenTwoStrings at 1. rewrite Habs.
  replace (-1 + len before) with (len before - 1) by lia.
  destruct (Z.leb_spec (len before - 1) (len haystack)) as [Hle|Hgt].
  - unfold extractPriceBetweenTwoStrings.
    rewrite Index_empty. change (len []) with 0. change (0 + 0) with 0.
    rewrite (slice_from_skipn haystack (len before - 1)) by lia.
    set (rest := skipn (Z.to_nat (len before - 1)) haystack).
    rewrite (slice_from_skipn rest 0) by (pose proof (len_nonneg rest); lia).
    change (skipn (Z.to_nat 0) rest) with rest.
    rewrite (slice_skipn haystack (len before - 1)) by lia. fold rest.
    reflexivity.
  - assert (E : slice_from haystack (len before - 1) = None).
    { apply slice_None_iff. lia. }
    rewrite E. reflexivity.
Qed.

(** X1.  When [before] does not occur in the text, the function reports
    nothing: it goes on from byte [len(before) - 1] of the text as if an
    empty anchor had been found there, and panics when the text is shorter
    than that. *)
Theorem missing_before_reads_from_offset :
  forall haystack before after,
    ~ occurs haystack before ->
    extractPriceBetweenTwoStrings haystack before after =
    if len before - 1 <=? len haystack
    then extractPriceBetweenTwoStrings
           (skipn (Z.to_nat (len before - 1)) haystack) [] after
    else Panics.
Proof. exact absent_before. Qed.

Lemma missing_before_witness :
  extractPriceBetweenTwoStrings (lit "Amount 12,34 EUR") (lit "Total: ") (lit " EUR")
  = extractPriceBetweenTwoStrings (lit " 12,34 EUR") [] (lit " EUR").
Proof.
  refine (missing_before_reads_from_offset (lit "Amount 12,34 EUR") (lit "Total: ")
            (lit " EUR") _).
  apply Index_absent. vm_compute. reflexivity.
Defined.

Lemma occurs_first_at s sub : occurs s sub -> exists i, first_at s sub i.
Proof.
  intros Hocc. destruct (Index_spec s sub) as [[_ Hno]|[_ Hf]].
  - destruct Hocc as [j Hj]. exfalso. exact (Hno j Hj).
  - eexists; exact Hf.
Qed.

Lemma found_before_empty_after haystack before :
  occurs haystack before ->
  extractPriceBetweenTwoStrings haystack before [] = Returns 0 (Some ErrSyntax).
Proof.
  intros Hocc. destruct (occurs_first_at _ _ Hocc) as (i & Hf).
  pose proof Hf as [(pre & rest & E & Hl) _]. subst i.
  rewrite (extract_anchored haystack before [] pre [] rest); [reflexivity|].
  split; [exact E|]. split; [exact Hf|].
  split; [exists [], rest; split; reflexivity | intros; simpl; lia].
Qed.

(** X2.  An empty [after] anchor never yields an amount: the text between
    the anchors is then empty, and the function returns a syntax error when
    [before] occurs in the text, and a syntax error or a panic when it
    does not. *)
Theorem empty_after_never_parses :
  forall haystack before,
    (occurs haystack before ->
     extractPriceBetweenTwoStrings haystack before [] = Returns 0 (Some ErrSyntax))
    /\ (extractPriceBetweenTwoStrings haystack before [] = Panics
        \/ extractPriceBetweenTwoStrings haystack before []
           = Returns 0 (Some ErrSyntax)).
Proof.
  intros haystack before. split; [apply found_before_empty_after|].
  destruct (Z.eq_dec (Index haystack before) (-1)) as [E|E].
  - apply Index_absent in E. rewrite (absent_before _ _ _ E).
    destruct (len before - 1 <=? len haystack); [|left; reflexivity].
    right. apply found_before_empty_after, occurs_empty.
  - right. apply found_before_empty_after.
    destruct (Index_spec haystack before) as [[E' _]|[_ [Hocc _]]]; [contradiction|].
    eexists; exact Hocc.
Qed.

Lemma empty_after_witness :
  extractPriceBetweenTwoStrings (lit "Total: 12,34 EUR") (lit "Total: ") []
  = Returns 0 (Some ErrSyntax).
Proof.
  refine (proj1 (empty_after_never_parses (lit "Total: 12,34 EUR") (lit "Total: ")) _).
  exists O, [], (lit "12,34 EUR"). split; reflexivity.
Defined.

(** The ASCII bytes of the cutset. *)
Lemma cutset_trims r :
  r = 0x20 \/ r = 0x0A \/ r = 0x09 \/ 0x61 <= r <= 0x7A \/ 0x41 <= r <= 0x5A ->
  ContainsRune cutset r = true.
Proof.
  assert (Hrange : forall base k, (k < 26)%nat -> base = 0x61 \/ base = 0x41 ->
                     ContainsRune cutset (base + Z.of_nat k) = true).
  { intros base k Hk [-> | ->];
      do 26 (destruct k as [|k]; [vm_compute; reflexivity|]); lia. }
  intros [-> | [-> | [-> | [H | H]]]]; try (vm_compute; reflexivity).
  - replace r with (0x61 + Z.of_nat (Z.to_nat (r - 0x61))) by lia.
    apply Hrange; [lia | left; reflexivity].
  - replace r with (0x41 + Z.of_nat (Z.to_nat (r - 0x41))) by lia.
    apply Hrange; [lia | right; reflexivity].
Qed.

Lemma trimmable_ascii c : trimmable c -> bval c < RuneSelf.
Proof. unfold trimmable, RuneSelf. lia. Qed.

Lemma trimmable_cutset c : trimmable c -> ContainsRune cutset (bval c) = true.
Proof. intros H. apply cutset_trims. exact H. Qed.

Lemma trimLeft_loop_cons fuel f x s :
  bval x < RuneSelf -> f (bval x) = true ->
  trimLeft_loop (S fuel) f (x :: s) = trimLeft_loop fuel f s.
Proof.
  intros Hx Hf. cbn [trimLeft_loop]. apply Z.ltb_lt in Hx. rewrite Hx, Hf.
  reflexivity.
Qed.

Lemma trimRight_loop_snoc fuel f s x :
  bval x < RuneSelf -> f (bval x) = true ->
  trimRight_loop (S fuel) f (s ++ [x]) = trimRight_loop fuel f s.
Proof.
  intros Hx Hf. cbn [trimRight_loop].
  destruct (s ++ [x]) eqn:E; [destruct s; discriminate|]. rewrite <- E.
  rewrite byteAt_last. apply Z.ltb_lt in Hx. rewrite Hx, Hf.
  rewrite len_app. unfold len. cbn [List.length].
  replace (Z.to_nat (Z.of_nat (List.length s) + Z.of_nat 1 - 1)) with (List.length s) by lia.
  rewrite firstn_app_exact. reflexivity.
Qed.

Lemma TrimLeftFunc_prefix f l m :
  Forall (fun c => bval c < RuneSelf /\ f (bval c) = true) l ->
  TrimLeftFunc (l ++ m) f = TrimLeftFunc m f.
Proof.
  unfold TrimLeftFunc. induction l as [|x l IH]; intros Hl; [reflexivity|].
  inversion Hl as [|? ? [Hx Hf] Hl']; subst.
  cbn [app List.length]. rewrite trimLeft_loop_cons by assumption. apply IH, Hl'.
Qed.

Lemma TrimRightFunc_suffix f s r :
  Forall (fun c => bval c < RuneSelf /\ f (bval c) = true) r ->
  TrimRightFunc (s ++ r) f = TrimRightFunc s f.
Proof.
  unfold TrimRightFunc. induction r as [|x r IH] using rev_ind; intros Hr.
  - rewrite app_nil_r. reflexivity.
  - apply Forall_app in Hr as [Hr Hx]. inversion Hx as [|? ? [Hx1 Hx2] _]; subst.
    rewrite app_assoc, length_app. cbn [List.length]. rewrite Nat.add_1_r.
    rewrite trimRight_loop_snoc by assumption. apply IH, Hr.
Qed.

(** A field ["<digits>,<digits>"] begins and ends with a byte the trim
    keeps. *)
Lemma field_ends d1 d2 :
  Forall isDigit d1 -> Forall isDigit d2 ->
  exists c t s' d,
    d1 ++ comma ++ d2 = c :: t /\ d1 ++ comma ++ d2 = s' ++ [d]
    /\ 0x2C <= bval c <= 0x39 /\ 0x2C <= bval d <= 0x39.
Proof.
  intros H1 H2.
  assert (Hc : 0x2C <= bval comma_byte <= 0x39) by (vm_compute; split; discriminate).
  assert (Hfirst : exists c t, d1 ++ comma ++ d2 = c :: t /\ 0x2C <= bval c <= 0x39).
  { destruct d1 as [|c t].
    - exists comma_byte, d2. split; [reflexivity | exact Hc].
    - exists c, (t ++ comma ++ d2). split; [reflexivity|].
      inversion H1; subst. unfold isDigit in *. lia. }
  assert (Hlast : exists s' d, d1 ++ comma ++ d2 = s' ++ [d] /\ 0x2C <= bval d <= 0x39).
  { destruct (list_eq_dec ascii_dec d2 []) as [->|Hne].
    - exists d1, comma_byte. split; [reflexivity | exact Hc].
    - destruct (exists_last Hne) as (s' & d & ->).
      exists (d1 ++ comma ++ s'), d. split; [rewrite <- !app_assoc; reflexivity|].
      apply Forall_app in H2 as [_ H2]. inversion H2; subst. unfold isDigit in *. lia. }
  destruct Hfirst as (c & t & E1 & Hc1). destruct Hlast as (s' & d & E2 & Hd).
  exists c, t, s', d. repeat split; assumption || lia.
Qed.

Lemma Trim_cutset_nonempty s :
  s <> [] ->
  Trim s cutset = TrimLeftFunc (TrimRightFunc s (ContainsRune cutset))
                               (ContainsRune cutset).
Proof. intros Hs. destruct s; [congruence | reflexivity]. Qed.

(** Letters and white space around a field ["<digits>,<digits>"] are
    trimmed away, and nothing else is. *)
Lemma Trim_words l d1 d2 r :
  Forall trimmable l -> Forall trimmable r ->
  Forall isDigit d1 -> Forall isDigit d2 ->
  Trim (l ++ (d1 ++ comma ++ d2) ++ r) cutset = d1 ++ comma ++ d2.
Proof.
  intros Hl Hr H1 H2.
  assert (Hcut : forall a, Forall trimmable a ->
            Forall (fun c => bval c < RuneSelf /\ ContainsRune cutset (bval c) = true) a).
  { intros a Ha. eapply Forall_impl; [|exact Ha].
    intros c Hc. split; [apply trimmable_ascii | apply trimmable_cutset]; exact Hc. }
  destruct (field_ends d1 d2 H1 H2) as (c & t & s' & d & E1 & E2 & Hc & Hd).
  set (m := d1 ++ comma ++ d2) in *.
  rewrite Trim_cutset_nonempty by (rewrite E1; destruct l; discriminate).
  rewrite app_assoc.
  rewrite TrimRightFunc_suffix by (apply Hcut; exact Hr).
  rewrite E2 at 1. rewrite app_assoc.
  rewrite TrimRightFunc_keep; [|unfold RuneSelf; lia | apply cutset_keeps; exact Hd].
  rewrite <- app_assoc, <- E2.
  rewrite TrimLeftFunc_prefix by (apply Hcut; exact Hl).
  rewrite E1. apply TrimLeftFunc_keep;
    [unfold RuneSelf; lia | apply cutset_keeps; exact Hc].
Qed.

(** The parse step on a field ["<digits>,<digits>"] with words around. *)
Lemma parseField_words l d1 d2 r :
  Forall trimmable l -> Forall trimmable r ->
  Forall isDigit d1 -> Forall isDigit d2 -> d1 ++ d2 <> [] ->
  parseField (l ++ (d1 ++ comma ++ d2) ++ r) =
  if decimal (d1 ++ d2) <=? 65535 then Returns (decimal (d1 ++ d2)) None
  else Returns 0 (Some ErrRange).
Proof.
  intros Hl Hr H1 H2 Hne. unfold parseField.
  rewrite (Trim_words l d1 d2 r Hl Hr H1 H2).
  rewrite (Replace_first_comma d1 d2 (digits_no_comma d1 H1)).
  rewrite ParseUint_10_16.
  destruct (d1 ++ d2) as [|c t] eqn:E; [congruence|]. rewrite <- E.
  assert (Hd : Forall isDigit (d1 ++ d2)) by (apply Forall_app; split; assumption).
  rewrite (parseDigits_digits _ 0 Hd) by lia. fold (decimal (d1 ++ d2)).
  destruct (decimal (d1 ++ d2) <=? 65535); reflexivity.
Qed.

(** X3.  Spaces, newlines, tabs and ASCII letters on either side of the
    amount, between the anchors, are ignored: with both anchors found and
    the text between them made of such bytes, then ["<digits>,<digits>"],
    then such bytes again, the function returns the number the digits
    denote when it is at most 65535, and a range error otherwise. *)
Theorem words_around_amount_are_ignored :
  forall haystack before after pre l d1 d2 r post,
    anchored haystack before after pre (l ++ (d1 ++ comma ++ d2) ++ r) post ->
    Forall trimmable l -> Forall trimmable r ->
    Forall isDigit d1 -> Forall isDigit d2 -> d1 ++ d2 <> [] ->
    extractPriceBetweenTwoStrings haystack before after =
    if decimal (d1 ++ d2) <=? 65535 then Returns (decimal (d1 ++ d2)) None
    else Returns 0 (Some ErrRange).
Proof.
  intros haystack before after pre l d1 d2 r post Hanch Hl Hr H1 H2 Hne.
  rewrite (extract_anchored _ _ _ _ _ _ Hanch).
  apply parseField_words; assumption.
Qed.

Lemma words_around_amount_witness :
  extractPriceBetweenTwoStrings (lit "Valor a pagar 12,34 EUR.") (lit "Valor")
                                (lit ".")
  = Returns 1234 None.
Proof.
  refine (words_around_amount_are_ignored
            (lit "Valor a pagar 12,34 EUR.") (lit "Valor") (lit ".")
            [] (lit " a pagar ") (lit "12") (lit "34") (lit " EUR") [] _ _ _ _ _ _).
  - split; [reflexivity|]. split; apply first_at_Index; vm_compute; reflexivity.
  - repeat constructor; unfold trimmable; vm_compute; intuition congruence.
  - repeat constructor; unfold trimmable; vm_compute; intuition congruence.
  - repeat constructor; vm_compute; discriminate.
  - repeat constructor; vm_compute; discriminate.
  - discriminate.
Defined.

End AmountParserMore.

(* ================================================================== *)
(** ** The HTML text extractor: further theorems *)

Module HtmlMore.
Import GoString Html Words.

Section Extractor.

Variable unescape : gostring -> gostring.

(** Tokens the loop has no case for can be left out. *)
Lemma loopDomTest_filter tokens : forall previous builder,
  loopDomTest unescape (filter (fun tok => negb (passedOver tok)) tokens)
              previous builder
  = loopDomTest unescape tokens previous builder.
Proof.
  induction tokens as [|tok rest IH]; intros previous builder; [reflexivity|].
  cbn [filter]. unfold passedOver at 1.
  destruct (Type_ tok) eqn:Ety; cbn [negb loopDomTest]; rewrite ?Ety;
    try reflexivity; try apply IH.
  destruct (eqb previous script || eqb previous style); [apply IH|].
  destruct (0 <? len (TrimSpace (UnescapeString unescape (Data tok)))); apply IH.
Qed.

End Extractor.

(** X4.  End tags, self-closing tags, comments and doctypes have no effect
    on the extracted text: removing them from the token stream leaves the
    result unchanged.  In particular a closing [script] tag does not end
    the suppression: the text behind it is dropped as well, until another
    start tag is met. *)
Theorem only_start_tags_and_text_matter :
  forall (tokenize : gostring -> list Token) (unescape : gostring -> gostring)
         (input : gostring),
    extractTextFromHtml
      (fun i => filter (fun tok => negb (passedOver tok)) (tokenize i))
      unescape input
    = extractTextFromHtml tokenize unescape input
    /\ forall text rest builder,
        loopDomTest unescape
          (mkToken StartTagToken script :: mkToken EndTagToken script
           :: mkToken TextToken text :: rest) [] builder
        = loopDomTest unescape rest script builder.
Proof.
  intros tokenize unescape input. split.
  - unfold extractTextFromHtml. apply loopDomTest_filter.
  - intros text rest builder. reflexivity.
Qed.

End HtmlMore.

(* ================================================================== *)
(** ** The message loop: further theorems *)

Module PipelineMore.
Import GoString GoStringFacts Strconv AmountParser Pipeline.
Import AmountParserTheorems PipelineTheorems.

Lemma findSubject_complete headers sub h :
  In h headers -> Gmail.Name h = subjectName -> occurs (Gmail.Value h) sub ->
  findSubject headers sub <> None.
Proof.
  induction headers as [|h0 rest IH]; intros Hin Hn Ho; [contradiction|].
  cbn [findSubject].
  destruct (eqb (Gmail.Name h0) subjectName) eqn:En; cbn [negb].
  - destruct (Contains (Gmail.Value h0) sub) eqn:Ec; cbn [negb]; [discriminate|].
    destruct Hin as [->|Hin]; [|exact (IH Hin Hn Ho)].
    apply Contains_occurs in Ho. congruence.
  - destruct Hin as [->|Hin]; [|exact (IH Hin Hn Ho)].
    apply eqb_eq in Hn. congruence.
Qed.

Lemma classify_iff (msg : Gmail.Message) (source : Source) :
  classify msg source <> None <->
  (exists h, In h (headersOf msg)
             /\ Gmail.Name h = subjectName
             /\ occurs (Gmail.Value h) (SubjectContains source))
  /\ (exists part, In part (removeFirst isHtml (partsOf msg))
                   /\ isAttachmentPart part).
Proof.
  unfold classify, headersOf, partsOf.
  destruct (Gmail.Payload msg) as [payload|];
    [|split; [congruence | intros [(h & [] & _) _]]].
  rewrite selectParts_spec. split.
  - destruct (findSubject _ _) as [h|] eqn:Eh; [|congruence].
    destruct (find hasAttachment _) as [att|] eqn:Ea; [|congruence].
    intros _. apply find_some in Ea as [Hin Hatt]. split.
    + exists h. apply findSubject_Some. exact Eh.
    + exists att. split; [exact Hin | apply hasAttachment_iff; exact Hatt].
  - intros [(h & Hin & Hn & Ho) (part & Hp & Hatt)].
    pose proof (findSubject_complete _ _ _ Hin Hn Ho) as Hs.
    destruct (findSubject _ _); [|congruence].
    destruct (find hasAttachment _) eqn:Ea; [discriminate|].
    apply hasAttachment_iff in Hatt.
    pose proof (find_none _ _ Ea _ Hp). congruence.
Qed.

(** X5.  A message qualifies exactly when one of its headers is named
    ["Subject"] and holds the configured substring, and one of its parts,
    other than the first [text/html] part, has a non-empty file name and an
    attachment id.  With an empty substring every header named ["Subject"]
    matches, whatever its value. *)
Theorem qualifies_iff :
  forall (msg : Gmail.Message) (source : Source),
    (classify msg source <> None <->
     (exists h, In h (headersOf msg)
                /\ Gmail.Name h = lit "Subject"
                /\ occurs (Gmail.Value h) (SubjectContains source))
     /\ (exists part, In part (removeFirst isHtml (partsOf msg))
                      /\ isAttachmentPart part))
    /\ (SubjectContains source = [] ->
        (classify msg source <> None <->
         (exists h, In h (headersOf msg) /\ Gmail.Name h = lit "Subject")
         /\ (exists part, In part (removeFirst isHtml (partsOf msg))
                          /\ isAttachmentPart part))).
Proof.
  intros msg source. split; [apply classify_iff|].
  intros Hempty. rewrite classify_iff, Hempty. split.
  - intros [(h & Hin & Hn & _) Hp]. split; [exists h; split; assumption | exact Hp].
  - intros [(h & Hin & Hn) Hp]. split; [|exact Hp].
    exists h. split; [exact Hin|]. split; [exact Hn|].
    exists O, [], (Gmail.Value h). split; reflexivity.
Qed.

Section Loop.

Variable srv : Services.
Variable month nextMonth : Time.
Variable source : Source.

(** What an invoice stored by the second half of a round is made of. *)
Lemma extractInvoice_go msg attachmentPart bodyPart inv :
  snd (extractInvoice srv source msg attachmentPart bodyPart) = Go inv ->
  exists attachmentBody data,
    Gmail.Body attachmentPart = Some attachmentBody
    /\ AttachmentsGet srv (Gmail.Id msg) (Gmail.AttachmentId attachmentBody) = Some data
    /\ DecodeString srv data = Some (FileContents inv)
    /\ FileName inv = BillName source ++ pdfSuffix
    /\ 0 <= Value inv <= 65535
    /\ In (StoreInvoice inv) (fst (extractInvoice srv source msg attachmentPart bodyPart)).
Proof.
  unfold extractInvoice, bind, emit, orFatal, leave, ret.
  destruct (Gmail.Body attachmentPart) as [attBody|]; [|discriminate].
  destruct (AttachmentsGet srv _ _) as [data|] eqn:Eg; [|discriminate].
  destruct (DecodeString srv data) as [bytes|] eqn:Ed; [|discriminate].
  destruct (invoiceTextOf srv source bodyPart bytes) as [t [text|e]]; [|discriminate].
  pose proof (returns_bounded text (StringBeforePrice source) (StringAfterPrice source)) as Hb.
  destruct (extractPriceBetweenTwoStrings text _ _) as [v [err|]|];
    cbn [fst snd app]; try discriminate.
  intros H. injection H as <-. exists attBody, data. cbn [FileName FileContents Value].
  split; [reflexivity|]. split; [exact Eg|]. split; [exact Ed|].
  split; [reflexivity|]. split; [exact Hb|].
  right. apply in_or_app. right. right. left. reflexivity.
Qed.

(** The PDF tool is called by the location switch only, on page one. *)
Lemma extractInvoice_pdftotext msg attachmentPart bodyPart n :
  In (CallPdftotext n) (fst (extractInvoice srv source msg attachmentPart bodyPart)) ->
  Location source = locAttachment /\ n = 1.
Proof.
  unfold extractInvoice, invoiceTextOf.
  destruct (eqb (Location source) locBody) eqn:Eb;
    destruct (eqb (Location source) locAttachment) eqn:Ea;
    run_proc; cbn [In]; intros H;
    repeat match goal with
           | H : _ \/ _ |- _ => destruct H as [H|H]
           | H : False |- _ => contradiction
           | H : _ = CallPdftotext _ |- _ => inversion H; subst; clear H
           end;
    try discriminate; try contradiction;
    (split; [apply eqb_eq; assumption | reflexivity]).
Qed.

End Loop.

(** X6.  Every invoice a round of the loop stores is named after the
    source ([BillName] followed by [".pdf"]), holds the decoded bytes of
    the attachment of a qualifying message dated within the window,
    whatever the location of the amount, and has an amount of at most
    65535; the store is among the events of the round. *)
Theorem stored_invoice_shape :
  forall srv month nextMonth source mId inv,
    snd (inspect srv month nextMonth source mId) = Go inv ->
    exists msg attachmentPart bodyPart attachmentBody data,
      MessagesGet srv mId = Some msg
      /\ inWindow month nextMonth msg
      /\ classify msg source = Some (attachmentPart, bodyPart)
      /\ Gmail.Body attachmentPart = Some attachmentBody
      /\ AttachmentsGet srv (Gmail.Id msg) (Gmail.AttachmentId attachmentBody) = Some data
      /\ DecodeString srv data = Some (FileContents inv)
      /\ FileName inv = BillName source ++ lit ".pdf"
      /\ 0 <= Value inv <= 65535
      /\ In (StoreInvoice inv) (fst (inspect srv month nextMonth source mId)).
Proof.
  intros srv month nextMonth source mId inv. rewrite inspect_cases.
  destruct (MessagesGet srv mId) as [msg|]; [|discriminate].
  destruct (Before _ _ || After _ _) eqn:Ew; [discriminate|].
  destruct (classify msg source) as [[att body]|] eqn:Ec; [|discriminate].
  cbn [fst snd]. intros H.
  destruct (extractInvoice_go srv source msg att body inv H)
    as (attBody & data & H1 & H2 & H3 & H4 & H5 & H6).
  exists msg, att, body, attBody, data.
  repeat split; try assumption; try (apply outside_iff in Ew; apply Ew); try lia.
  right. exact H6.
Qed.

Lemma stored_invoice_witness :
  exists msg attachmentPart bodyPart attachmentBody data,
    MessagesGet (mailbox threeBills) (lit "m1") = Some msg
    /\ inWindow windowStart windowEnd msg
    /\ classify msg electric = Some (attachmentPart, bodyPart)
    /\ Gmail.Body attachmentPart = Some attachmentBody
    /\ AttachmentsGet (mailbox threeBills) (Gmail.Id msg)
                      (Gmail.AttachmentId attachmentBody) = Some data
    /\ DecodeString (mailbox threeBills) data
       = Some (FileContents (mkInvoice (lit "Electric.pdf") (lit "att-2") 4567))
    /\ FileName (mkInvoice (lit "Electric.pdf") (lit "att-2") 4567)
       = BillName electric ++ lit ".pdf"
    /\ 0 <= Value (mkInvoice (lit "Electric.pdf") (lit "att-2") 4567) <= 65535
    /\ In (StoreInvoice (mkInvoice (lit "Electric.pdf") (lit "att-2") 4567))
          (fst (inspect (mailbox threeBills) windowStart windowEnd electric (lit "m1"))).
Proof.
  refine (stored_invoice_shape (mailbox threeBills) windowStart windowEnd electric
            (lit "m1") (mkInvoice (lit "Electric.pdf") (lit "att-2") 4567) _).
  vm_compute. reflexivity.
Defined.

(** X7.  The external PDF tool is run only for a source whose location is
    ["attachment"], and only on page 1: a round for any other location
    never calls it. *)
Theorem pdftotext_only_for_attachment_location :
  forall srv month nextMonth source mId n,
    In (CallPdftotext n) (fst (inspect srv month nextMonth source mId)) ->
    Location source = lit "attachment" /\ n = 1.
Proof.
  intros srv month nextMonth source mId n. rewrite inspect_cases.
  destruct (MessagesGet srv mId) as [msg|];
    [|cbn; intros [H|[]]; discriminate].
  destruct (Before _ _ || After _ _); [cbn; intros [H|[]]; discriminate|].
  destruct (classify msg source) as [[att body]|];
    [|cbn; intros [H|[]]; discriminate].
  cbn [fst In]. intros [H|H]; [discriminate|].
  exact (extractInvoice_pdftotext srv source msg att body n H).
Qed.

Lemma pdftotext_witness :
  Location electric = lit "attachment" /\ 1 = 1.
Proof.
  refine (pdftotext_only_for_attachment_location (mailbox threeBills)
            windowStart windowEnd electric (lit "m1") 1 _).
  vm_compute. tauto.
Defined.

(** X8.  When the search of a source returns messages none of which
    qualifies (all fetched, dated within the window and carrying a
    payload), or no message at all, the loop fetches each of them once,
    stores nothing and leaves the slot of the source at its zero value.
    The payload matters: a message without one makes the round panic
    instead. *)
Theorem no_qualifying_message_leaves_zero_slot :
  forall srv month nextMonth source msgs,
    MessagesList srv month nextMonth (From source) = Some msgs ->
    (forall m, In m msgs ->
       exists msg, MessagesGet srv m = Some msg
                   /\ inWindow month nextMonth msg
                   /\ Gmail.Payload msg <> None
                   /\ classify msg source = None) ->
    scrapeSource srv month nextMonth source
    = (CallMessagesList (From source) :: map CallMessagesGet msgs,
       Finished zeroInvoice).
Proof.
  intros srv month nextMonth source msgs Hlist Hall.
  unfold scrapeSource. rewrite Hlist.
  pose proof (messagesLoop_skip srv month nextMonth source msgs [] zeroInvoice) as H.
  rewrite app_nil_r in H. rewrite H by (intros p Hp; apply inspect_continue, Hall, Hp).
  cbn [messagesLoop fst snd]. rewrite app_nil_r. reflexivity.
Qed.

Lemma no_qualifying_message_witness :
  scrapeSource (mailbox [bill (lit "m0") 10 (lit "Newsletter")])
               windowStart windowEnd electric
  = ([CallMessagesList (lit "bills@example.com"); CallMessagesGet (lit "m0")],
     Finished zeroInvoice).
Proof.
  refine (no_qualifying_message_leaves_zero_slot
            (mailbox [bill (lit "m0") 10 (lit "Newsletter")])
            windowStart windowEnd electric [lit "m0"] eq_refl _).
  intros m [<-|[]]. exists (bill (lit "m0") 10 (lit "Newsletter")).
  split; [reflexivity|]. split; [vm_compute; split; discriminate|].
  split; [discriminate | reflexivity].
Defined.

(** The same search returning a reply without payload: the run panics and
    the slot is never returned. *)
Example no_payload_no_slot :
  scrapeSource (mailbox [bare (lit "b0") 10]) windowStart windowEnd electric
  = ([CallMessagesList (lit "bills@example.com"); CallMessagesGet (lit "b0")],
     Panicked).
Proof. vm_compute. reflexivity. Qed.

End PipelineMore.

(* ================================================================== *)
(** ** The loops over the configuration: theorems *)

Module ScrapeTheorems.
Import GoString GoStringFacts Strconv AmountParser Pipeline Scrape.
Import PipelineTheorems PipelineMore.

Section Loops.

Variable srv : Services.
Variable month nextMonth : Time.

Lemma inspect_go_slot source mId inv :
  snd (inspect srv month nextMonth source mId) = Go inv -> slotFor source inv.
Proof.
  rewrite inspect_cases.
  destruct (MessagesGet srv mId) as [msg|]; [|discriminate].
  destruct (Before _ _ || After _ _); [discriminate|].
  destruct (classify msg source) as [[att body]|]; [|discriminate].
  cbn [snd]. intros H.
  destruct (extractInvoice_go srv source msg att body inv H)
    as (attBody & data & _ & _ & _ & H4 & H5 & _).
  right. split; assumption.
Qed.

Lemma inspect_no_list source mId :
  count isList (fst (inspect srv month nextMonth source mId)) = 0%nat.
Proof.
  rewrite inspect_cases. unfold count.
  destruct (MessagesGet srv mId) as [msg|]; [|reflexivity].
  destruct (Before _ _ || After _ _); [reflexivity|].
  destruct (classify msg source) as [[att body]|]; [|reflexivity].
  cbn [fst filter isList].
  unfold extractInvoice, invoiceTextOf, bind, emit, orFatal, leave, ret.
  repeat (cbn [fst snd app filter isList List.length]; try break_inner);
    reflexivity.
Qed.

Lemma messagesLoop_no_list source msgs slot :
  count isList (fst (messagesLoop srv month nextMonth source msgs slot)) = 0%nat.
Proof.
  induction msgs as [|m rest IH]; [reflexivity|].
  cbn [messagesLoop]. pose proof (inspect_no_list source m) as Hm.
  destruct (inspect srv month nextMonth source m) as [t [inv|[ |why| ]]];
    cbn [fst] in *; try exact Hm.
  destruct (messagesLoop srv month nextMonth source rest slot) as [t' r].
  cbn [fst] in *. rewrite count_app, Hm, IH. reflexivity.
Qed.

Lemma messagesLoop_finished source msgs slot0 slot :
  snd (messagesLoop srv month nextMonth source msgs slot0) = Finished slot ->
  slot = slot0
  \/ exists m, In m msgs /\ snd (inspect srv month nextMonth source m) = Go slot.
Proof.
  induction msgs as [|m rest IH]; cbn [messagesLoop].
  - cbn. intros H. injection H as <-. left; reflexivity.
  - destruct (inspect srv month nextMonth source m) as [t [inv|[ |why| ]]] eqn:E;
      cbn [snd]; try discriminate.
    + intros H. injection H as <-. right. exists m.
      split; [left; reflexivity | rewrite E; reflexivity].
    + destruct (messagesLoop srv month nextMonth source rest slot0) as [t' r].
      cbn [snd] in *. intros H. destruct (IH H) as [->|(m' & Hin & Hgo)].
      * left; reflexivity.
      * right. exists m'. split; [right; exact Hin | exact Hgo].
Qed.

(** A source that is through leaves a zero slot or a well-formed invoice,
    after exactly one search. *)
Lemma scrapeSource_finished source t slot :
  scrapeSource srv month nextMonth source = (t, Finished slot) ->
  slotFor source slot /\ count isList t = 1%nat.
Proof.
  unfold scrapeSource.
  destruct (MessagesList srv month nextMonth (From source)) as [msgs|]; [|discriminate].
  pose proof (messagesLoop_no_list source msgs zeroInvoice) as Hn.
  pose proof (messagesLoop_finished source msgs zeroInvoice slot) as Hf.
  destruct (messagesLoop srv month nextMonth source msgs zeroInvoice) as [t' r].
  cbn [fst snd] in *. intros H. injection H as <- ->. split.
  - destruct (Hf eq_refl) as [->|(m & _ & Hgo)]; [left; reflexivity|].
    exact (inspect_go_slot source m slot Hgo).
  - unfold count in *. cbn [filter isList List.length]. rewrite Hn. reflexivity.
Qed.

Lemma sourcesLoop_done sources : forall t slots,
  sourcesLoop srv month nextMonth sources = (t, Done slots) ->
  Forall2 slotFor sources slots /\ count isList t = List.length sources.
Proof.
  induction sources as [|source rest IH]; intros t slots; cbn [sourcesLoop].
  - intros H. injection H as <- <-. split; [constructor | reflexivity].
  - destruct (scrapeSource srv month nextMonth source) as [t1 [slot|why| ]] eqn:E1;
      try discriminate.
    destruct (sourcesLoop srv month nextMonth rest) as [t2 [slots2|why| | ]] eqn:E2;
      try discriminate.
    intros H. injection H as <- <-.
    destruct (scrapeSource_finished source t1 slot E1) as [Hs Hc].
    destruct (IH t2 slots2 eq_refl) as [Hrest Hc2].
    split; [constructor; assumption|].
    rewrite count_app, Hc, Hc2. reflexivity.
Qed.

Lemma configsLoop_done configs : forall t groups,
  configsLoop srv month nextMonth configs = (t, Done groups) ->
  Forall2 groupFor configs groups
  /\ count isList t = List.length (flat_map SourceConfig.Sources configs).
Proof.
  induction configs as [|config rest IH]; intros t groups; cbn [configsLoop].
  - intros H. injection H as <- <-. split; [constructor | reflexivity].
  - destruct (sourcesLoop srv month nextMonth (SourceConfig.Sources config))
      as [t1 [invoices|why| | ]] eqn:E1; try discriminate.
    destruct (configsLoop srv month nextMonth rest) as [t2 [groups2|why| | ]] eqn:E2;
      try discriminate.
    intros H. injection H as <- <-.
    destruct (sourcesLoop_done _ t1 invoices E1) as [Hs Hc].
    destruct (IH t2 groups2 eq_refl) as [Hrest Hc2].
    split.
    + constructor; [|exact Hrest]. repeat split; try reflexivity. exact Hs.
    + cbn [flat_map]. rewrite count_app, length_app, Hc, Hc2. reflexivity.
Qed.

(** Sources that are through do not stop the loop; the first that fails
    does, and the sources behind it are not searched. *)
Lemma sourcesLoop_abort pre s post why :
  (forall p, In p pre ->
     exists slot, snd (scrapeSource srv month nextMonth p) = Finished slot) ->
  snd (scrapeSource srv month nextMonth s) = Failed why ->
  sourcesLoop srv month nextMonth (pre ++ s :: post)
  = (List.concat (map (fun p => fst (scrapeSource srv month nextMonth p)) pre)
     ++ fst (scrapeSource srv month nextMonth s),
     Aborted why).
Proof.
  intros Hpre Hs. induction pre as [|p pre IH]; cbn [app map List.concat sourcesLoop].
  - destruct (scrapeSource srv month nextMonth s) as [t r]. cbn [fst snd] in *.
    subst r. reflexivity.
  - destruct (Hpre p (or_introl eq_refl)) as [slot Hp].
    rewrite IH by (intros q Hq; apply Hpre; right; exact Hq).
    destruct (scrapeSource srv month nextMonth p) as [t r]. cbn [fst snd] in *.
    subst r. rewrite app_assoc. reflexivity.
Qed.

Lemma configsLoop_abort cpre c cpost t why :
  (forall q, In q cpre ->
     exists invoices,
       snd (sourcesLoop srv month nextMonth (SourceConfig.Sources q)) = Done invoices) ->
  sourcesLoop srv month nextMonth (SourceConfig.Sources c) = (t, Aborted why) ->
  configsLoop srv month nextMonth (cpre ++ c :: cpost)
  = (List.concat (map (fun q => fst (sourcesLoop srv month nextMonth
                                       (SourceConfig.Sources q))) cpre) ++ t,
     Aborted why).
Proof.
  intros Hpre Hc. induction cpre as [|q cpre IH];
    cbn [app map List.concat configsLoop].
  - rewrite Hc. reflexivity.
  - destruct (Hpre q (or_introl eq_refl)) as [invoices Hq].
    rewrite IH by (intros q' Hq'; apply Hpre; right; exact Hq').
    destruct (sourcesLoop srv month nextMonth (SourceConfig.Sources q)) as [t1 r].
    cbn [fst snd] in *. subst r. rewrite app_assoc. reflexivity.
Qed.

End Loops.

(** X9.  When [scrapeEmailInvoices] returns, its result has one group per
    configuration entry, in order, with the entry's name and destination
    and one slot per source, in order; each slot is the zero value or an
    invoice named after its source with an amount of at most 65535; and
    each source was searched exactly once. *)
Theorem scrape_result_mirrors_configuration :
  forall srv AddDate month configs t groups,
    scrapeEmailInvoices (Some srv) AddDate month configs = (t, Done groups) ->
    Forall2 groupFor configs groups
    /\ count isList t = List.length (flat_map SourceConfig.Sources configs).
Proof.
  intros srv AddDate month configs t groups H.
  exact (configsLoop_done srv month (AddDate month 0 1 0) configs t groups H).
Qed.

Lemma scrape_result_witness :
  Forall2 groupFor [home]
    [InvoiceGroup.mk (lit "Home") (lit "folder-1")
       [mkInvoice (lit "Electric.pdf") (lit "att-2") 4567; zeroInvoice]]
  /\ count isList
       [CallMessagesList (lit "bills@example.com"); CallMessagesGet (lit "m1");
        CallAttachmentsGet (lit "m1") (lit "att-2"); CallPdftotext 1;
        CallExtractPrice (lit "Invoice" ++ Html.newline ++ lit "Total 45,67 EUR"
                          ++ Html.newline) (lit "Total ") (lit " EUR");
        StoreInvoice (mkInvoice (lit "Electric.pdf") (lit "att-2") 4567);
        CallMessagesList (lit "bills@example.com"); CallMessagesGet (lit "m1")]
     = List.length (flat_map SourceConfig.Sources [home]).
Proof.
  refine (scrape_result_mirrors_configuration
            (mailbox [bill (lit "m1") 20 (lit "Invoice May")])
            (fun _ _ _ _ => windowEnd) windowStart [home] _ _ _).
  vm_compute. reflexivity.
Defined.

(** X10.  The run stops at the first source whose search or loop ends in a
    [log.Fatalf]: when the configuration entries before [c] and the sources
    of [c] before [s] are through and [s] fails, the run ends with that
    failure, and its events are those of the earlier entries and sources
    followed by those of [s]; no source or entry behind is searched. *)
Theorem first_failure_stops_the_run :
  forall srv month nextMonth cpre c cpost pre s post why,
    SourceConfig.Sources c = pre ++ s :: post ->
    (forall q, In q cpre ->
       exists invoices,
         snd (sourcesLoop srv month nextMonth (SourceConfig.Sources q)) = Done invoices) ->
    (forall p, In p pre ->
       exists slot, snd (scrapeSource srv month nextMonth p) = Finished slot) ->
    snd (scrapeSource srv month nextMonth s) = Failed why ->
    configsLoop srv month nextMonth (cpre ++ c :: cpost)
    = (List.concat (map (fun q => fst (sourcesLoop srv month nextMonth
                                         (SourceConfig.Sources q))) cpre)
       ++ List.concat (map (fun p => fst (scrapeSource srv month nextMonth p)) pre)
       ++ fst (scrapeSource srv month nextMonth s),
       Aborted why).
Proof.
  intros srv month nextMonth cpre c cpost pre s post why Hc Hcpre Hpre Hs.
  apply configsLoop_abort; [exact Hcpre|].
  rewrite Hc. apply sourcesLoop_abort; assumption.
Qed.

Lemma first_failure_witness :
  configsLoop (mailbox [bill (lit "m1") 1001 (lit "Invoice May")])
              windowStart windowEnd [home]
  = ([CallMessagesList (lit "bills@example.com"); CallMessagesGet (lit "m1")],
     Aborted EmailOutsideTimeRange).
Proof.
  refine (first_failure_stops_the_run
            (mailbox [bill (lit "m1") 1001 (lit "Invoice May")])
            windowStart windowEnd [] home [] [] electric [water]
            EmailOutsideTimeRange eq_refl _ _ _).
  - intros q [].
  - intros p [].
  - vm_compute. reflexivity.
Defined.

(** X14.  For a source located in the body, once the attachment of a
    qualifying message is fetched and decoded: a message without a
    [text/html] part ends the run with the body-part error; an HTML part
    without a body makes the program panic; a body that does not decode
    ends the run with the decode error; otherwise the parser is called on
    the text extracted from the decoded HTML, right after the attachment
    call. *)
Theorem body_location_reads_html_part :
  forall srv source msg attachmentPart attachmentBody bodyPart data attachmentBytes,
    Location source = lit "body" ->
    Gmail.Body attachmentPart = Some attachmentBody ->
    AttachmentsGet srv (Gmail.Id msg) (Gmail.AttachmentId attachmentBody) = Some data ->
    DecodeString srv data = Some attachmentBytes ->
    let fetched := CallAttachmentsGet (Gmail.Id msg) (Gmail.AttachmentId attachmentBody) in
    match bodyPart with
    | None =>
      extractInvoice srv source msg attachmentPart bodyPart
      = ([fetched], Exit (Fatal UnableToFindBodyPart))
    | Some part =>
      match Gmail.Body part with
      | None =>
        extractInvoice srv source msg attachmentPart bodyPart = ([fetched], Exit Panic)
      | Some body =>
        match DecodeString srv (Gmail.Data body) with
        | None =>
          extractInvoice srv source msg attachmentPart bodyPart
          = ([fetched], Exit (Fatal UnableToDecodeBody))
        | Some decodedBody =>
          exists rest r,
            extractInvoice srv source msg attachmentPart bodyPart
            = (fetched
               :: CallExtractPrice
                    (Html.extractTextFromHtml (tokenize srv) (unescape srv) decodedBody)
                    (StringBeforePrice source) (StringAfterPrice source)
               :: rest, r)
        end
      end
    end.
Proof.
  intros srv source msg att attBody body data bytes Hloc Hbody Hget Hdec fetched.
  unfold extractInvoice, invoiceTextOf, bind, emit, orFatal, leave, ret.
  rewrite Hbody, Hget, Hdec. unfold locBody.
  apply eqb_eq in Hloc. rewrite Hloc.
  destruct body as [part|]; [|reflexivity].
  destruct (Gmail.Body part) as [b|]; [|reflexivity].
  destruct (DecodeString srv (Gmail.Data b)) as [decoded|]; [|reflexivity].
  cbn [app fst snd].
  destruct (extractPriceBetweenTwoStrings _ _ _) as [v [err|]|];
    cbn [app]; eexists; eexists; reflexivity.
Qed.

Lemma body_location_witness :
  extractInvoice (mailbox [bill (lit "m1") 20 (lit "Invoice May")]) electricBody
                 (bill (lit "m1") 20 (lit "Invoice May")) pdfFilePart None
  = ([CallAttachmentsGet (lit "m1") (lit "att-2")],
     Exit (Fatal UnableToFindBodyPart)).
Proof.
  exact (body_location_reads_html_part
           (mailbox [bill (lit "m1") 20 (lit "Invoice May")]) electricBody
           (bill (lit "m1") 20 (lit "Invoice May")) pdfFilePart
           (Gmail.mkBody (lit "att-2") []) None (lit "att-2") (lit "att-2")
           eq_refl eq_refl eq_refl eq_refl).
Defined.

End ScrapeTheorems.

(* ================================================================== *)
(** ** The summary: theorems *)

Module NotifyTheorems.
Import GoString GoStringFacts Strconv AmountParser ParseFacts Pipeline Fmt FmtFacts.
Import AmountParserTheorems AmountParserMore Notify.

(** The parse step on a field ["<digits>,<digits>"]. *)
Lemma parseField_digits d1 d2 :
  Forall isDigit d1 -> Forall isDigit d2 -> d1 ++ d2 <> [] ->
  parseField (d1 ++ comma ++ d2) =
  if decimal (d1 ++ d2) <=? 65535 then Returns (decimal (d1 ++ d2)) None
  else Returns 0 (Some ErrRange).
Proof.
  intros H1 H2 Hne.
  pose proof (parseField_words [] d1 d2 [] (Forall_nil _) (Forall_nil _) H1 H2 Hne) as H.
  cbn [app] in H. rewrite app_nil_r in H. exact H.
Qed.

(** The cents of a printed amount: one digit below ten, two from ten on. *)
Lemma decimal_euros_cents e c :
  0 <= e < 2 ^ 64 -> 0 <= c < 100 ->
  decimal (formatUint e ++ formatUint c)
  = if c <? 10 then e * 10 + c else e * 100 + c.
Proof.
  intros He Hc. destruct (formatUint_spec e He) as (_ & _ & Ev).
  unfold decimal in *. rewrite decimal_from_app, Ev.
  destruct (Z.ltb_spec c 10) as [Hlt|Hge].
  - rewrite formatUint_one_digit by lia. unfold decimal_from. cbn [fold_left].
    rewrite bval_byte_of by lia. lia.
  - rewrite formatUint_two_digits by lia. unfold decimal_from. cbn [fold_left].
    assert (0 <= c / 10 < 10).
    { split; [apply Z.div_pos; lia | apply Z.div_lt_upper_bound; lia]. }
    pose proof (Z.mod_pos_bound c 10 ltac:(lia)).
    pose proof (Z.div_mod c 10 ltac:(lia)).
    rewrite !bval_byte_of by lia. lia.
Qed.

Lemma readBack_spec total :
  0 <= total ->
  (if total mod 100 <? 10 then total / 100 * 10 + total mod 100
   else total / 100 * 100 + total mod 100) = readBack total.
Proof.
  intros Ht. unfold readBack. destruct (total mod 100 <? 10); [reflexivity|].
  pose proof (Z.div_mod total 100 ltac:(lia)). lia.
Qed.

Lemma totalLine_anchored total :
  0 <= total < 2 ^ 64 ->
  anchored (totalLine total) (lit "Total: ") endOfLine []
           (formatUint (total / 100) ++ comma ++ formatUint (total mod 100)) [].
Proof.
  intros Ht.
  assert (He : 0 <= total / 100 < 2 ^ 64).
  { split; [apply Z.div_pos; lia|].
    apply Z.div_lt_upper_bound; [lia|].
    change (2 ^ 64) with 18446744073709551616 in *. lia. }
  assert (Hc : 0 <= total mod 100 < 2 ^ 64).
  { pose proof (Z.mod_pos_bound total 100 ltac:(lia)).
    change (2 ^ 64) with 18446744073709551616. lia. }
  destruct (formatUint_spec _ He) as (_ & Hd1 & _).
  destruct (formatUint_spec _ Hc) as (_ & Hd2 & _).
  split; [|split].
  - unfold totalLine. cbn [app]. rewrite app_nil_r, <- !app_assoc. reflexivity.
  - split; [|intros j _; cbn; lia].
    exists [], (formatUint (total / 100) ++ lit "," ++ formatUint (total mod 100) ++ endOfLine).
    split; [reflexivity | reflexivity].
  - rewrite app_nil_r.
    apply (first_at_fresh _ endOfLine [] (byte_of 0x0A) [] eq_refl).
    intros Hin. apply in_app_or in Hin as [Hin|Hin];
      [|apply in_app_or in Hin as [Hin|Hin]].
    + rewrite Forall_forall in Hd1. specialize (Hd1 _ Hin).
      unfold isDigit in Hd1. vm_compute in Hd1. destruct Hd1 as [Hd1 _]. apply Hd1; reflexivity.
    + destruct Hin as [Hin|[]]. discriminate.
    + rewrite Forall_forall in Hd2. specialize (Hd2 _ Hin).
      unfold isDigit in Hd2. vm_compute in Hd2. destruct Hd2 as [Hd2 _]. apply Hd2; reflexivity.
Qed.

(** X11.  The summary prints an amount as euros, a comma, and the cents
    without a leading zero.  Read back by the program's own parser between
    ["Total: "] and the end of the line, a total whose cents are ten or
    more (or which is below one euro) gives the total again, if it is at
    most 65535; a total of one euro or more with cents below ten gives
    another number: the euros times ten plus the cents. *)
Theorem total_line_read_back :
  forall total,
    0 <= total < 2 ^ 64 ->
    extractPriceBetweenTwoStrings (totalLine total) (lit "Total: ") endOfLine
    = (if readBack total <=? 65535 then Returns (readBack total) None
       else Returns 0 (Some ErrRange))
    /\ (readBack total = total <-> 10 <= total mod 100 \/ total < 100).
Proof.
  intros total Ht.
  assert (He : 0 <= total / 100 < 2 ^ 64).
  { split; [apply Z.div_pos; lia|].
    apply Z.div_lt_upper_bound; [lia|].
    change (2 ^ 64) with 18446744073709551616 in *. lia. }
  pose proof (Z.mod_pos_bound total 100 ltac:(lia)) as Hm.
  assert (Hc : 0 <= total mod 100 < 2 ^ 64).
  { change (2 ^ 64) with 18446744073709551616. lia. }
  destruct (formatUint_spec _ He) as (Hne & Hd1 & _).
  destruct (formatUint_spec _ Hc) as (_ & Hd2 & _).
  split.
  - rewrite (extract_anchored _ _ _ _ _ _ (totalLine_anchored total Ht)).
    rewrite parseField_digits;
      [|exact Hd1 | exact Hd2
       |intros Hnil; apply app_eq_nil in Hnil as [Hnil _]; contradiction].
    rewrite decimal_euros_cents by assumption.
    rewrite readBack_spec by lia. reflexivity.
  - unfold readBack. pose proof (Z.div_mod total 100 ltac:(lia)) as Hdm.
    destruct (Z.ltb_spec (total mod 100) 10) as [Hlt|Hge].
    + split.
      * intros E. right. assert (total / 100 = 0) by lia. lia.
      * intros [H|H]; [lia|]. rewrite (Z.div_small total 100) in * by lia. lia.
    + split; [intros _; left; lia | reflexivity].
Qed.

(** An amount of 12 euros and 5 cents is printed [12,5] and read back as
    125. *)
Lemma total_line_witness :
  extractPriceBetweenTwoStrings (totalLine 1205) (lit "Total: ") endOfLine
  = Returns 125 None
  /\ (readBack 1205 = 1205 <-> 10 <= 1205 mod 100 \/ 1205 < 100).
Proof.
  refine (total_line_read_back 1205 _). vm_compute. split; [discriminate | reflexivity].
Defined.

Lemma invoicesText_spec invoices : forall total message,
  invoicesText invoices total message
  = (fold_left (fun acc invoice => (acc + Value invoice) mod 2 ^ 64) invoices total,
     message ++ List.concat (map invoiceLine invoices)).
Proof.
  induction invoices as [|invoice rest IH]; intros total message; cbn.
  - rewrite app_nil_r. reflexivity.
  - rewrite IH, <- app_assoc. reflexivity.
Qed.

Lemma sum_wraps invoices : forall total,
  fold_left (fun acc invoice => (acc + Value invoice) mod 2 ^ 64) invoices
            (total mod 2 ^ 64)
  = (total + fold_right (fun invoice acc => Value invoice + acc) 0 invoices) mod 2 ^ 64.
Proof.
  induction invoices as [|invoice rest IH]; intros total; cbn [fold_left fold_right].
  - rewrite Z.add_0_r. reflexivity.
  - rewrite Z.add_mod_idemp_l by (change (2 ^ 64) with 18446744073709551616; lia).
    rewrite IH. f_equal. lia.
Qed.

Lemma invoicesText_zero invoices message :
  invoicesText invoices 0 message
  = (sumValues invoices, message ++ List.concat (map invoiceLine invoices)).
Proof.
  rewrite invoicesText_spec. f_equal.
  pose proof (sum_wraps invoices 0) as H.
  change (0 mod 2 ^ 64) with 0 in H. rewrite Z.add_0_l in H. exact H.
Qed.

Lemma groupsText_from idx : forall invoiceGroups message,
  0 < idx ->
  groupsText invoiceGroups idx message
  = message ++ List.concat (map (fun block => endOfLine ++ block)
                                (groupBlocks idx invoiceGroups)).
Proof.
  intros invoiceGroups. revert idx.
  induction invoiceGroups as [|g rest IH]; intros idx message Hidx.
  - cbn. rewrite app_nil_r. reflexivity.
  - cbn [groupsText groupBlocks map List.concat].
    apply Z.ltb_lt in Hidx. rewrite Hidx. apply Z.ltb_lt in Hidx.
    rewrite invoicesText_zero.
    rewrite IH by lia. unfold groupBlock.
    rewrite <- !app_assoc. reflexivity.
Qed.

Lemma joinBlocks_cons block rest :
  joinBlocks (block :: rest)
  = block ++ List.concat (map (fun b => endOfLine ++ b) rest).
Proof.
  revert block. induction rest as [|b rest IH]; intros block.
  - cbn. rewrite app_nil_r. reflexivity.
  - change (joinBlocks (block :: b :: rest))
      with (block ++ endOfLine ++ joinBlocks (b :: rest)).
    rewrite IH. cbn [map List.concat]. rewrite <- app_assoc. reflexivity.
Qed.

(** X12.  The text of the summary is the blocks of the groups, in order,
    separated by one empty line; the block of a group is its heading with
    its number counted from 1, one line per slot of the group in order,
    filled or not, and a total line showing the sum of the amounts of the
    slots modulo 2^64. *)
Theorem message_is_blocks_with_wrapped_totals :
  forall invoiceGroups : list InvoiceGroup.t,
    messageText invoiceGroups = joinBlocks (groupBlocks 0 invoiceGroups).
Proof.
  intros [|g rest]; [reflexivity|].
  unfold messageText. cbn [groupsText groupBlocks].
  change (0 <? 0) with false. cbn iota.
  rewrite invoicesText_zero, groupsText_from by lia.
  rewrite joinBlocks_cons. unfold groupBlock.
  cbn [app]. rewrite <- !app_assoc. reflexivity.
Qed.

(** The summary of a run in which the second rule found nothing: its slot
    is listed with an empty name and the amount [0,0]. *)
Example summary_with_empty_slot :
  messageText [InvoiceGroup.mk (lit "Home") (lit "folder-1")
                 [mkInvoice (lit "Electric.pdf") (lit "att-2") 4567; zeroInvoice]]
  = lit "1. Home" ++ endOfLine
    ++ lit "+ Electric.pdf - 45,67" ++ endOfLine
    ++ lit "+  - 0,0" ++ endOfLine
    ++ lit "Total: 45,67" ++ endOfLine.
Proof. vm_compute. reflexivity. Qed.

End NotifyTheorems.

(* ================================================================== *)
(** ** The upload: theorems *)

Module SaveTheorems.
Import GoString Pipeline Save.

Lemma countCalls_app p a b : countCalls p (a ++ b) = (countCalls p a + countCalls p b)%nat.
Proof. unfold countCalls. rewrite filter_app, length_app. reflexivity. Qed.

Lemma bounded_app t1 t2 f1 f2 g1 g2 :
  bounded t1 f1 g1 -> bounded t2 f2 g2 -> bounded (t1 ++ t2) (f1 + f2) (g1 + g2).
Proof.
  unfold bounded. rewrite !countCalls_app. lia.
Qed.

Lemma exact_app t1 t2 f1 f2 g1 g2 :
  exact t1 f1 g1 -> exact t2 f2 g2 -> exact (t1 ++ t2) (f1 + f2) (g1 + g2).
Proof.
  unfold exact. rewrite !countCalls_app. lia.
Qed.

Lemma exact_bounded t f g : exact t f g -> bounded t f g.
Proof. unfold exact, bounded. lia. Qed.

Lemma bounded_weaken t f g f' g' :
  bounded t f g -> (f <= f')%nat -> (g <= g')%nat -> bounded t f' g'.
Proof. unfold bounded. lia. Qed.

Section Save.

Variable W : Type.
Variable driveService : Service W.
Variable year monthNumber : Z.

Lemma folderStep_counts driveDestination invoiceIdx folderMetadata w t w' r :
  folderStep W driveService year monthNumber driveDestination invoiceIdx
             folderMetadata w = (t, w', r) ->
  bounded t 0 (atZero invoiceIdx)
  /\ (forall folder, r = inl folder -> exact t 0 (atZero invoiceIdx)).
Proof.
  unfold folderStep, atZero.
  destruct (invoiceIdx =? 0).
  - destruct (FilesList W driveService _ w) as [[[|found more]|] w1].
    + destruct (FilesCreate W driveService _ w1) as [[created|] w2];
        intros H; injection H as <- <- <-;
        (split; [unfold bounded; cbn; lia | intros folder Hf; try discriminate;
                 unfold exact; cbn; lia]).
    + intros H; injection H as <- <- <-.
      split; [unfold bounded; cbn; lia | intros; unfold exact; cbn; lia].
    + intros H; injection H as <- <- <-.
      split; [unfold bounded; cbn; lia | intros folder Hf; discriminate].
  - intros H; injection H as <- <- <-.
    split; [unfold bounded; cbn; lia | intros; unfold exact; cbn; lia].
Qed.

Lemma fileStep_counts folderMetadata invoice w t w' r :
  fileStep W driveService folderMetadata invoice w = (t, w', r) ->
  bounded t 1 0 /\ (r = None -> exact t 1 0).
Proof.
  unfold fileStep.
  destruct (FilesList W driveService _ w) as [[[|found more]|] w1].
  - destruct (FilesCreateMedia W driveService _ _ w1) as [[created|] w2];
      intros H; injection H as <- <- <-;
      (split; [unfold bounded; cbn; lia | intros Hr; try discriminate;
               unfold exact; cbn; lia]).
  - intros H; injection H as <- <- <-.
    split; [unfold bounded; cbn; lia | intros; unfold exact; cbn; lia].
  - intros H; injection H as <- <- <-.
    split; [unfold bounded; cbn; lia | intros; discriminate].
Qed.

Lemma invoicesLoop_counts driveDestination invoices :
  forall invoiceIdx folderMetadata w t w' r,
    0 <= invoiceIdx ->
    invoicesLoop W driveService year monthNumber driveDestination invoices
                 invoiceIdx folderMetadata w = (t, w', r) ->
    bounded t (List.length invoices) (foldersOf invoices invoiceIdx)
    /\ (r = None -> exact t (List.length invoices) (foldersOf invoices invoiceIdx)).
Proof.
  induction invoices as [|invoice rest IH];
    intros invoiceIdx folderMetadata w t w' r Hidx; cbn [invoicesLoop].
  - intros H; injection H as <- <- <-.
    split; [unfold bounded; cbn; lia | intros; unfold exact; cbn; lia].
  - cbn [foldersOf List.length].
    destruct (folderStep W driveService year monthNumber driveDestination
                         invoiceIdx folderMetadata w) as [[t1 w1] r1] eqn:E1.
    destruct (folderStep_counts _ _ _ _ _ _ _ E1) as [Hb1 He1].
    destruct r1 as [[folder|]|why].
    + destruct (fileStep W driveService folder invoice w1) as [[t2 w2] r2] eqn:E2.
      destruct (fileStep_counts _ _ _ _ _ _ E2) as [Hb2 He2].
      specialize (He1 _ eq_refl).
      destruct r2 as [why|].
      * intros H; injection H as <- <- <-. split; [|discriminate].
        pose proof (bounded_app _ _ _ _ _ _ Hb1 Hb2) as Hb.
        eapply bounded_weaken; [exact Hb | lia | lia].
      * specialize (He2 eq_refl).
        destruct (invoicesLoop W driveService year monthNumber driveDestination rest
                               (invoiceIdx + 1) (Some folder) w2)
          as [[t3 w3] r3] eqn:E3.
        destruct (IH (invoiceIdx + 1) (Some folder) w2 t3 w3 r3 ltac:(lia) E3) as [Hb3 He3].
        assert (Hz : foldersOf rest (invoiceIdx + 1) = 0%nat).
        { unfold foldersOf, atZero. destruct rest; [reflexivity|].
          destruct (Z.eqb_spec (invoiceIdx + 1) 0); [lia | reflexivity]. }
        rewrite Hz in *.
        intros H; injection H as <- <- <-. split.
        -- pose proof (bounded_app _ _ _ _ _ _ (exact_bounded _ _ _ He1)
                         (bounded_app _ _ _ _ _ _ (exact_bounded _ _ _ He2) Hb3)) as Hb.
           eapply bounded_weaken; [exact Hb | lia | lia].
        -- intros Hr. specialize (He3 Hr).
           pose proof (exact_app _ _ _ _ _ _ He1 (exact_app _ _ _ _ _ _ He2 He3)) as He.
           replace (S (List.length rest)) with (0 + (1 + List.length rest))%nat by lia.
           replace (atZero invoiceIdx) with (atZero invoiceIdx + (0 + 0))%nat by lia.
           exact He.
    + intros H; injection H as <- <- <-. split; [|discriminate].
      eapply bounded_weaken; [exact Hb1 | lia | lia].
    + intros H; injection H as <- <- <-. split; [|discriminate].
      eapply bounded_weaken; [exact Hb1 | lia | lia].
Qed.

Lemma groupsLoop_counts invoiceGroups : forall w t w' r,
  groupsLoop W driveService year monthNumber invoiceGroups w = (t, w', r) ->
  bounded t (List.length (flat_map InvoiceGroup.Invoices invoiceGroups))
            (List.length (filter hasInvoices invoiceGroups))
  /\ (r = None ->
      exact t (List.length (flat_map InvoiceGroup.Invoices invoiceGroups))
              (List.length (filter hasInvoices invoiceGroups))).
Proof.
  induction invoiceGroups as [|g rest IH]; intros w t w' r; cbn [groupsLoop].
  - intros H; injection H as <- <- <-.
    split; [unfold bounded; cbn; lia | intros; unfold exact; cbn; lia].
  - destruct (invoicesLoop W driveService year monthNumber
                (InvoiceGroup.DriveDestination g) (InvoiceGroup.Invoices g) 0 None w)
      as [[t1 w1] r1] eqn:E1.
    destruct (invoicesLoop_counts (InvoiceGroup.DriveDestination g)
                (InvoiceGroup.Invoices g) 0 None w t1 w1 r1 ltac:(lia) E1)
      as [Hb1 He1].
    assert (Hf : foldersOf (InvoiceGroup.Invoices g) 0
                 = List.length (filter hasInvoices [g])).
    { unfold foldersOf, hasInvoices. cbn [filter].
      destruct (InvoiceGroup.Invoices g); reflexivity. }
    rewrite Hf in *.
    cbn [flat_map]. rewrite length_app.
    change (g :: rest) with ([g] ++ rest). rewrite filter_app, length_app.
    destruct r1 as [why|].
    + intros H; injection H as <- <- <-. split; [|discriminate].
      eapply bounded_weaken; [exact Hb1 | lia | lia].
    + destruct (groupsLoop W driveService year monthNumber rest w1)
        as [[t2 w2] r2] eqn:E2.
      destruct (IH _ _ _ _ E2) as [Hb2 He2].
      intros H; injection H as <- <- <-. split.
      * apply bounded_app; [apply exact_bounded, He1; reflexivity | exact Hb2].
      * intros Hr. apply exact_app; [apply He1; reflexivity | apply He2, Hr].
Qed.

End Save.

(** X13.  Whatever the Drive service answers, [saveInvoices] uploads at
    most one file per file listing that found nothing and creates at most
    one folder per folder listing that found nothing, lists files at most
    once per slot and folders at most once per group that has slots.  When
    it returns, these bounds are reached: every slot was looked up exactly
    once and uploaded exactly when its listing was empty, and the month's
    folder was looked up exactly once per group with slots and created
    exactly when that listing was empty. *)
Theorem save_uploads_only_what_is_missing :
  forall (W : Type) (driveService : Service W) year monthNumber invoiceGroups w
         t w' r,
    saveInvoices (Some driveService) year monthNumber invoiceGroups w = (t, w', r) ->
    bounded t (List.length (flat_map InvoiceGroup.Invoices invoiceGroups))
              (List.length (filter hasInvoices invoiceGroups))
    /\ (r = None ->
        exact t (List.length (flat_map InvoiceGroup.Invoices invoiceGroups))
                (List.length (filter hasInvoices invoiceGroups))).
Proof.
  intros W driveService year monthNumber invoiceGroups w t w' r H.
  exact (groupsLoop_counts W driveService year monthNumber invoiceGroups w t w' r H).
Qed.

Lemma save_witness :
  bounded (fst (fst (saveInvoices (Some memoryDrive) 2024 5 homeGroups []))) 2 1
  /\ (snd (saveInvoices (Some memoryDrive) 2024 5 homeGroups []) = None ->
      exact (fst (fst (saveInvoices (Some memoryDrive) 2024 5 homeGroups []))) 2 1).
Proof.
  refine (save_uploads_only_what_is_missing (list gostring) memoryDrive 2024 5
            homeGroups [] _ (snd (fst (saveInvoices (Some memoryDrive) 2024 5 homeGroups [])))
            _ _).
  vm_compute. reflexivity.
Defined.

(** A first run uploads both slots, the unfilled one as an empty file with
    an empty name; a second run on the drive the first one left uploads
    nothing. *)
Example save_twice :
  saveInvoices (Some memoryDrive) 2024 5 homeGroups []
  = ([ListFolders (folderQuery (lit "folder-1") (lit "2024_5")) (Some [folderOne]);
      ListFiles (fileQuery (lit "f1") (lit "Electric.pdf")) (Some []);
      Upload (Drive.mkFile [] (lit "Electric.pdf") [] [lit "f1"]) (lit "att-2") true;
      ListFiles (fileQuery (lit "f1") []) (Some []);
      Upload (Drive.mkFile [] [] [] [lit "f1"]) [] true],
     [[]; lit "Electric.pdf"], None)
  /\ countCalls isUpload
       (fst (fst (saveInvoices (Some memoryDrive) 2024 5 homeGroups
                               [[]; lit "Electric.pdf"]))) = 0%nat.
Proof. split; vm_compute; reflexivity. Qed.

End SaveTheorems.
